(** * Dorios Excavate: the vein-mining engine of [BP/scripts/vein_mine.js]

    A shallow embedding of the excavation handlers (flood-fill and tunnel
    shapes), of the loot context, of the hunger governor and of the
    block-break trigger, with the properties stated about them. *)

From Stdlib Require Import ZArith QArith Qabs Lia List String Bool.
From stdpp Require Import gmap strings.

Local Open Scope Z_scope.

(** ** Positions and the neighbour table *)

Record Pos := mkPos { px : Z; py : Z; pz : Z }.

#[global] Instance Pos_eq_dec : EqDecision Pos.
Proof. solve_decision. Defined.

#[global] Instance Pos_countable : Countable Pos.
Proof.
  refine (inj_countable' (fun p => (px p, py p, pz p))
                         (fun t => mkPos t.1.1 t.1.2 t.2) _).
  by intros [].
Defined.

Definition offset (p d : Pos) : Pos :=
  mkPos (px p + px d) (py p + py d) (pz p + pz d).

(** [dirs]: 6 cardinal directions, 12 edge diagonals, 8 corner diagonals. *)
Definition dirs : list Pos :=
  [ mkPos 1 0 0; mkPos (-1) 0 0;
    mkPos 0 1 0; mkPos 0 (-1) 0;
    mkPos 0 0 1; mkPos 0 0 (-1);
    mkPos 1 1 0; mkPos 1 (-1) 0;
    mkPos (-1) 1 0; mkPos (-1) (-1) 0;
    mkPos 1 0 1; mkPos 1 0 (-1);
    mkPos (-1) 0 1; mkPos (-1) 0 (-1);
    mkPos 0 1 1; mkPos 0 1 (-1);
    mkPos 0 (-1) 1; mkPos 0 (-1) (-1);
    mkPos 1 1 1; mkPos 1 1 (-1);
    mkPos 1 (-1) 1; mkPos 1 (-1) (-1);
    mkPos (-1) 1 1; mkPos (-1) 1 (-1);
    mkPos (-1) (-1) 1; mkPos (-1) (-1) (-1) ].

(** ** Items and the per-run loot context *)

(** An [ItemStack] as the loot code reads it: [typeId] and [amount]
    (the code guards a missing amount with [?? 1]). *)
Record ItemStack := mkStack { typeId : string; amount : option Z }.

(** The tool handed to a run ([itemStackBeforeBreak]): its type and the
    custom components it carries. *)
Record Tool := mkTool { toolType : string; toolComponents : list string }.

(** [ctx.loot] is a JS [Map], which iterates in insertion order and
    keeps the position of a key that is set again. *)
Definition Loot := list (string * Z).

Fixpoint lootGet (l : Loot) (id : string) : option Z :=
  match l with
  | [] => None
  | (k, v) :: r => if String.eqb k id then Some v else lootGet r id
  end.

Fixpoint lootSet (l : Loot) (id : string) (v : Z) : Loot :=
  match l with
  | [] => [(id, v)]
  | (k, w) :: r =>
      if String.eqb k id then (k, v) :: r else (k, w) :: lootSet r id v
  end.

(** [addLoot(ctx, itemStack)] on the map of the context. *)
Definition addLoot (l : Loot) (itemStack : ItemStack) : Loot :=
  let id := typeId itemStack in
  let amount := default 1 (amount itemStack) in
  lootSet l id (default 0 (lootGet l id) + amount).

Definition addAll (l : Loot) (drops : list ItemStack) : Loot :=
  fold_left addLoot drops l.

(** ** The host: world, player and scheduler *)

Inductive GameMode := Survival | Creative | Adventure | Spectator.

Record BlockData := mkBlock { blockType : string; blockTags : list string }.

(** What [dim.getBlock(pos)] does at a position: it throws, it returns
    [undefined] (chunk not loaded), or it returns a block. *)
Inductive BlockQuery :=
| QThrows
| QUndefined
| QBlock (b : BlockData).

Record Host := mkHost {
  blockAt : Pos -> BlockQuery;
  mainhand : option string;          (* type of the equipped mainhand item *)
  gameMode : GameMode;
  hunger : option Q;                 (* current value of the hunger component *)
  saturation : option Q;             (* current value of the saturation component *)
  noConsumeSaturation : bool;        (* world property dorios:noConsumeSaturation *)
  viewDirection : Q * Q * Q
}.

(** Host calls that may throw. *)
Inductive Api :=
| GetDimension | GetViewDirection | GetEquipment | GetGameMode
| DurabilityValid | DurabilityDamage | SetEquipment | PlaySound
| GetDynamicProperty | GetComponent | SetCurrentValue | AddEffect
| GetLootTableManager | HasTag | GetItemComponent | RunCommand
| GenerateLoot | SpawnItem | WaitTicks | ConsoleWarn.

Inductive Command :=
| ScriptEvent (id : string) (p : Pos)
| FillAir (p : Pos).

(** The calls a run makes on the host that the properties are about. *)
Inductive Event :=
| EvGetEquipment (r : option string)
| EvDamage (survived : bool)
| EvSetEquipment (it : option string)
| EvPlaySound (id : string)
| EvAddEffect (id : string) (duration : Z)
| EvBreakBlock (p : Pos)
| EvCommand (c : Command)
| EvGenerateLoot (p : Pos) (drops : list ItemStack)
| EvSpawnItem (id : string) (n : Z)
| EvWaitTicks
| EvWarn.

(** What the run does not decide: which host call throws (by call
    number), what the rest of the game does to the host during a tick,
    the loot tables, the durability extension of the tool, and the
    blacklist of [global_variables.js]. *)
Record Oracle := mkOracle {
  faultAt : Api -> nat -> bool;
  envAt : nat -> Host -> Host;
  lootOf : nat -> Pos -> BlockData -> option Tool -> option (list ItemStack);
  durabilityValid : nat -> bool;
  damageSurvives : nat -> bool;
  blacklist : list string
}.

Record St := mkSt {
  host : Host;
  calls : nat;
  ticks : nat;
  trace : list Event;
  loot : Loot
}.

Definition initSt (h : Host) : St := mkSt h 0 0 [] [].

(** ** Control: results, faults and loops *)

Inductive Exit (A : Type) :=
| Ok (a : A)
| Throw
| Stuck.     (* a loop ran out of fuel; shown unreachable below *)
Arguments Ok {A} a.
Arguments Throw {A}.
Arguments Stuck {A}.

Definition M (A : Type) := St -> Exit A * St.

Definition ret {A} (a : A) : M A := fun s => (Ok a, s).

Definition bind {A B} (m : M A) (f : A -> M B) : M B :=
  fun s => match m s with
           | (Ok a, s') => f a s'
           | (Throw, s') => (Throw, s')
           | (Stuck, s') => (Stuck, s')
           end.

Notation "'do' x <- m ; k" := (bind m (fun x => k))
  (at level 10, x name, m at level 100, k at level 200).
Notation "'do' ' p <- m ; k" := (bind m (fun p => k))
  (at level 10, p pattern, m at level 100, k at level 200).
Notation "'run' m ; k" := (bind m (fun _ => k))
  (at level 10, m at level 100, k at level 200).

Definition get : M St := fun s => (Ok s, s).
Definition emit (e : Event) : M unit :=
  fun s => (Ok tt, mkSt (host s) (calls s) (ticks s) (trace s ++ [e]) (loot s)).
Definition setHost (h : Host) : M unit :=
  fun s => (Ok tt, mkSt h (calls s) (ticks s) (trace s) (loot s)).
Definition setLoot (l : Loot) : M unit :=
  fun s => (Ok tt, mkSt (host s) (calls s) (ticks s) (trace s) l).

(** [try { m } catch { h }] *)
Definition tryCatch {A} (m : M A) (h : M A) : M A :=
  fun s => match m s with
           | (Throw, s') => h s'
           | r => r
           end.

(** [try { m } finally { f }] *)
Definition tryFinally {A} (m : M A) (f : M unit) : M A :=
  fun s => match m s with
           | (Stuck, s') => (Stuck, s')
           | (r, s') =>
               match f s' with
               | (Ok _, s'') => (r, s'')
               | (Throw, s'') => (Throw, s'')
               | (Stuck, s'') => (Stuck, s'')
               end
           end.

(** How one pass through a loop body ends. *)
Inductive Flow := Next | Break | Return.

(** [for (const a of l) body]: [Break] leaves the loop, [Return] leaves
    the function. *)
Fixpoint forEach {A V} (l : list A) (body : A -> V -> M (Flow * V)) (v : V)
  : M (Flow * V) :=
  match l with
  | [] => ret (Next, v)
  | a :: l' =>
      do r <- body a v;
      match r with
      | (Next, v') => forEach l' body v'
      | (Break, v') => ret (Next, v')
      | (Return, v') => ret (Return, v')
      end
  end.

(** ** Host calls *)

Section Engine.

Variable orc : Oracle.

(** Every host call takes the next call number and throws when the
    oracle says so. *)
Definition call (a : Api) : M nat :=
  fun s =>
    let s' := mkSt (host s) (S (calls s)) (ticks s) (trace s) (loot s) in
    if faultAt orc a (calls s) then (Throw, s') else (Ok (calls s), s').

Definition withMainhand (h : Host) (it : option string) : Host :=
  mkHost (blockAt h) it (gameMode h) (hunger h) (saturation h)
         (noConsumeSaturation h) (viewDirection h).

Definition withHunger (h : Host) (v : Q) : Host :=
  mkHost (blockAt h) (mainhand h) (gameMode h) (Some v) (saturation h)
         (noConsumeSaturation h) (viewDirection h).

Definition withSaturation (h : Host) (v : Q) : Host :=
  mkHost (blockAt h) (mainhand h) (gameMode h) (hunger h) (Some v)
         (noConsumeSaturation h) (viewDirection h).

Definition airBlock : BlockData := mkBlock "minecraft:air" [].

Definition withAir (h : Host) (p : Pos) : Host :=
  mkHost (fun q => if decide (q = p) then QBlock airBlock else blockAt h q)
         (mainhand h) (gameMode h) (hunger h) (saturation h)
         (noConsumeSaturation h) (viewDirection h).

(** [player.getComponent("equippable").getEquipment("Mainhand")?.typeId] *)
Definition getEquipment : M (option string) :=
  run call GetEquipment;
  do s <- get;
  run emit (EvGetEquipment (mainhand (host s)));
  ret (mainhand (host s)).

(** [player.getComponent('equippable').setEquipment('Mainhand', it)] *)
Definition setEquipment (it : option string) : M unit :=
  run call SetEquipment;
  do s <- get;
  run setHost (withMainhand (host s) it);
  emit (EvSetEquipment it).

Definition getGameMode : M GameMode :=
  run call GetGameMode;
  do s <- get;
  ret (gameMode (host s)).

Definition playSound (id : string) : M unit :=
  run call PlaySound; emit (EvPlaySound id).

Definition addEffect (id : string) (duration : Z) : M unit :=
  run call AddEffect; emit (EvAddEffect id duration).

(** [runCommand]: a [fill ... air] takes effect at once; a script event
    is handled by other scripts, later. *)
Definition runCommand (c : Command) : M unit :=
  run call RunCommand;
  do s <- get;
  run match c with
      | FillAir p => setHost (withAir (host s) p)
      | ScriptEvent _ _ => ret tt
      end;
  emit (EvCommand c).

(** [dimension.spawnItem(new ItemStack(typeId, n), dropPos)] *)
Definition spawnItem (id : string) (n : Z) : M unit :=
  run call SpawnItem; emit (EvSpawnItem id n).

(** [await system.waitTicks(1)]: the rest of the game runs for a tick. *)
Definition waitTicks : M unit :=
  run call WaitTicks;
  fun s =>
    (Ok tt, mkSt (envAt orc (ticks s) (host s)) (calls s) (S (ticks s))
                 (trace s ++ [EvWaitTicks]) (loot s)).

Definition consoleWarn : M unit :=
  run call ConsoleWarn; emit EvWarn.

(** [dim.getBlock(pos)] under [try { } catch { }]: a throw leaves
    [targetBlock] undefined. *)
Definition getBlockOrUndefined (p : Pos) : M (option BlockData) :=
  do s <- get;
  ret match blockAt (host s) p with
      | QBlock b => Some b
      | QUndefined | QThrows => None
      end.

(** ** The loot context *)

(** The [while (remaining > 0)] loop of [dropVeinLoot]. *)
Fixpoint spawnStacks (fuel : nat) (id : string) (remaining : Z) : M unit :=
  if 0 <? remaining then
    match fuel with
    | 0%nat => fun s => (Stuck, s)
    | S fuel' =>
        let stackSize := Z.min remaining 64 in
        run spawnItem id stackSize;
        spawnStacks fuel' id (remaining - stackSize)
    end
  else ret tt.

Fixpoint dropEntries (l : Loot) : M unit :=
  match l with
  | [] => ret tt
  | (id, amount) :: r =>
      run spawnStacks (Z.to_nat amount) id amount;
      dropEntries r
  end.

(** [dropVeinLoot(ctx)] *)
Definition dropVeinLoot : M unit :=
  do s <- get; dropEntries (loot s).

(** [for (const drop of drops) addLoot(veinCtx, drop)] *)
Definition addDrops (drops : list ItemStack) : M unit :=
  do s <- get; setLoot (addAll (loot s) drops).

(** ** Breaking one block *)

Definition hasTag (b : BlockData) (tag : string) : M bool :=
  run call HasTag; ret (existsb (String.eqb tag) (blockTags b)).

(** [item?.getComponent(id)]: no call is made without an item. *)
Definition itemComponent (item : option Tool) (id : string) : M bool :=
  match item with
  | None => ret false
  | Some it =>
      run call GetItemComponent;
      ret (existsb (String.eqb id) (toolComponents it))
  end.

(** [for (const drop of drops) dim.spawnItem(drop, block.location)]: the
    path of [breakBlock] without a loot context. *)
Fixpoint spawnDrops (drops : list ItemStack) : M unit :=
  match drops with
  | [] => ret tt
  | drop :: r =>
      run spawnItem (typeId drop) (default 1 (amount drop));
      spawnDrops r
  end.

(** [breakBlock(player, item, block, veinCtx)] for a player and a block
    that are there; [veinCtx] tells whether a loot context was passed. *)
Definition breakBlock (item : option Tool) (p : Pos) (b : BlockData)
    (veinCtx : bool) : M unit :=
  run emit (EvBreakBlock p);
  run call GetLootTableManager;
  do machine <- hasTag b "dorios:machine";
  if machine then runCommand (ScriptEvent "dorios:destroyMachine" p) else
  do generator <- hasTag b "dorios:generator";
  if generator then runCommand (ScriptEvent "dorios:destroyGenerator" p) else
  do fluid <- hasTag b "dorios:fluid";
  if fluid then runCommand (ScriptEvent "dorios:destroyTank" p) else
  do furnace <- hasTag b "dorios:furnace";
  if furnace then runCommand (ScriptEvent "dorios:destroyFurnace" p) else
  do hammerComp <- itemComponent item "utilitycraft:hammer";
  if hammerComp then runCommand (ScriptEvent "dorios:hammerBlock" p) else
  do lootComp <- itemComponent item "utilitycraft:block_loot";
  if lootComp then runCommand (ScriptEvent "dorios:blockLoot" p) else
  do n <- call GenerateLoot;
  match lootOf orc n p b item with
  | None => fun s => (Throw, s)      (* iterating [undefined] throws *)
  | Some drops =>
      run emit (EvGenerateLoot p drops);
      run (if veinCtx then addDrops drops else spawnDrops drops);
      runCommand (FillAir p)
  end.

(** ** The resource governor *)

(** [reduceHunger(player, minusHunger = 1, minusSaturation = 1)]; the
    hunger component is the one the lookup chain of the code finds. *)
Definition reduceHunger (minusHunger minusSaturation : Q) : M bool :=
  run call GetDynamicProperty;
  do s <- get;
  if noConsumeSaturation (host s) then ret true else
  run call GetComponent;
  run call GetComponent;
  match hunger (host s), saturation (host s) with
  | Some currentHunger, Some currentSaturation =>
      if Qle_bool 0 (currentSaturation - minusSaturation) then
        run call SetCurrentValue;
        run setHost (withSaturation (host s) (currentSaturation - minusSaturation));
        ret true
      else if Qle_bool 0 (currentHunger - minusHunger) then
        run call SetCurrentValue;
        run setHost (withHunger (host s) (currentHunger - minusHunger));
        ret true
      else ret false
  | _, _ => ret false
  end.

(** The hunger step of every handler:
    [if (cont % 10 == 0 && cont != 0) if (!reduceHunger(player)) { nausea; stop }].
    The result tells whether the handler stops. *)
Definition hungerGate (cont : Z) : M bool :=
  if (Z.rem cont 10 =? 0) && negb (cont =? 0) then
    do ok <- reduceHunger 1 1;
    if ok then ret false
    else run addEffect "nausea" 200; ret true
  else ret false.

(** The durability step of every handler. *)
Definition wear (item : option Tool) : M unit :=
  do gm <- getGameMode;
  match gm, item with
  | Survival, Some it =>
      do n <- call DurabilityValid;
      if durabilityValid orc n then
        do k <- call DurabilityDamage;
        run emit (EvDamage (damageSurvives orc k));
        if damageSurvives orc k then setEquipment (Some (toolType it))
        else run setEquipment None; playSound "random.break"
      else ret tt
  | _, _ => ret tt
  end.

(** The tool check of every handler:
    [if (item) if (currentMainhand?.typeId != item.typeId) stop]. *)
Definition toolChanged (item : option Tool) : M bool :=
  match item with
  | None => ret false
  | Some it =>
      do cur <- getEquipment;
      ret (negb (bool_decide (cur = Some (toolType it))))
  end.

(** A pass through a loop body: the tool check, which leaves by [stop]
    when the tool has changed, then the rest of the body. *)
Definition checked {V} (item : option Tool) (stop : Flow) (v : V)
    (rest : M (Flow * V)) : M (Flow * V) :=
  do changed <- toolChanged item;
  if changed then ret (stop, v) else rest.

(** ** Flood-fill shapes *)

(** [s.endsWith(suffix)] *)
Definition endsWith (s suffix : string) : bool :=
  (String.length suffix <=? String.length s)%nat &&
  String.eqb
    (String.substring (String.length s - String.length suffix)
                      (String.length suffix) s)
    suffix.

Definition patterns : list string :=
  ["_log"; "_leaves"; "_stem"; "_wart_block"]%string.

Definition isTreeBlock (typeId : string) : bool :=
  existsb (fun p => endsWith typeId p) patterns.

Definition isOreBlock (typeId : string) : bool :=
  endsWith typeId "_ore" || String.eqb typeId "minecraft:ancient_debris".

Record FloodVars := mkFlood {
  toCheck : list Pos;
  visited : gset Pos;
  cont : Z
}.

(** The [while] body of a flood-fill handler after its tool check;
    [eligibleType] is the test on [targetBlock.typeId]. *)
Definition floodRest (eligibleType : string -> bool) (item : option Tool)
    (v : FloodVars) : M (Flow * FloodVars) :=
  match toCheck v with
  | [] => fun s => (Throw, s)        (* [shift()] of an empty queue *)
  | pos :: rest =>
      if decide (pos ∈ visited v)
      then ret (Next, mkFlood rest (visited v) (cont v))
      else
        let visited' := {[pos]} ∪ visited v in
        do targetBlock <- getBlockOrUndefined pos;
        if (size visited' =? 1)%nat
           || match targetBlock with
              | Some b => eligibleType (blockType b)
              | None => false
              end
        then
          run wear item;
          do stop <- hungerGate (cont v);
          if stop then ret (Break, mkFlood rest visited' (cont v)) else
          let cont' := cont v + 1 in
          run match targetBlock with
              | Some b => run breakBlock item pos b true; waitTicks
              | None => ret tt
              end;
          ret (Next, mkFlood (rest ++ map (offset pos) dirs) visited' cont')
        else ret (Next, mkFlood rest visited' (cont v))
  end.

(** One pass through the [while] body of a flood-fill handler. *)
Definition floodIter (eligibleType : string -> bool) (item : option Tool)
    (v : FloodVars) : M (Flow * FloodVars) :=
  checked item Break v (floodRest eligibleType item v).

(** [while (toCheck.length > 0 && cont < maxVein)] *)
Fixpoint floodLoop (fuel : nat) (eligibleType : string -> bool)
    (item : option Tool) (maxVein : Z) (v : FloodVars) : M unit :=
  if (0 <? length (toCheck v))%nat && (cont v <? maxVein) then
    match fuel with
    | 0%nat => fun s => (Stuck, s)
    | S fuel' =>
        do r <- floodIter eligibleType item v;
        match r with
        | (Next, v') => floodLoop fuel' eligibleType item maxVein v'
        | (_, _) => ret tt
        end
    end
  else ret tt.

Definition floodFuel (maxVein : Z) : nat := S (S (Z.to_nat (26 * maxVein))).

Definition floodFill (eligibleType : string -> bool) (origin : Pos)
    (maxVein : Z) (item : option Tool) : M unit :=
  tryFinally
    (run call GetDimension;
     floodLoop (floodFuel maxVein) eligibleType item maxVein
               (mkFlood [origin] ∅ 0))
    dropVeinLoot.

(** The handlers take the block that was broken ([origin] is its
    location), the type that was broken, the budget and the tool. *)
Definition shapelessVein (origin : Pos) (brokenBlock : string) (maxVein : Z)
    (item : option Tool) : M unit :=
  floodFill (fun typeId => String.eqb typeId brokenBlock) origin maxVein item.

Definition treeCapitator (origin : Pos) (brokenBlock : string) (maxVein : Z)
    (item : option Tool) : M unit :=
  floodFill isTreeBlock origin maxVein item.

Definition veinMiner (origin : Pos) (brokenBlock : string) (maxVein : Z)
    (item : option Tool) : M unit :=
  floodFill isOreBlock origin maxVein item.

(** ** Tunnel shapes *)

Inductive Axis := AxisX | AxisY | AxisZ.

(** The axis and step sign read off [player.getViewDirection()]. *)
Definition aimAxis (allowVertical : bool) (v : Q * Q * Q) : Axis * Z :=
  let '(vx, vy, vz) := v in
  let sign (c : Q) : Z := if Qle_bool 0 c then 1 else -1 in
  if negb allowVertical then
    if Qle_bool (Qabs vz) (Qabs vx) then (AxisX, sign vx)
    else (AxisZ, sign vz)
  else
    if Qle_bool (Qabs vy) (Qabs vx) && Qle_bool (Qabs vz) (Qabs vx)
    then (AxisX, sign vx)
    else if Qle_bool (Qabs vy) (Qabs vz) then (AxisZ, sign vz)
    else (AxisY, sign vy).

Definition getViewDirection : M (Q * Q * Q) :=
  run call GetViewDirection;
  do s <- get;
  ret (viewDirection (host s)).

(** The local [getBlock(x, y, z)] of the tunnel handlers: [null] or
    [false] (here [None]) unless the block is there, is not air, is not
    blacklisted and has the type that was broken. *)
Definition getBlock (matchType : bool) (brokenBlockPerm : string) (h : Host)
    (p : Pos) : option BlockData :=
  match blockAt h p with
  | QThrows => None
  | QUndefined => None
  | QBlock b =>
      if String.eqb (blockType b) "minecraft:air" then None
      else if existsb (String.eqb (blockType b)) (blacklist orc) then None
      else if matchType && negb (String.eqb (blockType b) brokenBlockPerm)
      then None
      else Some b
  end.

Definition getBlockNow (brokenBlockPerm : string) (p : Pos)
  : M (option BlockData) :=
  do s <- get; ret (getBlock true brokenBlockPerm (host s) p).

(** [origin] moved by [k] along the axis. *)
Definition advance (axis : Axis) (origin : Pos) (k : Z) : Pos :=
  match axis with
  | AxisX => mkPos (px origin + k) (py origin) (pz origin)
  | AxisY => mkPos (px origin) (py origin + k) (pz origin)
  | AxisZ => mkPos (px origin) (py origin) (pz origin + k)
  end.

(** [try { cont++; breakBlock(...) } catch (e) { console.warn(...); return }]:
    the result tells whether the handler returns. *)
Definition breakOrWarn (item : option Tool) (p : Pos) (b : BlockData)
  : M bool :=
  tryCatch (run breakBlock item p b true; ret false)
           (run consoleWarn; ret true).

(** The [for] body of [lineTunnel] after its tool check. *)
Definition lineRest (brokenBlockPerm : string) (item : option Tool)
    (pos : Pos) (cont : Z) : M (Flow * Z) :=
  do blk <- getBlockNow brokenBlockPerm pos;
  match blk with
  | None => ret (Next, cont)
  | Some b =>
      run wear item;
      do stop <- hungerGate cont;
      if stop then ret (Break, cont) else
      do failed <- breakOrWarn item pos b;
      if failed then ret (Return, cont + 1) else
      run waitTicks;
      ret (Next, cont + 1)
  end.

(** One pass through the [for] body of [lineTunnel]. *)
Definition lineIter (origin : Pos) (brokenBlockPerm : string)
    (item : option Tool) (axis : Axis) (stepSign : Z) (d : Z) (cont : Z)
  : M (Flow * Z) :=
  let pos := advance axis origin (d * stepSign) in
  checked item Break cont (lineRest brokenBlockPerm item pos cont).

Definition lineTunnel (origin : Pos) (brokenBlockPerm : string) (maxVein : Z)
    (item : option Tool) : M unit :=
  tryFinally
    (let maxLength := maxVein in
     run call GetDimension;
     do v <- getViewDirection;
     let '(axis, stepSign) := aimAxis true v in
     run forEach (seqZ 0 maxLength)
                 (lineIter origin brokenBlockPerm item axis stepSign) 0;
     ret tt)
    dropVeinLoot.

(** The inner [for] body of [smallTunnel] after its tool check. *)
Definition smallRest (brokenBlockPerm : string) (item : option Tool)
    (pos : Pos) (cont : Z) : M (Flow * Z) :=
  do blk <- getBlockNow brokenBlockPerm pos;
  match blk with
  | None => ret (Next, cont)
  | Some b =>
      run wear item;
      do stop <- hungerGate cont;
      if stop then ret (Return, cont) else
      do failed <- breakOrWarn item pos b;
      if failed then ret (Return, cont + 1) else
      run waitTicks;
      ret (Next, cont + 1)
  end.

(** One pass through the inner [for] body of [smallTunnel]. *)
Definition smallIter (brokenBlockPerm : string) (item : option Tool)
    (base : Pos) (off : Pos) (cont : Z) : M (Flow * Z) :=
  checked item Return cont
          (smallRest brokenBlockPerm item (offset base off) cont).

Definition smallOffsets : list Pos := [mkPos 0 0 0; mkPos 0 1 0].

(** One pass through the outer [for] body of [smallTunnel]. *)
Definition smallSlice (origin : Pos) (brokenBlockPerm : string)
    (item : option Tool) (axis : Axis) (stepSign : Z) (d : Z) (cont : Z)
  : M (Flow * Z) :=
  let base := advance axis origin (d * stepSign) in
  forEach smallOffsets (smallIter brokenBlockPerm item base) cont.

Definition smallTunnel (origin : Pos) (brokenBlockPerm : string) (maxVein : Z)
    (item : option Tool) : M unit :=
  tryFinally
    (let maxLength := maxVein / 2 in
     run call GetDimension;
     do v <- getViewDirection;
     let '(axis, stepSign) := aimAxis true v in
     run forEach (seqZ 0 maxLength)
                 (smallSlice origin brokenBlockPerm item axis stepSign) 0;
     ret tt)
    dropVeinLoot.

Definition orderOut : list (Z * Z) :=
  [ (0, 0); (1, 0); (1, 1); (0, 1); (-1, 1);
    (-1, 0); (-1, -1); (0, -1); (1, -1) ].

Definition spiralOffsets (outward : bool) : list (Z * Z) :=
  if outward then orderOut else rev orderOut.

(** The cell of a slice at [(dx, dy)] from its centre. *)
Definition sliceCell (axis : Axis) (sliceCenter : Pos) (o : Z * Z) : Pos :=
  let '(dx, dy) := o in
  match axis with
  | AxisX => mkPos (px sliceCenter) (py sliceCenter + dx) (pz sliceCenter + dy)
  | AxisY => mkPos (px sliceCenter + dx) (py sliceCenter) (pz sliceCenter + dy)
  | AxisZ => mkPos (px sliceCenter + dx) (py sliceCenter + dy) (pz sliceCenter)
  end.

(** The probe of [largeTunnel] before its depth loop: [hasSolid]. *)
Fixpoint hasSolid (brokenBlockPerm : string) (h : Host) (axis : Axis)
    (sliceCenter : Pos) (order : list (Z * Z)) : bool :=
  match order with
  | [] => false
  | o :: order' =>
      match getBlock true brokenBlockPerm h (sliceCell axis sliceCenter o) with
      | Some _ => true
      | None => hasSolid brokenBlockPerm h axis sliceCenter order'
      end
  end.

Definition sliceStart (brokenBlockPerm : string) (h : Host) (axis : Axis)
    (origin : Pos) : Z :=
  if hasSolid brokenBlockPerm h axis origin (spiralOffsets true) then 0 else 1.

Record LargeVars := mkLarge {
  lcont : Z;
  broken : Z;
  foundInSlice : bool
}.

(** The inner [for] body of [largeTunnel] after its tool check. *)
Definition largeRest (brokenBlockPerm : string) (item : option Tool)
    (maxBlocks : Z) (pos : Pos) (v : LargeVars) : M (Flow * LargeVars) :=
  do blk <- getBlockNow brokenBlockPerm pos;
  match blk with
  | None => ret (Next, v)
  | Some b =>
      run wear item;
      do stop <- hungerGate (lcont v);
      if stop then ret (Break, v) else
      do failed <- breakOrWarn item pos b;
      if failed
      then ret (Return, mkLarge (lcont v + 1) (broken v) (foundInSlice v))
      else
        let v' := mkLarge (lcont v + 1) (broken v + 1) true in
        if maxBlocks <=? broken v' + 1 then ret (Return, v') else
        run waitTicks;
        ret (Next, v')
  end.

(** One pass through the inner [for] body of [largeTunnel]. *)
Definition largeIter (brokenBlockPerm : string) (item : option Tool)
    (maxBlocks : Z) (axis : Axis) (sliceCenter : Pos) (o : Z * Z)
    (v : LargeVars) : M (Flow * LargeVars) :=
  checked item Break v
          (largeRest brokenBlockPerm item maxBlocks
                     (sliceCell axis sliceCenter o) v).

(** One pass through the outer [for] body of [largeTunnel]; the
    variables kept between slices are [cont], [broken] and [outward]. *)
Definition largeSlice (origin : Pos) (brokenBlockPerm : string)
    (item : option Tool) (maxBlocks : Z) (axis : Axis) (stepSign : Z)
    (d : Z) (w : Z * Z * bool) : M (Flow * (Z * Z * bool)) :=
  let '(cont, broken0, outward) := w in
  let sliceCenter := advance axis origin (d * stepSign) in
  do r <- forEach (spiralOffsets outward)
                  (largeIter brokenBlockPerm item maxBlocks axis sliceCenter)
                  (mkLarge cont broken0 false);
  match r with
  | (Return, v) => ret (Return, (lcont v, broken v, outward))
  | (_, v) =>
      if negb (foundInSlice v) then ret (Break, (lcont v, broken v, outward))
      else ret (Next, (lcont v, broken v, negb outward))
  end.

(** The depths [d = sliceStart; d <= maxLength; d++] of [largeTunnel]. *)
Definition largeDepths (brokenBlockPerm : string) (h : Host) (axis : Axis)
    (origin : Pos) (maxLength : Z) : list Z :=
  let start := sliceStart brokenBlockPerm h axis origin in
  seqZ start (maxLength - start + 1).

Definition largeTunnel (origin : Pos) (brokenBlockPerm : string) (maxVein : Z)
    (item : option Tool) : M unit :=
  tryFinally
    (let maxLength := maxVein / 4 in
     let maxBlocks := maxVein * 2 in
     run call GetDimension;
     do v <- getViewDirection;
     let '(axis, stepSign) := aimAxis true v in
     do s <- get;
     run forEach (largeDepths brokenBlockPerm (host s) axis origin maxLength)
                 (largeSlice origin brokenBlockPerm item maxBlocks axis stepSign)
                 (0, 0, true);
     ret tt)
    dropVeinLoot.

End Engine.

(** ** The block-break trigger *)

Section Trigger.

Local Open Scope string_scope.

(** From [global_variables.js] and [is_diggable.js], and the JSON coding
    of the stored list. *)
Variable list_default : list string.
Variable blacklist_ : list string.
Variable is_diggable : option Tool -> string -> bool.
Variable parseJSON : string -> option (list string).
Variable stringifyJSON : list string -> string.

(** The dynamic properties of the player that the trigger reads. *)
Record Settings := mkSettings {
  isAdding : bool;
  isBlacklistAdding : bool;
  isDefaultAdding : bool;
  veinEnabled : option bool;
  veinShape : option string;
  veinLimit : option Z;
  veinList : option string
}.

Record BreakEvent := mkBreakEvent {
  isSneaking : bool;
  brokenType : string;               (* brokenBlockPermutation.type.id *)
  blockLocation : Pos;
  itemStackBeforeBreak : option Tool
}.

(** A call [vein(player, block, brokenBlock, veinLimit, itemStackBeforeBreak)]
    of the handler selected by [shape]. *)
Record RunCall := mkRunCall {
  shape : string;
  runOrigin : Pos;
  runBrokenBlock : string;
  runLimit : Z;
  runItem : option Tool
}.

Inductive Triggered :=
| NoRun
| Faulted
| Started (c : RunCall).

(** [s.includes(sub)] *)
Definition includes (s sub : string) : bool :=
  match String.index 0 sub s with Some _ => true | None => false end.

(** [s.replace(pat, "")]: the first occurrence is removed. *)
Definition removeFirst (s pat : string) : string :=
  match String.index 0 pat s with
  | Some n =>
      String.substring 0 n s ++
      String.substring (n + String.length pat)
                       (String.length s - (n + String.length pat)) s
  | None => s
  end.

Definition handlerNames : list string :=
  ["shapelessVein"; "treeCapitator"; "veinMiner";
   "largeTunnel"; "smallTunnel"; "lineTunnel"].

(** What [veinHandler[veinShape]] finds for another name: nothing, or a
    member that the object inherits from [Object.prototype]. Called as
    [vein(player, ...)], without a receiver, [constructor] (that is
    [Object(player, ...)]) and [toString] return; the other inherited
    functions throw on the missing receiver, and [__proto__] is no
    function. *)
Definition inheritedReturning : list string := ["constructor"; "toString"].

(** The subscriber of [world.afterEvents.playerBreakBlock]: the stored
    settings it leaves and the run it starts. *)
Definition onPlayerBreakBlock (h : Host) (st : Settings) (e : BreakEvent)
  : Settings * Triggered :=
  if negb (isSneaking e) || match gameMode h with Creative => true | _ => false end
  then (st, NoRun) else
  if isAdding st || isBlacklistAdding st || isDefaultAdding st
  then (st, NoRun) else
  let isEnabled := default true (veinEnabled st) in
  let veinShape_ := default "shapelessVein" (veinShape st) in
  let veinLimit_ := default 64%Z (veinLimit st) in
  let st1 :=
    mkSettings (isAdding st) (isBlacklistAdding st) (isDefaultAdding st)
               (Some isEnabled) (Some veinShape_) (Some veinLimit_)
               (Some (default (stringifyJSON list_default) (veinList st))) in
  match match veinList st with
        | None => Some list_default
        | Some text => parseJSON text
        end with
  | None => (st1, Faulted)           (* [JSON.parse] throws *)
  | Some veinList_ =>
      let brokenBlock := brokenType e in
      if existsb (String.eqb brokenBlock) blacklist_ then
        let filtered :=
          List.filter (fun id => negb (String.eqb id brokenBlock)) veinList_ in
        (mkSettings (isAdding st1) (isBlacklistAdding st1) (isDefaultAdding st1)
                    (veinEnabled st1) (veinShape st1) (veinLimit st1)
                    (Some (stringifyJSON filtered)),
         NoRun)
      else
        let brokenBlock :=
          if includes brokenBlock "redstone_ore"
          then removeFirst brokenBlock "lit_" else brokenBlock in
        if negb isEnabled
           || negb (is_diggable (itemStackBeforeBreak e) (brokenType e))
        then (st1, NoRun) else
        match hunger h with
        | None => (st1, Faulted)       (* [undefined.currentValue] throws *)
        | Some currentValue =>
            if Qeq_bool currentValue 0 then (st1, NoRun) else
            let start :=
              if existsb (String.eqb veinShape_) handlerNames
              then Started (mkRunCall veinShape_ (blockLocation e) brokenBlock
                                      veinLimit_ (itemStackBeforeBreak e))
              else if existsb (String.eqb veinShape_) inheritedReturning
              then NoRun               (* an inherited member, which returns *)
              else Faulted             (* [vein] is no function, or it throws *)
            in
            if String.eqb veinShape_ "largeTunnel"
               || String.eqb veinShape_ "smallTunnel"
            then (st1, start)
            else if negb (existsb (String.eqb brokenBlock) veinList_)
                 then (st1, NoRun)
                 else (st1, start)
        end
  end.

End Trigger.

(** The six entries of [veinHandler]. *)
Inductive Shape :=
| ShapelessVein | TreeCapitator | VeinMiner
| LargeTunnel | SmallTunnel | LineTunnel.

Definition veinHandler (orc : Oracle) (sh : Shape)
  : Pos -> string -> Z -> option Tool -> M unit :=
  match sh with
  | ShapelessVein => shapelessVein orc
  | TreeCapitator => treeCapitator orc
  | VeinMiner => veinMiner orc
  | LargeTunnel => largeTunnel orc
  | SmallTunnel => smallTunnel orc
  | LineTunnel => lineTunnel orc
  end.

(** ** What a trace shows *)

Definition isBreak (e : Event) : bool :=
  match e with EvBreakBlock _ => true | _ => false end.

Definition isNausea (e : Event) : bool :=
  match e with EvAddEffect id _ => String.eqb id "nausea" | _ => false end.

Definition isDamage (e : Event) : bool :=
  match e with EvDamage _ => true | _ => false end.

(** The number of blocks handed to [breakBlock]. *)
Definition blocksBroken (t : list Event) : Z :=
  Z.of_nat (length (List.filter isBreak t)).

Definition nauseaCount (t : list Event) : Z :=
  Z.of_nat (length (List.filter isNausea t)).

Definition damageCount (t : list Event) : Z :=
  Z.of_nat (length (List.filter isDamage t)).

(** The stacks spawned, in order. *)
Definition spawned (t : list Event) : list (string * Z) :=
  flat_map (fun e => match e with EvSpawnItem id n => [(id, n)] | _ => [] end) t.

(** The drops the loot tables gave, in order. *)
Definition generated (t : list Event) : list ItemStack :=
  flat_map (fun e => match e with EvGenerateLoot _ drops => drops | _ => [] end) t.

(** The sizes of the stacks of one type among spawned stacks. *)
Definition stackSizes (id : string) (l : list (string * Z)) : list Z :=
  map snd (List.filter (fun e => String.eqb (fst e) id) l).

Definition sumZ (l : list Z) : Z := fold_right Z.add 0 l.

(** The quantity of one type that a sequence of [addLoot] calls adds. *)
Definition totalAdded (id : string) (drops : list ItemStack) : Z :=
  sumZ (map (fun d => default 1 (amount d))
            (List.filter (fun d => String.eqb (typeId d) id) drops)).

(** The stack sizes the [while (remaining > 0)] loop goes through. *)
Fixpoint chunks (fuel : nat) (remaining : Z) : list Z :=
  if 0 <? remaining then
    match fuel with
    | 0%nat => []
    | S fuel' =>
        let stackSize := Z.min remaining 64 in
        stackSize :: chunks fuel' (remaining - stackSize)
    end
  else [].

(** The stacks one emission of a loot map makes. *)
Definition stacksOf (l : Loot) : list (string * Z) :=
  flat_map (fun e => map (pair (fst e)) (chunks (Z.to_nat (snd e)) (snd e))) l.

(** The component of an aim vector on an axis. *)
Definition component (a : Axis) (v : Q * Q * Q) : Q :=
  match a with
  | AxisX => fst (fst v)
  | AxisY => snd (fst v)
  | AxisZ => snd v
  end.

(** A position where the world query gives no block. *)
Definition unresolved (h : Host) (p : Pos) : Prop :=
  match blockAt h p with QBlock _ => False | _ => True end.

(** ** Notions used in the statements and proofs *)

(** *** Classes of events and how a state grows *)

Definition isSpawn (e : Event) : bool :=
  match e with EvSpawnItem _ _ => true | _ => false end.

Definition isEquip (e : Event) : bool :=
  match e with EvGetEquipment _ => true | _ => false end.

Definition isGen (e : Event) : bool :=
  match e with EvGenerateLoot _ _ => true | _ => false end.

(** Events of the body of a handler: anything but a spawn. *)
Definition bodyEvent (e : Event) : bool := negb (isSpawn e).

(** Events that are neither a break, nor a spawn, nor a tool check. *)
Definition sideEvent (e : Event) : bool :=
  negb (isBreak e) && negb (isSpawn e) && negb (isEquip e).

(** [s'] comes from [s] by events of class [A], the loot following the
    drops generated. *)
Definition extends (A : Event -> bool) (s s' : St) : Prop :=
  exists t, trace s' = trace s ++ t
            /\ forallb A t = true
            /\ loot s' = addAll (loot s) (generated t).

Definition Ext {X} (A : Event -> bool) (m : M X) : Prop :=
  forall s, extends A s (snd (m s)) /\ fst (m s) <> Stuck.

(** *** How a pass through a loop body goes *)

(** Same trace, loot and host (the call counter may differ). *)
Definition same (s s' : St) : Prop :=
  trace s' = trace s /\ loot s' = loot s /\ host s' = host s.

(** The mainhand was read, and nothing else happened. *)
Definition readEquipment (s s' : St) : Prop :=
  trace s' = trace s ++ [EvGetEquipment (mainhand (host s))]
  /\ loot s' = loot s /\ host s' = host s.

(** The tool check went through. *)
Definition passed (item : option Tool) (s s1 : St) : Prop :=
  match item with
  | None => s1 = s
  | Some it => mainhand (host s) = Some (toolType it) /\ readEquipment s s1
  end.

Definition entered (p : Pos) (s s' : St) : Prop :=
  trace s' = trace s ++ [EvBreakBlock p] /\ loot s' = loot s.

(** How a pass through a loop body went. *)
Inductive Outcome := OThrow | OMismatch | OSkip | OIdle | OBroke.

(** The body after the tool check: the candidate is skipped, or side
    effects happen without a break, or one block is handed to
    [breakBlock]. *)
Inductive Work (s1 : St) : Outcome -> St -> Prop :=
| WorkSkip : Work s1 OSkip s1
| WorkIdle s' : extends sideEvent s1 s' -> Work s1 OIdle s'
| WorkBroke p s2 s3 s' :
    extends sideEvent s1 s2 -> entered p s2 s3 ->
    extends sideEvent s3 s' -> Work s1 OBroke s'.

Inductive Step (item : option Tool) (s : St) : Outcome -> St -> Prop :=
| StepThrow s' :
    item <> None -> same s s' -> Step item s OThrow s'
| StepMismatch it s' :
    item = Some it -> mainhand (host s) <> Some (toolType it) ->
    readEquipment s s' -> Step item s OMismatch s'
| StepWork s1 o s' :
    passed item s s1 -> Work s1 o s' -> Step item s o s'.

(** What a pass returns, given how it went: [stop] and [v] on a tool
    mismatch, and what [res] allows after the tool check. *)
Definition passRes {V} (stop : Flow) (v : V)
    (res : Outcome -> Exit (Flow * V) -> Prop) (o : Outcome)
    (r : Exit (Flow * V)) : Prop :=
  match o with
  | OThrow => r = Throw
  | OMismatch => r = Ok (stop, v)
  | _ => res o r
  end.

Definition isWork (o : Outcome) : Prop :=
  match o with OSkip | OIdle | OBroke => True | _ => False end.

Definition floodRes (v : FloodVars) (o : Outcome)
    (r : Exit (Flow * FloodVars)) : Prop :=
  match o with
  | OSkip =>
      exists v', r = Ok (Next, v') /\ cont v' = cont v
                 /\ length (toCheck v) = S (length (toCheck v'))
  | OIdle =>
      r = Throw
      \/ (exists v', r = Ok (Break, v') /\ cont v' = cont v)
      \/ (exists v', r = Ok (Next, v') /\ cont v' = cont v + 1
                     /\ length (toCheck v') = (length (toCheck v) + 25)%nat)
  | _ =>
      r = Throw
      \/ (exists v', r = Ok (Next, v') /\ cont v' = cont v + 1
                     /\ length (toCheck v') = (length (toCheck v) + 25)%nat)
  end.

Definition lineRes (cont : Z) (o : Outcome) (r : Exit (Flow * Z)) : Prop :=
  match o with
  | OSkip => r = Ok (Next, cont)
  | OIdle => r = Throw \/ r = Ok (Break, cont)
  | _ => r = Throw \/ r = Ok (Return, cont + 1) \/ r = Ok (Next, cont + 1)
  end.

Definition smallRes (cont : Z) (o : Outcome) (r : Exit (Flow * Z)) : Prop :=
  match o with
  | OSkip => r = Ok (Next, cont)
  | OIdle => r = Throw \/ r = Ok (Return, cont)
  | _ => r = Throw \/ r = Ok (Return, cont + 1) \/ r = Ok (Next, cont + 1)
  end.

Definition largeRes (maxBlocks : Z) (v : LargeVars) (o : Outcome)
    (r : Exit (Flow * LargeVars)) : Prop :=
  match o with
  | OSkip => r = Ok (Next, v)
  | OIdle => r = Throw \/ r = Ok (Break, v)
  | _ =>
      let v' := mkLarge (lcont v + 1) (broken v + 1) true in
      r = Throw
      \/ r = Ok (Return, mkLarge (lcont v + 1) (broken v) (foundInSlice v))
      \/ (r = Ok (Return, v') /\ maxBlocks <= broken v' + 1)
      \/ (r = Ok (Next, v') /\ broken v' + 1 < maxBlocks)
  end.

Definition brokeOne (o : Outcome) : Z :=
  match o with OBroke => 1 | _ => 0 end.

(** What follows the entry of [breakBlock] when a loot context is passed. *)
Definition breakBlockRest (orc : Oracle) (item : option Tool) (p : Pos) (b : BlockData) : M unit :=
  bind (call orc GetLootTableManager) (fun _ =>
  bind (hasTag orc b "dorios:machine") (fun machine =>
  if machine then runCommand orc (ScriptEvent "dorios:destroyMachine" p) else
  bind (hasTag orc b "dorios:generator") (fun generator =>
  if generator then runCommand orc (ScriptEvent "dorios:destroyGenerator" p) else
  bind (hasTag orc b "dorios:fluid") (fun fluid =>
  if fluid then runCommand orc (ScriptEvent "dorios:destroyTank" p) else
  bind (hasTag orc b "dorios:furnace") (fun furnace =>
  if furnace then runCommand orc (ScriptEvent "dorios:destroyFurnace" p) else
  bind (itemComponent orc item "utilitycraft:hammer") (fun hammerComp =>
  if hammerComp then runCommand orc (ScriptEvent "dorios:hammerBlock" p) else
  bind (itemComponent orc item "utilitycraft:block_loot") (fun lootComp =>
  if lootComp then runCommand orc (ScriptEvent "dorios:blockLoot" p) else
  bind (call orc GenerateLoot) (fun n =>
  match lootOf orc n p b item with
  | None => fun s => (Throw, s)
  | Some drops =>
      bind (emit (EvGenerateLoot p drops)) (fun _ =>
      bind (addDrops drops) (fun _ => runCommand orc (FillAir p)))
  end)))))))).

(** *** Budgets, tool checks, skipped candidates *)

(** Between passes, [broken] counts the blocks broken and is below the
    cap of the code. *)
Definition largeInv (maxBlocks : Z) (n : Z) (s : St) : Prop :=
  blocksBroken (trace s) = n /\ (n = 0 \/ n + 1 < maxBlocks).

Definition largeCap (maxBlocks : Z) : Z := Z.max 1 (maxBlocks - 1).

(** A tool check that found another type than [ty] in the mainhand. *)
Definition mismatch (ty : string) (e : Event) : bool :=
  match e with
  | EvGetEquipment m => negb (bool_decide (m = Some ty))
  | _ => false
  end.

(** No tool check of the trace found a mismatch. *)
Definition clean (ty : string) (t : list Event) : Prop :=
  forallb (fun e => negb (mismatch ty e)) t = true.

(** No block is broken after a tool check that found a mismatch. *)
Definition settled (ty : string) (t : list Event) : Prop :=
  forall t1 m t2, t = t1 ++ EvGetEquipment m :: t2 -> m <> Some ty ->
                  blocksBroken t2 = 0.

(** The tool has changed and no block was broken since it was seen. *)
Definition armed (ty : string) (s : St) : Prop :=
  settled ty (trace s) /\ mainhand (host s) <> Some ty.

(** From [s] to [s'] nothing happened but tool checks: the host and the
    loot are as they were, and the trace grew by reads of the mainhand. *)
Definition onlyChecks (s s' : St) : Prop :=
  host s' = host s /\ loot s' = loot s
  /\ exists t, trace s' = trace s ++ t /\ forallb isEquip t = true.

(** A pass that skips its candidate: host and loot are as before, the
    only host calls are those of the tool check, the step counter is
    unchanged, the loop goes on unless the tool check stops it, and
    nothing is thrown unless the tool check throws. *)
Definition skips {V} (orc : Oracle) (counter : V -> Z) (item : option Tool)
    (v : V) (s : St) (res : Exit (Flow * V) * St) : Prop :=
  host (snd res) = host s
  /\ loot (snd res) = loot s
  /\ (exists t, trace (snd res) = trace s ++ t /\ forallb isEquip t = true)
  /\ match fst res with
     | Ok (flow, v') =>
         counter v' = counter v
         /\ (flow = Next \/ fst (toolChanged orc item s) = Ok true)
     | Throw => fst (toolChanged orc item s) = Throw
     | Stuck => False
     end.

(** *** The governor, the probe and the loot map *)

Definition noFaults (orc : Oracle) : Prop := forall a n, faultAt orc a n = false.

Definition hungerDue (cont : Z) : bool := (Z.rem cont 10 =? 0) && negb (cont =? 0).

Definition cellSolid (orc : Oracle) (perm : string) (h : Host) (axis : Axis)
    (center : Pos) (o : Z * Z) : bool :=
  match getBlock orc true perm h (sliceCell axis center o) with
  | Some _ => true
  | None => false
  end.

Definition amountsFor (id : string) (l : Loot) : list Z :=
  map snd (List.filter (fun e => String.eqb (fst e) id) l).

Definition mentions (id : string) (drops : list ItemStack) : bool :=
  existsb (fun d => String.eqb (typeId d) id) drops.

Definition spawnEvents (l : list (string * Z)) : list Event :=
  map (fun e => EvSpawnItem (fst e) (snd e)) l.

Definition noSpawnFaults (orc : Oracle) : Prop :=
  forall n, faultAt orc SpawnItem n = false.

(** ** Worked runs: hosts, worlds and events *)

Definition stone : BlockData := mkBlock "minecraft:stone" [].

Definition pick : Tool := mkTool "minecraft:iron_pickaxe" [].

Definition origin : Pos := mkPos 0 64 0.

(** A host on which no call throws, nothing else changes the world,
    every block drops one item of its own type and the tool survives. *)
Definition calm : Oracle :=
  mkOracle (fun _ _ => false) (fun _ h => h)
           (fun _ _ b _ => Some [mkStack (blockType b) (Some 1)])
           (fun _ => true) (fun _ => true) [].

(** The same, with the player putting dirt in the mainhand during the
    second tick. *)
Definition swapping : Oracle :=
  mkOracle (fun _ _ => false)
           (fun k h => if (k =? 1)%nat
                       then withMainhand h (Some "minecraft:dirt") else h)
           (fun _ _ b _ => Some [mkStack (blockType b) (Some 1)])
           (fun _ => true) (fun _ => true) [].

(** The same as [calm], with a tool that does not survive its next use. *)
Definition brittle : Oracle :=
  mkOracle (fun _ _ => false) (fun _ h => h)
           (fun _ _ b _ => Some [mkStack (blockType b) (Some 1)])
           (fun _ => true) (fun _ => false) [].

(** A survival player holding the pickaxe and looking along +x. *)
Definition player (world : Pos -> BlockQuery) (hungerValue saturationValue : Q)
  : Host :=
  mkHost world (Some "minecraft:iron_pickaxe") Survival (Some hungerValue)
         (Some saturationValue) false (1%Q, 0%Q, 0%Q).

(** Stone everywhere around the block that was just broken. *)
Definition stoneWorld (p : Pos) : BlockQuery :=
  if decide (p = origin) then QBlock airBlock else QBlock stone.

Definition solidWorld (p : Pos) : BlockQuery := QBlock stone.

(** No chunk is loaded. *)
Definition unloadedWorld (p : Pos) : BlockQuery := QUndefined.

(** Air, but for one stone block above the origin. *)
Definition thinWorld (p : Pos) : BlockQuery :=
  if decide (p = mkPos 0 65 0) then QBlock stone else QBlock airBlock.

Definition swapRun : list Event :=
  trace (snd (veinHandler swapping LineTunnel origin "minecraft:stone" 5
                          (Some pick) (initSt (player solidWorld 20 5)))).

Definition swapBefore : list Event := Eval vm_compute in firstn 14 swapRun.

Definition swapAfter : list Event := Eval vm_compute in skipn 15 swapRun.

(** A run in solid stone with a tool that breaks at its first use. *)
Definition wornRun (sh : Shape) : list Event :=
  trace (snd (veinHandler brittle sh origin "minecraft:stone" 8 (Some pick)
                          (initSt (player solidWorld 20 5)))).

(** A player who holds dirt where the run needs the pickaxe. *)
Definition dirtInHand : St :=
  initSt (mkHost solidWorld (Some "minecraft:dirt") Survival (Some 20%Q)
                 (Some 5%Q) false (1%Q, 0%Q, 0%Q)).

Definition mixedDrops : list ItemStack :=
  [ mkStack "minecraft:cobblestone" (Some 100);
    mkStack "minecraft:coal" None;
    mkStack "minecraft:cobblestone" (Some 30) ].

Definition demoEvent : BreakEvent :=
  mkBreakEvent true "minecraft:stone" origin (Some pick).

Definition demoSettings (shapeName : string) : Settings :=
  mkSettings false false false (Some true) (Some shapeName) (Some 64) None.

Definition demoCall : RunCall :=
  mkRunCall "largeTunnel" origin "minecraft:stone" 64 (Some pick).

Definition demoTrigger (h : Host) (st : Settings) : Settings * Triggered :=
  onPlayerBreakBlock ["minecraft:stone"] [] (fun _ _ => true) (fun _ => None)
                     (fun _ => ""%string) h st demoEvent.

(** ** Notions for the further properties *)

(** *** Breaking one block *)

Definition tagged (b : BlockData) (tag : string) : bool :=
  existsb (String.eqb tag) (blockTags b).

Definition carries (item : option Tool) (id : string) : bool :=
  match item with
  | Some it => existsb (String.eqb id) (toolComponents it)
  | None => false
  end.

(** The script event that stands for a block or a tool, in the order of
    the priority list that documents [breakBlock]. *)
Definition delegate (b : BlockData) (item : option Tool) : option string :=
  if tagged b "dorios:machine" then Some "dorios:destroyMachine"%string
  else if tagged b "dorios:generator" then Some "dorios:destroyGenerator"%string
  else if tagged b "dorios:fluid" then Some "dorios:destroyTank"%string
  else if tagged b "dorios:furnace" then Some "dorios:destroyFurnace"%string
  else if carries item "utilitycraft:hammer" then Some "dorios:hammerBlock"%string
  else if carries item "utilitycraft:block_loot" then Some "dorios:blockLoot"%string
  else None.

(** The stacks that [dim.spawnItem(drop, block.location)] makes of drops. *)
Definition dropStacks (drops : list ItemStack) : list (string * Z) :=
  map (fun d => (typeId d, default 1 (amount d))) drops.

(** *** The emission *)

(** Full stacks of 64, then the remainder if there is one. *)
Definition fullThenRest (q : Z) : list Z :=
  if q <=? 0 then []
  else repeat 64 (Z.to_nat (q / 64))
       ++ (if q mod 64 =? 0 then [] else [q mod 64]).

(** *** The trace of a run *)

(** The positions handed to [breakBlock], in order. *)
Definition breakPositions (t : list Event) : list Pos :=
  flat_map (fun e => match e with EvBreakBlock p => [p] | _ => [] end) t.

(** The distance between two positions in steps of the neighbour table. *)
Definition reach (p q : Pos) : Z :=
  Z.max (Z.abs (px p - px q))
        (Z.max (Z.abs (py p - py q)) (Z.abs (pz p - pz q))).

(** The coordinate of a position along an axis. *)
Definition along (a : Axis) (p : Pos) : Z :=
  match a with
  | AxisX => px p
  | AxisY => py p
  | AxisZ => pz p
  end.

(** *** The trigger *)

(** The type id that a run is started with: a lit redstone ore counts
    as redstone ore. *)
Definition runBlockOf (brokenBlock : string) : string :=
  if includes brokenBlock "redstone_ore"
  then removeFirst brokenBlock "lit_" else brokenBlock.

(** The trigger goes past its two leading [return]s. *)
Definition listens (h : Host) (st : Settings) (e : BreakEvent) : Prop :=
  isSneaking e = true /\ gameMode h <> Creative
  /\ isAdding st = false /\ isBlacklistAdding st = false
  /\ isDefaultAdding st = false.

(** *** Classes of events *)

(** The calls on the equipment of the player: reading the mainhand,
    damaging the tool, setting the mainhand, the sound of a tool that
    breaks. *)
Definition toolEvent (e : Event) : bool :=
  match e with
  | EvGetEquipment _ | EvDamage _ | EvSetEquipment _ | EvPlaySound _ => true
  | _ => false
  end.

Definition handsOff (e : Event) : bool := negb (toolEvent e).

(** Effects, commands, loot generation, ticks and warnings. *)
Definition plainEvent (e : Event) : bool :=
  match e with
  | EvAddEffect _ _ | EvCommand _ | EvGenerateLoot _ _ | EvWaitTicks | EvWarn
  | EvSpawnItem _ _ => true
  | _ => false
  end.

(** Any event, but a break only at a position that [S] accepts. *)
Definition breaksWithin (S : Pos -> bool) (e : Event) : bool :=
  match e with
  | EvBreakBlock q => S q
  | _ => true
  end.

Definition calmEvent (e : Event) : bool := negb (isNausea e).

(** *** Where a tunnel reaches *)

(** The cells that the loops of a tunnel shape go through, for an axis
    and a step sign. *)
Definition tunnelCells (sh : Shape) (axis : Axis) (stepSign : Z) (origin : Pos)
    (maxVein : Z) : list Pos :=
  match sh with
  | LineTunnel =>
      map (fun d => advance axis origin (d * stepSign)) (seqZ 0 maxVein)
  | SmallTunnel =>
      flat_map (fun d => map (offset (advance axis origin (d * stepSign)))
                             smallOffsets)
               (seqZ 0 (maxVein / 2))
  | LargeTunnel =>
      flat_map (fun d => map (sliceCell axis (advance axis origin (d * stepSign)))
                             orderOut)
               (seqZ 0 (maxVein / 4 + 1))
  | _ => []
  end.

(** The same, in coordinates: the depth [d] along the axis and the place
    across it. *)
Definition inTunnel (sh : Shape) (axis : Axis) (stepSign : Z) (origin : Pos)
    (maxVein : Z) (p : Pos) : Prop :=
  match sh with
  | LineTunnel =>
      exists d, 0 <= d < maxVein /\ p = advance axis origin (d * stepSign)
  | SmallTunnel =>
      exists d, 0 <= d < maxVein / 2
                /\ (p = advance axis origin (d * stepSign)
                    \/ p = offset (advance axis origin (d * stepSign))
                                  (mkPos 0 1 0))
  | LargeTunnel =>
      exists d, 0 <= d <= maxVein / 4
                /\ along axis p = along axis origin + d * stepSign
                /\ reach p (advance axis origin (d * stepSign)) <= 1
  | _ => True
  end.

(** *** The flood-fill loop *)

(** What a pass does to the queue, the visited set and the counter, and
    which position it breaks. *)
Definition floodPass (v : FloodVars) (pos : Pos) (rest : list Pos)
    (B B' : list Pos) (r : Exit (Flow * FloodVars)) : Prop :=
  match r with
  | Ok (Next, v') =>
      (B' = B /\ toCheck v' = rest /\ cont v' = cont v
       /\ ((visited v' = visited v /\ pos ∈ visited v)
           \/ visited v' = {[pos]} ∪ visited v))
      \/ (toCheck v' = rest ++ map (offset pos) dirs
          /\ cont v' = cont v + 1
          /\ visited v' = {[pos]} ∪ visited v /\ (pos ∉ visited v)
          /\ ((B' = B /\ visited v = ∅) \/ B' = B ++ [pos]))
  | Ok (_, _) | Throw => B' = B \/ (B' = B ++ [pos] /\ (pos ∉ visited v))
  | Stuck => False
  end.

(** Every position of the list is the origin, or is one step from the
    origin or from a position before it in the list. *)
Definition grown (origin : Pos) (l : list Pos) : Prop :=
  forall l1 p l2, l = l1 ++ p :: l2 ->
    p = origin \/ exists c, (c = origin \/ In c l1) /\ reach p c = 1.

(** A position that the queue may hold: the origin, or one step from
    the origin or from a position that was broken. *)
Definition reachable (origin : Pos) (B : list Pos) (q : Pos) : Prop :=
  q = origin \/ exists c, (c = origin \/ In c B) /\ reach q c = 1.

(** What holds of the variables of the loop and of the positions broken
    so far, between passes. *)
Definition floodInv (origin : Pos) (maxVein : Z) (v : FloodVars)
    (B : list Pos) : Prop :=
  NoDup B
  /\ (forall p, In p B -> p ∈ visited v)
  /\ 0 <= cont v
  /\ (forall q, In q (toCheck v) -> reach q origin <= cont v)
  /\ (forall p, In p B -> reach p origin < maxVein)
  /\ grown origin B
  /\ (forall q, In q (toCheck v) -> reachable origin B q)
  /\ (visited v = ∅ -> toCheck v = [origin]).

(** What holds of the positions broken when the loop is left. *)
Definition floodGoal (origin : Pos) (maxVein : Z) (B : list Pos) : Prop :=
  NoDup B /\ (forall p, In p B -> reach p origin < maxVein) /\ grown origin B.

(** *** The nausea penalty *)

(** [s'] comes from [s] by events other than the penalty, and then the
    penalty. *)
Definition penalised (s s' : St) : Prop :=
  exists s1, extends calmEvent s s1
             /\ trace s' = trace s1 ++ [EvAddEffect "nausea" 200].

(** How a pass stands to the penalty: it does not apply it, or it ends
    by applying it and leaves its loop by a flow that [leaves] has. *)
Definition nauseaPass {V} (leaves : Flow -> Prop) (s : St)
    (r : Exit (Flow * V)) (s' : St) : Prop :=
  (extends calmEvent s s' /\ r <> Stuck)
  \/ (penalised s s' /\ exists fl v, r = Ok (fl, v) /\ leaves fl).

(** The same for a loop or a body: without the penalty, or ending by it. *)
Definition calmRun (s s' : St) : Prop :=
  extends calmEvent s s' \/ penalised s s'.

(** In a trace, only spawns follow the penalty. *)
Definition calmed (t : list Event) : Prop :=
  forall t1 e t2, t = t1 ++ e :: t2 -> isNausea e = true ->
                  forallb isSpawn t2 = true.

(** *** Faults *)

(** The host calls that [breakBlock] makes. *)
Definition breakApi (a : Api) : bool :=
  match a with
  | GetLootTableManager | HasTag | GetItemComponent | RunCommand
  | GenerateLoot => true
  | _ => false
  end.

(** No host call throws but, possibly, those of [breakBlock]. *)
Definition faultsOnlyInBreak (orc : Oracle) : Prop :=
  forall a n, faultAt orc a n = true -> breakApi a = true.

(** The loot tables give drops for every block. *)
Definition lootDefined (orc : Oracle) : Prop :=
  forall n p b item, lootOf orc n p b item <> None.

Definition NoThrow {X} (m : M X) : Prop := forall s, fst (m s) <> Throw.

(** An oracle on which only the loot table manager is missing. *)
Definition lootless : Oracle :=
  mkOracle (fun a _ => match a with GetLootTableManager => true | _ => false end)
           (fun _ h => h)
           (fun _ _ b _ => Some [mkStack (blockType b) (Some 1)])
           (fun _ => true) (fun _ => true) [].

(** *** Ticks between breaks *)

(** Neither a break nor a tick. *)
Definition betweenEvent (e : Event) : bool :=
  match e with
  | EvBreakBlock _ | EvWaitTicks => false
  | _ => true
  end.

(** Reading a trace with a flag that tells whether a block was handed to
    [breakBlock] since the last tick: [None] when a second block is
    handed over before a tick was waited for. *)
Fixpoint paceFrom (pending : bool) (t : list Event) : option bool :=
  match t with
  | [] => Some pending
  | EvBreakBlock _ :: t' => if pending then None else paceFrom true t'
  | EvWaitTicks :: t' => paceFrom false t'
  | _ :: t' => paceFrom pending t'
  end.

(** Between any two breaks of the trace there is a tick. *)
Definition paced (t : list Event) : Prop := paceFrom false t <> None.

(** How a pass leaves the flag: down when the loop goes on or is left
    by [break], and in any case without two breaks in a row. *)
Definition pacedPass {V} (r : Exit (Flow * V)) (s' : St) : Prop :=
  match r with
  | Ok (Next, _) | Ok (Break, _) => paceFrom false (trace s') = Some false
  | Ok (Return, _) | Throw => paceFrom false (trace s') <> None
  | Stuck => False
  end.

(** *** Candidates *)

(** A position that a tunnel pass may break: its block resolves, is not
    air, is not blacklisted and has the type that was broken. *)
Definition tunnelCandidate (orc : Oracle) (brokenBlockPerm : string) (h : Host)
    (p : Pos) : Prop :=
  exists b, blockAt h p = QBlock b
            /\ blockType b <> "minecraft:air"%string
            /\ ~ In (blockType b) (blacklist orc)
            /\ blockType b = brokenBlockPerm.

(** A position that a flood-fill pass may break: it was not visited, its
    block resolves, and it is the first position of the run or its
    block has an eligible type. *)
Definition floodCandidate (eligibleType : string -> bool) (h : Host)
    (v : FloodVars) (p : Pos) : Prop :=
  (p ∉ visited v)
  /\ exists b, blockAt h p = QBlock b
               /\ (visited v = ∅ \/ eligibleType (blockType b) = true).

(** From [s] to [s'] no block was handed to [breakBlock], or one was,
    the block at [pos], and then [P] holds. *)
Definition breaksOnlyAt (pos : Pos) (P : Prop) (s s' : St) : Prop :=
  breakPositions (trace s') = breakPositions (trace s)
  \/ (breakPositions (trace s') = breakPositions (trace s) ++ [pos] /\ P).

(** *** The large tunnel after the penalty *)

(** Neither reserve covers a cost of 1, and the bypass flag is off. *)
Definition starved (h : Host) : Prop :=
  noConsumeSaturation h = false
  /\ forall hv sv, hunger h = Some hv -> saturation h = Some sv ->
                   (sv - 1 < 0)%Q /\ (hv - 1 < 0)%Q.

(** The events of a pass that stops before its block is handed to
    [breakBlock], of the penalty and of the emission: no break, no
    command, no loot generation, no tick and no warning. *)
Definition idleEvent (e : Event) : bool :=
  match e with
  | EvBreakBlock _ | EvCommand _ | EvGenerateLoot _ _ | EvWaitTicks
  | EvWarn => false
  | _ => true
  end.

(** In a trace, only such events follow a penalty. *)
Definition idleAfterPenalty (t : list Event) : Prop :=
  forall t1 e t2, t = t1 ++ e :: t2 -> isNausea e = true ->
                  forallb idleEvent t2 = true.

(** The same, from the first penalty of the trace. *)
Definition penaltyThenIdle (t : list Event) : Prop :=
  nauseaCount t = 0
  \/ exists t1 n t2, t = t1 ++ n :: t2 /\ nauseaCount t1 = 0
                     /\ isNausea n = true /\ forallb idleEvent t2 = true.

(** Between the passes of the large tunnel: the penalty was not applied,
    or it was applied once, nothing but idle events followed it, and
    the player is still starved at a step where hunger is due. *)
Definition largePhase (cont : Z) (s : St) : Prop :=
  penaltyThenIdle (trace s)
  /\ (nauseaCount (trace s) = 0
      \/ (nauseaCount (trace s) = 1 /\ starved (host s)
          /\ hungerDue cont = true)).

(** When the large tunnel is left: at most two penalties, and nothing
    but idle events after the first. *)
Definition largeGoal (t : list Event) : Prop :=
  nauseaCount t <= 2 /\ penaltyThenIdle t.

(** *** Loot generation *)

(** Neither a break nor a loot generation. *)
Definition lootQuiet (e : Event) : bool :=
  match e with
  | EvBreakBlock _ | EvGenerateLoot _ _ => false
  | _ => true
  end.

(** The positions whose loot was generated, in order. *)
Definition lootPositions (t : list Event) : list Pos :=
  flat_map (fun e => match e with EvGenerateLoot p _ => [p] | _ => [] end) t.

(** Reading a trace with the position that was handed to [breakBlock]
    and whose loot was not generated since: [None] when loot is
    generated for another position than that one, or with none
    pending. *)
Fixpoint owes (pending : option Pos) (t : list Event)
  : option (option Pos) :=
  match t with
  | [] => Some pending
  | EvBreakBlock p :: t' => owes (Some p) t'
  | EvGenerateLoot q _ :: t' =>
      match pending with
      | Some p => if decide (q = p) then owes None t' else None
      | None => None
      end
  | _ :: t' => owes pending t'
  end.

(** A computation that takes traces with one property to traces with
    another, and one under which a property of traces is kept. *)
Definition Takes {X} (Q R : list Event -> Prop) (m : M X) : Prop :=
  forall s, Q (trace s) -> R (trace (snd (m s))).

Definition Keeps {X} (Q : list Event -> Prop) (m : M X) : Prop := Takes Q Q m.

(** The position was handed to [breakBlock] and its loot was not
    generated since, or was generated once. *)
Definition pendingAt (p : Pos) (t : list Event) : Prop :=
  owes None t = Some (Some p) \/ owes None t = Some None.

(** Loot was generated only for a block that had just been handed to
    [breakBlock], and once for it. *)
Definition lootFollowsBreaks (t : list Event) : Prop := owes None t <> None.

(** * Properties *)

(** ** The traversal axis *)

Lemma Qle_bool_false (a b : Q) : Qle_bool a b = false -> (b < a)%Q.
Proof.
  intros H. apply Qnot_le_lt. intros Hle.
  apply Qle_bool_iff in Hle. congruence.
Qed.

Lemma sign_spec (c : Q) :
  let sg := if Qle_bool 0 c then 1 else -1 in
  (sg = 1 \/ sg = -1) /\ (inject_Z sg * c == Qabs c)%Q.
Proof.
  simpl. destruct (Qle_bool 0 c) eqn:E.
  - apply Qle_bool_iff in E. split; [by left|].
    rewrite Qabs_pos by exact E. ring.
  - apply Qle_bool_false in E. split; [by right|].
    rewrite Qabs_neg by (apply Qlt_le_weak; exact E). ring.
Qed.

(** C8. For every aim vector, the axis the tunnel handlers read off it
    carries the largest absolute component; x is taken when it ties
    with y or z, z when it ties with y; and the step sign is +1 or -1
    and gives the component its absolute value (+1 at 0). *)
Theorem aimAxis_largest_component (v : Q * Q * Q) :
  let axis := fst (aimAxis true v) in
  let stepSign := snd (aimAxis true v) in
  let ax := Qabs (fst (fst v)) in
  let ay := Qabs (snd (fst v)) in
  let az := Qabs (snd v) in
  (match axis with
   | AxisX => ay <= ax /\ az <= ax
   | AxisZ => ax < az /\ ay <= az
   | AxisY => ax < ay /\ az < ay
   end)%Q
  /\ (stepSign = 1 \/ stepSign = -1)
  /\ (inject_Z stepSign * component axis v == Qabs (component axis v))%Q.
Proof.
  destruct v as [[vx vy] vz]. unfold aimAxis. cbn [negb fst snd].
  destruct (Qle_bool (Qabs vy) (Qabs vx)) eqn:Exy;
    destruct (Qle_bool (Qabs vz) (Qabs vx)) eqn:Exz;
    cbn [andb];
    try destruct (Qle_bool (Qabs vy) (Qabs vz)) eqn:Ezy;
    cbn [fst snd component];
    repeat match goal with
           | H : Qle_bool _ _ = true |- _ => apply Qle_bool_iff in H
           | H : Qle_bool _ _ = false |- _ => apply Qle_bool_false in H
           end;
    (split; [ | apply sign_spec ]).
  all: try (split; assumption).
  all: try (split; [assumption|]; eapply Qle_lt_trans; eassumption).
  all: try (split; [|assumption]; eapply Qlt_le_trans; eassumption).
  all: try (split; [|assumption]; eapply Qlt_trans; eassumption).
Qed.

(** ** The hunger governor *)

Lemma call_ok orc a s :
  faultAt orc a (calls s) = false ->
  call orc a s = (Ok (calls s), mkSt (host s) (S (calls s)) (ticks s) (trace s) (loot s)).
Proof. intros H. unfold call. by rewrite H. Qed.

Section Governor.
Variable orc : Oracle.
Hypothesis quiet : noFaults orc.

Lemma reduceHunger_bypass s :
  noConsumeSaturation (host s) = true ->
  fst (reduceHunger orc 1 1 s) = Ok true /\
  host (snd (reduceHunger orc 1 1 s)) = host s /\
  trace (snd (reduceHunger orc 1 1 s)) = trace s.
Proof.
  intros Hb. unfold reduceHunger, bind, get, ret.
  rewrite call_ok by apply quiet. cbn. rewrite Hb. done.
Qed.

Lemma reduceHunger_saturation s hv sv :
  noConsumeSaturation (host s) = false ->
  hunger (host s) = Some hv -> saturation (host s) = Some sv ->
  (0 <= sv - 1)%Q ->
  fst (reduceHunger orc 1 1 s) = Ok true /\
  host (snd (reduceHunger orc 1 1 s)) = withSaturation (host s) (sv - 1).
Proof.
  intros Hb Hh Hs Hc. apply Qle_bool_iff in Hc.
  unfold reduceHunger, bind, get, ret, setHost.
  rewrite call_ok by apply quiet. cbn. rewrite Hb.
  rewrite call_ok by apply quiet. cbn.
  rewrite call_ok by apply quiet. cbn.
  rewrite Hh, Hs, Hc.
  rewrite call_ok by apply quiet. cbn. done.
Qed.

Lemma reduceHunger_hunger s hv sv :
  noConsumeSaturation (host s) = false ->
  hunger (host s) = Some hv -> saturation (host s) = Some sv ->
  ~ (0 <= sv - 1)%Q -> (0 <= hv - 1)%Q ->
  fst (reduceHunger orc 1 1 s) = Ok true /\
  host (snd (reduceHunger orc 1 1 s)) = withHunger (host s) (hv - 1).
Proof.
  intros Hb Hh Hs Hn Hc. apply Qle_bool_iff in Hc.
  assert (Qle_bool 0 (sv - 1) = false) as Hn'.
  { destruct (Qle_bool 0 (sv - 1)) eqn:E; [|done].
    apply Qle_bool_iff in E. contradiction. }
  unfold reduceHunger, bind, get, ret, setHost.
  rewrite call_ok by apply quiet. cbn. rewrite Hb.
  rewrite call_ok by apply quiet. cbn.
  rewrite call_ok by apply quiet. cbn.
  rewrite Hh, Hs, Hn', Hc.
  rewrite call_ok by apply quiet. cbn. done.
Qed.

Lemma reduceHunger_abort s hv sv :
  noConsumeSaturation (host s) = false ->
  hunger (host s) = Some hv -> saturation (host s) = Some sv ->
  ~ (0 <= sv - 1)%Q -> ~ (0 <= hv - 1)%Q ->
  fst (reduceHunger orc 1 1 s) = Ok false /\
  host (snd (reduceHunger orc 1 1 s)) = host s /\
  trace (snd (reduceHunger orc 1 1 s)) = trace s.
Proof.
  intros Hb Hh Hs Hn Hm.
  assert (Qle_bool 0 (sv - 1) = false) as Hn'.
  { destruct (Qle_bool 0 (sv - 1)) eqn:E; [|done].
    apply Qle_bool_iff in E. contradiction. }
  assert (Qle_bool 0 (hv - 1) = false) as Hm'.
  { destruct (Qle_bool 0 (hv - 1)) eqn:E; [|done].
    apply Qle_bool_iff in E. contradiction. }
  unfold reduceHunger, bind, get, ret, setHost.
  rewrite call_ok by apply quiet. cbn. rewrite Hb.
  rewrite call_ok by apply quiet. cbn.
  rewrite call_ok by apply quiet. cbn.
  rewrite Hh, Hs, Hn', Hm'. done.
Qed.

End Governor.

(** C6. Without host faults the hunger step of the handlers works as
    follows. At a step index that is a nonzero multiple of 10 and with
    the bypass flag off, it takes 1 from the saturation reserve if that
    covers it, else 1 from the hunger reserve if that covers it, and the
    run goes on; only when neither covers it does it stop the run, with
    the nausea effect and both reserves as they were. With the bypass
    flag on it lets the run go on and leaves both reserves alone. At any
    other step index it does nothing. *)
Theorem hunger_governor_decision (orc : Oracle) (s : St) (cont : Z) :
  noFaults orc ->
  let r := hungerGate orc cont s in
  if hungerDue cont then
    if noConsumeSaturation (host s) then
      fst r = Ok false /\ host (snd r) = host s /\ trace (snd r) = trace s
    else
      forall hv sv,
        hunger (host s) = Some hv -> saturation (host s) = Some sv ->
        if Qle_bool 0 (sv - 1) then
          fst r = Ok false
          /\ host (snd r) = withSaturation (host s) (sv - 1)
        else if Qle_bool 0 (hv - 1) then
          fst r = Ok false
          /\ host (snd r) = withHunger (host s) (hv - 1)
        else
          fst r = Ok true /\ host (snd r) = host s
          /\ trace (snd r) = trace s ++ [EvAddEffect "nausea" 200]
  else fst r = Ok false /\ snd r = s.
Proof.
  intros Hq r. subst r. unfold hungerGate, hungerDue.
  destruct ((Z.rem cont 10 =? 0) && negb (cont =? 0)); [|done].
  destruct (noConsumeSaturation (host s)) eqn:Hb.
  { destruct (reduceHunger_bypass orc Hq s Hb) as (H1 & H2 & H3).
    unfold bind. destruct (reduceHunger orc 1 1 s) as [r s']. cbn in *.
    subst r. done. }
  intros hv sv Hh Hs.
  destruct (Qle_bool 0 (sv - 1)) eqn:Es.
  { apply Qle_bool_iff in Es.
    destruct (reduceHunger_saturation orc Hq s hv sv Hb Hh Hs Es) as [H1 H2].
    unfold bind. destruct (reduceHunger orc 1 1 s) as [r s']. cbn in *.
    subst r. done. }
  assert (~ (0 <= sv - 1)%Q) as Hns.
  { intros H. apply Qle_bool_iff in H. congruence. }
  destruct (Qle_bool 0 (hv - 1)) eqn:Eh.
  { apply Qle_bool_iff in Eh.
    destruct (reduceHunger_hunger orc Hq s hv sv Hb Hh Hs Hns Eh) as [H1 H2].
    unfold bind. destruct (reduceHunger orc 1 1 s) as [r s']. cbn in *.
    subst r. done. }
  assert (~ (0 <= hv - 1)%Q) as Hnh.
  { intros H. apply Qle_bool_iff in H. congruence. }
  destruct (reduceHunger_abort orc Hq s hv sv Hb Hh Hs Hns Hnh) as (H1 & H2 & H3).
  unfold bind. destruct (reduceHunger orc 1 1 s) as [r s'] eqn:E. cbn in *.
  subst r. unfold addEffect, bind, emit, ret.
  rewrite call_ok by apply Hq. cbn. rewrite H2, H3. done.
Qed.

(** ** The leading slice and the trigger *)

Lemma hasSolid_existsb orc perm h axis center order :
  hasSolid orc perm h axis center order
  = existsb (cellSolid orc perm h axis center) order.
Proof.
  induction order as [|o order IH]; [done|].
  cbn. unfold cellSolid at 1.
  destruct (getBlock orc true perm h (sliceCell axis center o)); [done|].
  exact IH.
Qed.

(** C7 (amended). Before its depth loop the large tunnel probes the
    slice at the origin (depth 0): when at least one of its nine cells
    holds an eligible block the depths start at 0, and when none does
    they start at 1. *)
Theorem leading_slice_probe orc perm h axis origin maxLength :
  if existsb (cellSolid orc perm h axis origin) orderOut
  then sliceStart orc perm h axis origin = 0
       /\ largeDepths orc perm h axis origin maxLength = seqZ 0 (maxLength + 1)
  else sliceStart orc perm h axis origin = 1
       /\ largeDepths orc perm h axis origin maxLength = seqZ 1 maxLength.
Proof.
  unfold largeDepths, sliceStart, spiralOffsets.
  rewrite hasSolid_existsb.
  destruct (existsb _ orderOut); split; try done.
  - f_equal. lia.
  - f_equal. lia.
Qed.

Section TriggerFacts.
Variable list_default blacklist_ : list string.
Variable is_diggable : option Tool -> string -> bool.
Variable parseJSON : string -> option (list string).
Variable stringifyJSON : list string -> string.

(** C10. When the hunger value of the player is 0 the trigger starts no
    run, whatever the event, the stored settings (the shape among them)
    and the bypass flag of the world are. *)
Theorem starving_player_starts_no_run (h : Host) (st : Settings) (e : BreakEvent)
    (currentValue : Q) (c : RunCall) :
  hunger h = Some currentValue -> (currentValue == 0)%Q ->
  snd (onPlayerBreakBlock list_default blacklist_ is_diggable parseJSON
                          stringifyJSON h st e) <> Started c.
Proof.
  intros Hh Hz. apply Qeq_bool_iff in Hz.
  unfold onPlayerBreakBlock. rewrite Hh, Hz.
  repeat case_match; cbn; congruence.
Qed.
End TriggerFacts.

(** ** The loot context *)

(** *** Stack splitting *)

Lemma chunks_bounds fuel : forall remaining,
  Forall (fun n => 1 <= n <= 64) (chunks fuel remaining).
Proof.
  induction fuel as [|fuel IH]; intros remaining; cbn.
  - destruct (0 <? remaining); constructor.
  - destruct (0 <? remaining) eqn:E; [|constructor].
    apply Z.ltb_lt in E. constructor; [lia | apply IH].
Qed.

Lemma chunks_sum fuel : forall remaining,
  (Z.to_nat remaining <= fuel)%nat ->
  sumZ (chunks fuel remaining) = Z.max 0 remaining.
Proof.
  induction fuel as [|fuel IH]; intros remaining Hf; cbn.
  - destruct (0 <? remaining) eqn:E; cbn; [apply Z.ltb_lt in E|apply Z.ltb_ge in E]; lia.
  - destruct (0 <? remaining) eqn:E; cbn.
    + apply Z.ltb_lt in E. rewrite IH by lia. lia.
    + apply Z.ltb_ge in E. lia.
Qed.

Lemma chunks_nonempty remaining :
  0 < remaining -> chunks (Z.to_nat remaining) remaining <> [].
Proof.
  intros H. destruct (Z.to_nat remaining) eqn:E; [lia|].
  cbn. apply Z.ltb_lt in H. rewrite H. done.
Qed.

(** *** The loot map *)

Arguments amountsFor : simpl never.

Lemma lootGet_head l id : lootGet l id = head (amountsFor id l).
Proof.
  induction l as [|[k v] l IH]; [done|].
  unfold amountsFor in *. cbn. destruct (String.eqb k id); [done | exact IH].
Qed.

Lemma amountsFor_lootSet_same l k v :
  amountsFor k (lootSet l k v) = v :: tail (amountsFor k l).
Proof.
  induction l as [|[k' w] l IH]; cbn.
  - unfold amountsFor. cbn. by rewrite String.eqb_refl.
  - destruct (String.eqb k' k) eqn:E; unfold amountsFor in *; cbn; rewrite E; cbn.
    + done.
    + exact IH.
Qed.

Lemma amountsFor_lootSet_other l k v id :
  k <> id -> amountsFor id (lootSet l k v) = amountsFor id l.
Proof.
  intros Hne. induction l as [|[k' w] l IH]; cbn.
  - unfold amountsFor. cbn. apply String.eqb_neq in Hne. by rewrite Hne.
  - destruct (String.eqb k' k) eqn:E; unfold amountsFor in *; cbn.
    + apply String.eqb_eq in E. subst k'.
      apply String.eqb_neq in Hne. by rewrite Hne.
    + destruct (String.eqb k' id); cbn; [f_equal|]; exact IH.
Qed.

Lemma totalAdded_unmentioned id drops :
  mentions id drops = false -> totalAdded id drops = 0.
Proof.
  unfold totalAdded, mentions.
  induction drops as [|x drops IH]; [done|].
  cbn. intros [E1 E2]%orb_false_iff. rewrite E1. auto.
Qed.

Lemma totalAdded_single id d :
  totalAdded id [d]
  = if String.eqb (typeId d) id then default 1 (amount d) else 0.
Proof.
  unfold totalAdded. cbn. destruct (String.eqb (typeId d) id); cbn; lia.
Qed.

Lemma mentions_snoc id drops d :
  mentions id (drops ++ [d]) = mentions id drops || String.eqb (typeId d) id.
Proof. unfold mentions. rewrite existsb_app. cbn. by rewrite orb_false_r. Qed.

Lemma totalAdded_app id ds1 ds2 :
  totalAdded id (ds1 ++ ds2) = totalAdded id ds1 + totalAdded id ds2.
Proof.
  unfold totalAdded. rewrite List.filter_app, map_app.
  induction (map _ (List.filter _ ds1)) as [|a l IH]; cbn; [done|].
  unfold sumZ in IH. rewrite IH. apply Z.add_assoc.
Qed.

Lemma addAll_amounts drops : forall id,
  amountsFor id (addAll [] drops)
  = if mentions id drops then [totalAdded id drops] else [].
Proof.
  induction drops as [|d drops IH] using rev_ind; intros id; [done|].
  unfold addAll in *. rewrite fold_left_app.
  rewrite mentions_snoc, totalAdded_app, totalAdded_single.
  change (fold_left addLoot [d] ?l) with (addLoot l d).
  unfold addLoot.
  destruct (String.eqb (typeId d) id) eqn:E.
  - apply String.eqb_eq in E. subst id.
    rewrite amountsFor_lootSet_same, lootGet_head, IH, orb_true_r.
    destruct (mentions (typeId d) drops) eqn:Em; cbn; [done|].
    by rewrite totalAdded_unmentioned.
  - apply String.eqb_neq in E.
    rewrite amountsFor_lootSet_other by exact E. rewrite IH, orb_false_r.
    destruct (mentions id drops); [f_equal; lia|done].
Qed.

Lemma stackSizes_stacksOf id (l : Loot) :
  stackSizes id (stacksOf l)
  = flat_map (fun a => chunks (Z.to_nat a) a) (amountsFor id l).
Proof.
  unfold stackSizes, stacksOf, amountsFor.
  induction l as [|[k v] l IH]; [done|].
  cbn. rewrite List.filter_app, map_app, IH.
  destruct (String.eqb k id) eqn:E; cbn.
  - f_equal. induction (chunks (Z.to_nat v) v) as [|a c IHc]; [done|].
    cbn. rewrite E. cbn. by f_equal.
  - replace (map snd (List.filter _ (map (pair k) (chunks (Z.to_nat v) v)))) with (@nil Z); [done|].
    induction (chunks (Z.to_nat v) v) as [|a c IHc]; [done|].
    cbn. rewrite E. exact IHc.
Qed.

(** *** Running the emission *)

Section Emission.
Variable orc : Oracle.
Hypothesis quiet : noSpawnFaults orc.

Lemma spawnStacks_run fuel : forall id remaining s,
  (Z.to_nat remaining <= fuel)%nat ->
  exists c,
    spawnStacks orc fuel id remaining s
    = (Ok tt, mkSt (host s) c (ticks s)
                   (trace s ++ spawnEvents (map (pair id) (chunks fuel remaining)))
                   (loot s)).
Proof.
  induction fuel as [|fuel IH]; intros id remaining s Hf; cbn.
  - destruct (0 <? remaining) eqn:E.
    + apply Z.ltb_lt in E. lia.
    + exists (calls s). unfold ret. cbn. rewrite app_nil_r. by destruct s.
  - destruct (0 <? remaining) eqn:E.
    + apply Z.ltb_lt in E.
      unfold bind at 1. unfold spawnItem, bind, call, emit. rewrite quiet. cbn.
      edestruct (IH id (remaining - Z.min remaining 64)) as [c Hc]; [lia|].
      rewrite Hc. cbn. exists c. by rewrite <- app_assoc.
    + exists (calls s). unfold ret. cbn. rewrite app_nil_r. by destruct s.
Qed.

Lemma dropEntries_run (l : Loot) : forall s,
  exists c,
    dropEntries orc l s
    = (Ok tt, mkSt (host s) c (ticks s)
                   (trace s ++ spawnEvents (stacksOf l)) (loot s)).
Proof.
  induction l as [|[id amt] l IH]; intros s; cbn.
  - exists (calls s). unfold ret. rewrite app_nil_r. by destruct s.
  - unfold bind at 1.
    destruct (spawnStacks_run (Z.to_nat amt) id amt s) as [c Hc]; [lia|].
    rewrite Hc.
    edestruct IH as [c' Hc']. rewrite Hc'. cbn.
    exists c'. unfold spawnEvents, stacksOf. cbn.
    by rewrite !map_app, <- !app_assoc.
Qed.

Lemma dropVeinLoot_run s :
  exists c,
    dropVeinLoot orc s
    = (Ok tt, mkSt (host s) c (ticks s)
                   (trace s ++ spawnEvents (stacksOf (loot s))) (loot s)).
Proof. unfold dropVeinLoot, bind, get. apply dropEntries_run. Qed.

End Emission.

Lemma spawned_spawnEvents l : spawned (spawnEvents l) = l.
Proof.
  unfold spawned, spawnEvents.
  induction l as [|[id n] l IH]; [done|]. cbn. by rewrite IH.
Qed.

(** C2. After any sequence of [addLoot] calls with amounts of at least
    1 (or none, counted as 1), and when [spawnItem] does not throw, the
    emission ends normally and the stacks it spawns of each type have
    sizes between 1 and 64 that sum to the quantity added of that type;
    there is at least one stack of every type that was added. *)
Theorem emission_splits_into_stacks (orc : Oracle) (h : Host) (c k : nat)
    (t0 : list Event) (drops : list ItemStack) (id : string) :
  noSpawnFaults orc ->
  Forall (fun d => 1 <= default 1 (amount d)) drops ->
  let r := dropVeinLoot orc (mkSt h c k t0 (addAll [] drops)) in
  let sizes := stackSizes id (spawned (skipn (length t0) (trace (snd r)))) in
  fst r = Ok tt
  /\ Forall (fun n => 1 <= n <= 64) sizes
  /\ sumZ sizes = totalAdded id drops
  /\ (In id (map typeId drops) -> sizes <> []).
Proof.
  intros Hq Hpos r sizes.
  destruct (dropVeinLoot_run orc Hq (mkSt h c k t0 (addAll [] drops))) as [c' Hr].
  subst sizes r. rewrite Hr. cbn.
  rewrite drop_app_length, spawned_spawnEvents, stackSizes_stacksOf, addAll_amounts.
  assert (0 <= totalAdded id drops) as Hnn.
  { clear -Hpos. unfold totalAdded.
    induction Hpos as [|d ds Hd _ IH]; [done|].
    cbn. destruct (String.eqb (typeId d) id); cbn; unfold sumZ in *; lia. }
  split; [done|].
  destruct (mentions id drops) eqn:Em; cbn.
  - rewrite app_nil_r. split; [apply chunks_bounds|]. split.
    + rewrite chunks_sum by lia. lia.
    + intros _. apply chunks_nonempty.
      clear -Hpos Em. unfold totalAdded, mentions in *.
      induction Hpos as [|d ds Hd Hds IH]; [done|].
      cbn in *. destruct (String.eqb (typeId d) id) eqn:E; cbn in *.
      * assert (0 <= sumZ (map (fun d => default 1 (amount d))
                    (List.filter (fun d => String.eqb (typeId d) id) ds))).
        { clear -Hds. induction Hds as [|x xs Hx _ IH]; [done|].
          cbn. destruct (String.eqb (typeId x) id); cbn; unfold sumZ in *; lia. }
        unfold sumZ in *. lia.
      * auto.
  - split; [constructor|]. split.
    + by rewrite totalAdded_unmentioned.
    + intros Hin. exfalso. clear -Em Hin. unfold mentions in Em.
      apply in_map_iff in Hin as (d & Hd & Hin).
      assert (existsb (fun d => String.eqb (typeId d) id) drops = true); [|congruence].
      apply existsb_exists. exists d. split; [done|]. subst. apply String.eqb_refl.
Qed.

(** ** Events of the components *)

Lemma generated_app t u : generated (t ++ u) = generated t ++ generated u.
Proof. unfold generated. apply flat_map_app. Qed.

Lemma addAll_app l d1 d2 : addAll l (d1 ++ d2) = addAll (addAll l d1) d2.
Proof. unfold addAll. apply fold_left_app. Qed.

Lemma extends_refl A s : extends A s s.
Proof. exists []. by rewrite app_nil_r. Qed.

Lemma extends_trans A s1 s2 s3 :
  extends A s1 s2 -> extends A s2 s3 -> extends A s1 s3.
Proof.
  intros (t & Ht & Hc & Hl) (u & Hu & Hd & Hm).
  exists (t ++ u). rewrite Hu, Ht, <- app_assoc. split; [done|]. split.
  - rewrite forallb_app, Hc, Hd. done.
  - by rewrite Hm, Hl, generated_app, addAll_app.
Qed.

Lemma extends_weaken (A B : Event -> bool) s s' :
  (forall e, A e = true -> B e = true) -> extends A s s' -> extends B s s'.
Proof.
  intros HAB (t & Ht & Hc & Hl). exists t. repeat split; try done.
  rewrite forallb_forall in *. auto.
Qed.

Section Components.
Variable orc : Oracle.
Variable A : Event -> bool.

Lemma Ext_ret {X} (x : X) : Ext A (ret x).
Proof. intros s. split; [apply extends_refl | done]. Qed.

Lemma Ext_throw {X} : Ext A (fun s => (@Throw X, s)).
Proof. intros s. split; [apply extends_refl | done]. Qed.

Lemma Ext_bind {X Y} (m : M X) (f : X -> M Y) :
  Ext A m -> (forall x, Ext A (f x)) -> Ext A (bind m f).
Proof.
  intros Hm Hf s. unfold bind. specialize (Hm s).
  destruct (m s) as [[x| |] s1]; cbn in *.
  - destruct (Hf x s1) as [H1 H2]. split; [|done].
    eapply extends_trans; [apply Hm | apply H1].
  - split; [apply Hm | done].
  - by destruct Hm.
Qed.

Lemma Ext_tryCatch {X} (m h : M X) :
  Ext A m -> Ext A h -> Ext A (tryCatch m h).
Proof.
  intros Hm Hh s. unfold tryCatch. specialize (Hm s).
  destruct (m s) as [[x| |] s1]; cbn in *; try done.
  destruct (Hh s1) as [H1 H2]. split; [|done].
  eapply extends_trans; [apply Hm | apply H1].
Qed.

Lemma Ext_get : Ext A get.
Proof. intros s. split; [apply extends_refl | done]. Qed.

Lemma Ext_call a : Ext A (call orc a).
Proof.
  intros s. unfold call.
  destruct (faultAt orc a (calls s)); cbn; (split; [|done]);
    exists []; by rewrite app_nil_r.
Qed.

Lemma Ext_setHost h : Ext A (setHost h).
Proof. intros s. split; [|done]. exists []. cbn. by rewrite app_nil_r. Qed.

Lemma Ext_emit e : A e = true -> isGen e = false -> Ext A (emit e).
Proof.
  intros HA Hg s. split; [|done]. exists [e]. cbn. rewrite HA.
  repeat split. destruct e; try done.
Qed.

Lemma Ext_waitTicks : A EvWaitTicks = true -> Ext A (waitTicks orc).
Proof.
  intros HA. unfold waitTicks. apply Ext_bind; [apply Ext_call|].
  intros _ s. split; [|done]. exists [EvWaitTicks]. cbn. by rewrite HA.
Qed.

(** Generating loot and adding it to the context, as one step. *)
Lemma Ext_loot {X} p drops (k : M X) :
  A (EvGenerateLoot p drops) = true -> Ext A k ->
  Ext A (bind (emit (EvGenerateLoot p drops))
              (fun _ => bind (addDrops drops) (fun _ => k))).
Proof.
  intros HA Hk s. unfold bind at 1 2, emit, addDrops, bind, get, setLoot. cbn.
  match goal with |- context [k ?s0] => destruct (Hk s0) as [H1 H2]; set (s1 := s0) in * end.
  split; [|done].
  eapply extends_trans; [|apply H1].
  exists [EvGenerateLoot p drops]. subst s1. cbn. rewrite HA, app_nil_r. done.
Qed.

End Components.

Ltac ext_step :=
  first
    [ apply Ext_loot; [reflexivity|]
    | apply Ext_bind; [|intros ?]
    | apply Ext_tryCatch
    | apply Ext_ret
    | apply Ext_throw
    | apply Ext_get
    | apply Ext_call
    | apply Ext_setHost
    | apply Ext_emit; reflexivity
    | apply Ext_waitTicks; reflexivity
    | match goal with
      | |- Ext _ (if ?b then _ else _) => destruct b
      | |- Ext _ (match ?x with _ => _ end) => destruct x
      end ].

Ltac ext_auto := repeat ext_step.

Section ComponentFacts.
Variable orc : Oracle.

Lemma Ext_wear item : Ext sideEvent (wear orc item).
Proof. unfold wear, getGameMode, setEquipment, playSound. ext_auto. Qed.

Lemma Ext_hungerGate cont : Ext sideEvent (hungerGate orc cont).
Proof. unfold hungerGate, reduceHunger, addEffect. ext_auto. Qed.

Lemma Ext_runCommand c : Ext sideEvent (runCommand orc c).
Proof. unfold runCommand. ext_auto. Qed.

Lemma Ext_consoleWarn : Ext sideEvent (consoleWarn orc).
Proof. unfold consoleWarn. ext_auto. Qed.

Lemma Ext_getViewDirection : Ext sideEvent (getViewDirection orc).
Proof. unfold getViewDirection. ext_auto. Qed.

Lemma breakBlock_unfold item p b :
  breakBlock orc item p b true
  = bind (emit (EvBreakBlock p)) (fun _ => breakBlockRest orc item p b).
Proof. reflexivity. Qed.

Lemma Ext_breakBlockRest item p b : Ext sideEvent (breakBlockRest orc item p b).
Proof.
  unfold breakBlockRest, hasTag, itemComponent.
  ext_auto; apply Ext_runCommand.
Qed.

End ComponentFacts.

(** ** Passes through the loop bodies *)

Section Inversions.
Variable orc : Oracle.

Lemma toolChanged_cases item s :
  (item = None /\ toolChanged orc item s = (Ok false, s))
  \/ (exists it s', item = Some it /\ toolChanged orc item s = (Throw, s')
                    /\ same s s')
  \/ (exists it s', item = Some it
        /\ toolChanged orc item s
           = (Ok (negb (bool_decide (mainhand (host s) = Some (toolType it)))), s')
        /\ readEquipment s s').
Proof.
  destruct item as [it|]; [right|left; done].
  unfold toolChanged, getEquipment, bind, call, get, emit, ret.
  destruct (faultAt orc GetEquipment (calls s)); cbn.
  - left. eexists _, _. repeat split.
  - right. eexists _, _. repeat split.
Qed.

Lemma Ext_run {X} (A : Event -> bool) (m : M X) s r s' :
  Ext A m -> m s = (r, s') -> extends A s s' /\ r <> Stuck.
Proof. intros H E. specialize (H s). by rewrite E in H. Qed.

Lemma breakBlock_run item p b s r s' :
  breakBlock orc item p b true s = (r, s') ->
  r <> Stuck /\ exists s1, entered p s s1 /\ extends sideEvent s1 s'.
Proof.
  rewrite breakBlock_unfold. unfold bind at 1, emit. cbn.
  intros E. apply (Ext_run sideEvent) in E as [H1 H2];
    [|apply Ext_breakBlockRest].
  split; [done|]. eexists. split; [|exact H1]. done.
Qed.

Lemma breakOrWarn_run item p b s r s' :
  breakOrWarn orc item p b s = (r, s') ->
  r <> Stuck /\ exists s1, entered p s s1 /\ extends sideEvent s1 s'.
Proof.
  unfold breakOrWarn, tryCatch, bind at 1.
  destruct (breakBlock orc item p b true s) as [[[]| |] s1] eqn:E;
    apply breakBlock_run in E as (Hns & s0 & He & Hx); cbn.
  - intros [= <- <-]. split; [done|]. eauto.
  - intros E2. apply (Ext_run sideEvent) in E2 as [H1 H2].
    + split; [done|]. exists s0. split; [done|].
      eapply extends_trans; eassumption.
    + ext_auto.
  - done.
Qed.

End Inversions.

(** *** One pass through each loop body *)

Section Passes.
Variable orc : Oracle.

#[local] Arguments wear : simpl never.
#[local] Arguments hungerGate : simpl never.
#[local] Arguments breakBlock : simpl never.
#[local] Arguments breakOrWarn : simpl never.
#[local] Arguments waitTicks : simpl never.

Lemma checked_step {V} item stop (v : V) (rest : M (Flow * V)) res s r s' :
  (forall s1 r s', rest s1 = (r, s') ->
     exists o, isWork o /\ Work s1 o s' /\ res o r) ->
  checked orc item stop v rest s = (r, s') ->
  exists o, Step item s o s' /\ passRes stop v res o r.
Proof.
  intros Hrest. unfold checked, bind.
  destruct (toolChanged_cases orc item s)
    as [[-> H] | [(it & s1 & -> & H & Hs) | (it & s1 & -> & H & Hr)]];
    rewrite H; clear H.
  - intros E. destruct (Hrest _ _ _ E) as (o & Hw & HW & Hres). exists o.
    split; [by eapply StepWork|]. by destruct o.
  - intros [= <- <-]. exists OThrow. split; [by apply StepThrow|done].
  - destruct (bool_decide (mainhand (host s) = Some (toolType it))) eqn:Eb;
      cbn [negb].
    + apply bool_decide_eq_true in Eb. intros E.
      destruct (Hrest _ _ _ E) as (o & Hw & HW & Hres). exists o.
      split; [by eapply StepWork|]. by destruct o.
    + apply bool_decide_eq_false in Eb. intros [= <- <-]. exists OMismatch.
      split; [eapply StepMismatch; eauto|done].
Qed.

(** Running a component that only makes side events. *)
Ltac side_run lem :=
  let T := type of lem in
  lazymatch T with
  | Ext _ ?m =>
      match goal with
      | |- context [m ?s] =>
          let E := fresh "E" in
          let X := fresh "X" in
          let N := fresh "N" in
          let r := fresh "r" in
          let s' := fresh "s" in
          destruct (m s) as [r s'] eqn:E;
          apply (Ext_run _ _ _ _ _ lem) in E as [X N];
          destruct r as [?| |]; [ | | done]
      end
  end.

Ltac break_with m s lem :=
  let E := fresh "E" in
  let X := fresh "X" in
  let N := fresh "N" in
  let B := fresh "B" in
  let r := fresh "r" in
  let s' := fresh "s" in
  let s0 := fresh "s" in
  destruct (m s) as [r s'] eqn:E;
  apply lem in E as (N & s0 & B & X);
  destruct r as [?| |]; [ | | done].

Ltac break_run :=
  match goal with
  | |- context [breakBlock ?o ?i ?p ?b ?c ?s] =>
      break_with (breakBlock o i p b c) s breakBlock_run
  | |- context [breakOrWarn ?o ?i ?p ?b ?s] =>
      break_with (breakOrWarn o i p b) s breakOrWarn_run
  end.

Ltac ext_chain :=
  first
    [ eassumption
    | apply extends_refl
    | eapply extends_trans; [eassumption|];
      first [ eassumption
            | eapply extends_trans; [eassumption|];
              first [ eassumption
                    | eapply extends_trans; [eassumption|eassumption] ] ] ].

Ltac finish_idle :=
  intros [= <- <-]; exists OIdle; split; [done|];
  split; [apply WorkIdle; ext_chain|].

Ltac finish_broke :=
  intros [= <- <-]; exists OBroke; split; [done|];
  split; [eapply WorkBroke; only 2: eassumption; ext_chain |].

Lemma floodRest_work eligibleType item v s1 r s' :
  floodRest orc eligibleType item v s1 = (r, s') ->
  exists o, isWork o /\ Work s1 o s' /\ floodRes v o r.
Proof.
  unfold floodRest.
  destruct (toCheck v) as [|pos rest] eqn:Eq.
  { finish_idle. by left. }
  destruct (decide (pos ∈ visited v)).
  { intros [= <- <-]. exists OSkip. split; [done|]. split; [apply WorkSkip|].
    eexists. repeat split; cbn; rewrite ?Eq; done. }
  cbn zeta. unfold bind at 1, getBlockOrUndefined, bind at 1, get, ret at 1.
  match goal with
  | |- context [if (?a || ?b) then _ else _] => destruct (a || b)
  end.
  2:{ intros [= <- <-]. exists OSkip. split; [done|]. split; [apply WorkSkip|].
      eexists. repeat split; cbn; rewrite ?Eq; done. }
  unfold bind at 1. side_run (Ext_wear orc item).
  2:{ finish_idle. by left. }
  unfold bind at 1. side_run (Ext_hungerGate orc (cont v)).
  2:{ finish_idle. by left. }
  match goal with |- context [if ?b then _ else _] => destruct b end.
  { finish_idle. right; left. eexists; eauto. }
  cbn zeta.
  destruct (match blockAt (host s1) pos with
            | QBlock b => Some b | _ => None end) as [b|].
  2:{ finish_idle. right; right. eexists. split; [done|]. cbn. split; [done|].
      rewrite ?Eq, length_app. cbn. lia. }
  unfold bind at 1 2. break_run.
  2:{ finish_broke. by left. }
  side_run (Ext_waitTicks orc sideEvent eq_refl).
  - finish_broke. right. eexists. split; [done|]. cbn. split; [done|].
    rewrite ?Eq, length_app. cbn. lia.
  - finish_broke. by left.
Qed.

Lemma floodIter_step eligibleType item v s r s' :
  floodIter orc eligibleType item v s = (r, s') ->
  exists o, Step item s o s' /\ passRes Break v (floodRes v) o r.
Proof. apply checked_step. apply floodRest_work. Qed.

Lemma lineRest_work perm item pos cont s1 r s' :
  lineRest orc perm item pos cont s1 = (r, s') ->
  exists o, isWork o /\ Work s1 o s' /\ lineRes cont o r.
Proof.
  unfold lineRest, bind at 1, getBlockNow, bind at 1, get, ret at 1.
  destruct (getBlock orc true perm (host s1) pos) as [b|].
  2:{ intros [= <- <-]. exists OSkip. split; [done|]. split; [apply WorkSkip|done]. }
  unfold bind at 1. side_run (Ext_wear orc item).
  2:{ finish_idle. by left. }
  unfold bind at 1. side_run (Ext_hungerGate orc cont).
  2:{ finish_idle. by left. }
  match goal with |- context [if ?b then _ else _] => destruct b end.
  { finish_idle. by right. }
  unfold bind at 1. break_run.
  2:{ finish_broke. by left. }
  match goal with |- context [if ?b then _ else _] => destruct b end.
  { finish_broke. right; by left. }
  unfold bind at 1. side_run (Ext_waitTicks orc sideEvent eq_refl).
  - finish_broke. right; by right.
  - finish_broke. by left.
Qed.

Lemma smallRest_work perm item pos cont s1 r s' :
  smallRest orc perm item pos cont s1 = (r, s') ->
  exists o, isWork o /\ Work s1 o s' /\ smallRes cont o r.
Proof.
  unfold smallRest, bind at 1, getBlockNow, bind at 1, get, ret at 1.
  destruct (getBlock orc true perm (host s1) pos) as [b|].
  2:{ intros [= <- <-]. exists OSkip. split; [done|]. split; [apply WorkSkip|done]. }
  unfold bind at 1. side_run (Ext_wear orc item).
  2:{ finish_idle. by left. }
  unfold bind at 1. side_run (Ext_hungerGate orc cont).
  2:{ finish_idle. by left. }
  match goal with |- context [if ?b then _ else _] => destruct b end.
  { finish_idle. by right. }
  unfold bind at 1. break_run.
  2:{ finish_broke. by left. }
  match goal with |- context [if ?b then _ else _] => destruct b end.
  { finish_broke. right; by left. }
  unfold bind at 1. side_run (Ext_waitTicks orc sideEvent eq_refl).
  - finish_broke. right; by right.
  - finish_broke. by left.
Qed.

Lemma largeRest_work perm item maxBlocks pos v s1 r s' :
  largeRest orc perm item maxBlocks pos v s1 = (r, s') ->
  exists o, isWork o /\ Work s1 o s' /\ largeRes maxBlocks v o r.
Proof.
  unfold largeRest, bind at 1, getBlockNow, bind at 1, get, ret at 1.
  destruct (getBlock orc true perm (host s1) pos) as [b|].
  2:{ intros [= <- <-]. exists OSkip. split; [done|]. split; [apply WorkSkip|done]. }
  unfold bind at 1. side_run (Ext_wear orc item).
  2:{ finish_idle. by left. }
  unfold bind at 1. side_run (Ext_hungerGate orc (lcont v)).
  2:{ finish_idle. by left. }
  match goal with |- context [if ?b then _ else _] => destruct b end.
  { finish_idle. by right. }
  unfold bind at 1. break_run.
  2:{ finish_broke. by left. }
  match goal with |- context [if ?b then _ else _] => destruct b end.
  { finish_broke. right; by left. }
  cbn zeta. cbn [broken].
  destruct (maxBlocks <=? broken v + 1 + 1) eqn:Ecap.
  { apply Z.leb_le in Ecap. finish_broke. right; right; left. split; [done|]. cbn. lia. }
  apply Z.leb_gt in Ecap.
  unfold bind at 1. side_run (Ext_waitTicks orc sideEvent eq_refl).
  - finish_broke. right; right; right. split; [done|]. cbn. lia.
  - finish_broke. by left.
Qed.

Lemma lineIter_step origin perm item axis sgn d cont s r s' :
  lineIter orc origin perm item axis sgn d cont s = (r, s') ->
  exists o, Step item s o s' /\ passRes Break cont (lineRes cont) o r.
Proof. apply checked_step. apply lineRest_work. Qed.

Lemma smallIter_step perm item base off cont s r s' :
  smallIter orc perm item base off cont s = (r, s') ->
  exists o, Step item s o s' /\ passRes Return cont (smallRes cont) o r.
Proof. apply checked_step. apply smallRest_work. Qed.

Lemma largeIter_step perm item maxBlocks axis center o' v s r s' :
  largeIter orc perm item maxBlocks axis center o' v s = (r, s') ->
  exists o, Step item s o s' /\ passRes Break v (largeRes maxBlocks v) o r.
Proof. apply checked_step. apply largeRest_work. Qed.

End Passes.

(** ** The block budget *)

(** *** Counting breaks *)

Lemma blocksBroken_app t u :
  blocksBroken (t ++ u) = blocksBroken t + blocksBroken u.
Proof. unfold blocksBroken. rewrite List.filter_app, length_app. lia. Qed.

Lemma blocksBroken_nonneg t : 0 <= blocksBroken t.
Proof. unfold blocksBroken. lia. Qed.

Lemma side_no_break t : forallb sideEvent t = true -> blocksBroken t = 0.
Proof.
  unfold blocksBroken. induction t as [|e t IH]; [done|].
  cbn [forallb]. intros [He Ht]%andb_true_iff.
  destruct e; cbn in He |- *; try discriminate; auto.
Qed.

Lemma extends_side_breaks s s' :
  extends sideEvent s s' -> blocksBroken (trace s') = blocksBroken (trace s).
Proof.
  intros (t & E & Ht & _). rewrite E, blocksBroken_app, (side_no_break t) by done. lia.
Qed.

Lemma passed_breaks item s s1 :
  passed item s s1 -> blocksBroken (trace s1) = blocksBroken (trace s).
Proof.
  destruct item; cbn.
  - intros (_ & E & _). rewrite E, blocksBroken_app.
    change (blocksBroken [_]) with 0. lia.
  - by intros ->.
Qed.

Lemma Step_breaks item s o s' :
  Step item s o s' ->
  blocksBroken (trace s') = blocksBroken (trace s) + brokeOne o.
Proof.
  intros [s1 Hi (E & _) | it s1 -> Hm (E & _) | s1 o1 s2 Hp Hw].
  - rewrite E. cbn. lia.
  - rewrite E, blocksBroken_app. change (blocksBroken [_]) with 0. cbn. lia.
  - apply passed_breaks in Hp. rewrite <- Hp.
    destruct Hw as [ | s2 X | p sa sb s2 X1 (E & _) X2 ]; cbn.
    + lia.
    + apply extends_side_breaks in X. lia.
    + apply extends_side_breaks in X1, X2.
      rewrite X2, E, blocksBroken_app, X1.
      change (blocksBroken [_]) with 1. cbn. lia.
Qed.

(** *** Loops *)

Lemma forEach_inv {A V} (I : list A -> V -> St -> Prop)
    (Q : Exit (Flow * V) -> St -> Prop) (body : A -> V -> M (Flow * V)) :
  (forall a l v s r s', I (a :: l) v s -> body a v s = (r, s') ->
     match r with
     | Ok (Next, v') => I l v' s'
     | Ok (Break, v') => Q (Ok (Next, v')) s'
     | Ok (Return, v') => Q (Ok (Return, v')) s'
     | Throw => Q Throw s'
     | Stuck => Q Stuck s'
     end) ->
  (forall v s, I [] v s -> Q (Ok (Next, v)) s) ->
  forall l v s r s', I l v s -> forEach l body v s = (r, s') -> Q r s'.
Proof.
  intros Hbody Hend l. induction l as [|a l IH]; intros v s r s' HI; cbn.
  - intros [= <- <-]. by apply Hend.
  - unfold bind. destruct (body a v s) as [rb sb] eqn:Eb.
    specialize (Hbody _ _ _ _ _ _ HI Eb).
    destruct rb as [[[] v']| |]; try (intros [= <- <-]; done).
    apply IH. done.
Qed.

(** A loop whose passes each break at most [k] blocks. *)
Lemma forEach_breaks {A V} (k : Z) (body : A -> V -> M (Flow * V)) :
  0 <= k ->
  (forall a v s r s', body a v s = (r, s') ->
     blocksBroken (trace s') <= blocksBroken (trace s) + k) ->
  forall l v s r s', forEach l body v s = (r, s') ->
    blocksBroken (trace s') <= blocksBroken (trace s) + k * Z.of_nat (length l).
Proof.
  intros Hk Hbody l v s r s' E.
  eapply (forEach_inv
            (fun l' _ s1 => blocksBroken (trace s1) + k * Z.of_nat (length l')
                            <= blocksBroken (trace s) + k * Z.of_nat (length l))
            (fun _ s1 => blocksBroken (trace s1)
                         <= blocksBroken (trace s) + k * Z.of_nat (length l)));
    [ | | | exact E].
  - intros a l' v' s1 r1 s1' HI Eb. apply Hbody in Eb.
    cbn [length] in HI.
    destruct r1 as [[[] v'']| |]; nia.
  - intros v' s1 HI. cbn in HI. lia.
  - lia.
Qed.

Section Bounds.
Variable orc : Oracle.

Lemma step_at_most_one item s o s' :
  Step item s o s' -> blocksBroken (trace s') <= blocksBroken (trace s) + 1.
Proof. intros H%Step_breaks. destruct o; cbn in H; lia. Qed.

Lemma dropVeinLoot_events s r s' :
  dropVeinLoot orc s = (r, s') -> extends isSpawn s s' /\ r <> Stuck.
Proof.
  apply Ext_run. unfold dropVeinLoot.
  apply Ext_bind; [apply Ext_get|]. intros s0. clear.
  induction (loot s0) as [|[id amt] l IH]; cbn; [apply Ext_ret|].
  apply Ext_bind; [|intros _; exact IH].
  assert (forall fuel remaining, (Z.to_nat remaining <= fuel)%nat ->
            Ext isSpawn (spawnStacks orc fuel id remaining)) as H.
  { clear. induction fuel as [|fuel IH]; intros remaining Hf; cbn.
    - destruct (0 <? remaining) eqn:E; [apply Z.ltb_lt in E; lia|apply Ext_ret].
    - destruct (0 <? remaining) eqn:E; [|apply Ext_ret].
      apply Z.ltb_lt in E.
      apply Ext_bind; [unfold spawnItem; ext_auto|]. intros _. apply IH. lia. }
  apply H. lia.
Qed.

Lemma spawn_no_break t : forallb isSpawn t = true -> blocksBroken t = 0.
Proof.
  unfold blocksBroken. induction t as [|e t IH]; [done|].
  cbn [forallb]. intros [He Ht]%andb_true_iff.
  destruct e; cbn in He |- *; try discriminate; auto.
Qed.

Lemma dropVeinLoot_breaks s r s' :
  dropVeinLoot orc s = (r, s') -> blocksBroken (trace s') = blocksBroken (trace s).
Proof.
  intros [(t & E & Ht & _) _]%dropVeinLoot_events.
  rewrite E, blocksBroken_app, (spawn_no_break t) by done. lia.
Qed.

(** A bound on the body of a handler carries over to the handler. *)
Lemma tryFinally_breaks (body : M unit) (n : Z) s :
  (forall r s', body s = (r, s') -> blocksBroken (trace s') <= n) ->
  blocksBroken (trace (snd (tryFinally body (dropVeinLoot orc) s))) <= n.
Proof.
  intros Hb. unfold tryFinally.
  destruct (body s) as [r s1] eqn:E. specialize (Hb _ _ eq_refl).
  destruct (dropVeinLoot orc s1) as [r2 s2] eqn:E2.
  apply dropVeinLoot_breaks in E2.
  destruct r as [[]| |]; destruct r2 as [[]| |]; cbn; lia.
Qed.

Lemma prologue_breaks {X} (m : M X) s r s' :
  Ext sideEvent m -> m s = (r, s') ->
  blocksBroken (trace s') = blocksBroken (trace s).
Proof. intros H E. apply (Ext_run _ _ _ _ _ H) in E as [E _]. by apply extends_side_breaks. Qed.

(** **** Flood-fill *)

Lemma floodLoop_S eligibleType item maxVein fuel v :
  floodLoop orc (S fuel) eligibleType item maxVein v
  = if (0 <? length (toCheck v))%nat && (cont v <? maxVein)
    then bind (floodIter orc eligibleType item v)
              (fun r => match r with
                        | (Next, v') =>
                            floodLoop orc fuel eligibleType item maxVein v'
                        | (_, _) => ret tt
                        end)
    else ret tt.
Proof. reflexivity. Qed.

Lemma floodLoop_0 eligibleType item maxVein v :
  floodLoop orc 0 eligibleType item maxVein v
  = if (0 <? length (toCheck v))%nat && (cont v <? maxVein)
    then fun s => (Stuck, s)
    else ret tt.
Proof. reflexivity. Qed.

Lemma floodLoop_breaks eligibleType item maxVein fuel : forall v s r s',
  blocksBroken (trace s) <= cont v -> cont v <= maxVein ->
  floodLoop orc fuel eligibleType item maxVein v s = (r, s') ->
  blocksBroken (trace s') <= maxVein.
Proof.
  induction fuel as [|fuel IH]; intros v s r s' Hb Hc.
  - rewrite floodLoop_0. destruct (_ && _); intros [= <- <-]; lia.
  - rewrite floodLoop_S.
    destruct ((0 <? length (toCheck v))%nat && (cont v <? maxVein)) eqn:G.
    2:{ intros [= <- <-]. lia. }
    apply andb_true_iff in G as [_ G]. apply Z.ltb_lt in G.
    unfold bind. destruct (floodIter orc eligibleType item v s) as [ri si] eqn:Ei.
    apply floodIter_step in Ei as (o & HS & HR).
    apply Step_breaks in HS.
    destruct o; cbn in HR, HS.
    + subst ri. intros [= <- <-]. lia.
    + subst ri. intros [= <- <-]. lia.
    + destruct HR as (v' & -> & Hc' & _). apply IH; lia.
    + destruct HR as [-> | [(v' & -> & Hc') | (v' & -> & Hc' & _)]].
      * intros [= <- <-]. lia.
      * intros [= <- <-]. lia.
      * apply IH; lia.
    + destruct HR as [-> | (v' & -> & Hc' & _)].
      * intros [= <- <-]. lia.
      * apply IH; lia.
Qed.

Lemma floodFill_breaks eligibleType origin maxVein item h :
  0 <= maxVein ->
  blocksBroken (trace (snd (floodFill orc eligibleType origin maxVein item (initSt h))))
  <= maxVein.
Proof.
  intros Hm. unfold floodFill. apply tryFinally_breaks. intros r s'.
  unfold bind. destruct (call orc GetDimension (initSt h)) as [rc sc] eqn:Ec.
  apply (prologue_breaks _ _ _ _ (Ext_call orc sideEvent GetDimension)) in Ec.
  cbn in Ec. change (blocksBroken []) with 0 in Ec.
  destruct rc as [?| |]; try (intros [= <- <-]; lia).
  apply floodLoop_breaks; cbn; lia.
Qed.

(** **** Line and small tunnels *)

Lemma lineTunnel_breaks origin perm maxVein item h :
  0 <= maxVein ->
  blocksBroken (trace (snd (lineTunnel orc origin perm maxVein item (initSt h))))
  <= maxVein.
Proof.
  intros Hm. unfold lineTunnel. apply tryFinally_breaks. intros r s'.
  cbn zeta. unfold bind at 1.
  destruct (call orc GetDimension (initSt h)) as [rc sc] eqn:Ec.
  apply (prologue_breaks _ _ _ _ (Ext_call orc sideEvent GetDimension)) in Ec.
  cbn in Ec. change (blocksBroken []) with 0 in Ec.
  destruct rc as [?| |]; try (intros [= <- <-]; lia).
  unfold bind at 1.
  destruct (getViewDirection orc sc) as [rv sv] eqn:Ev.
  apply (prologue_breaks _ _ _ _ (Ext_getViewDirection orc)) in Ev.
  destruct rv as [v| |]; try (intros [= <- <-]; lia).
  destruct (aimAxis true v) as [axis sgn].
  unfold bind.
  destruct (forEach _ _ _ sv) as [rl sl] eqn:El.
  apply (forEach_breaks 1) in El; [|lia|].
  2:{ intros d c s0 r0 s0' E0. apply lineIter_step in E0 as (o & HS & _).
      eapply step_at_most_one; eauto. }
  rewrite length_seqZ in El.
  destruct rl as [[]| |]; intros [= <- <-]; lia.
Qed.

Lemma smallSlice_breaks origin perm item axis sgn d cont s r s' :
  smallSlice orc origin perm item axis sgn d cont s = (r, s') ->
  blocksBroken (trace s') <= blocksBroken (trace s) + 2.
Proof.
  unfold smallSlice. intros E.
  apply (forEach_breaks 1) in E; [cbn in E; lia|lia|].
  intros off c s0 r0 s0' E0. apply smallIter_step in E0 as (o & HS & _).
  eapply step_at_most_one; eauto.
Qed.

Lemma smallTunnel_breaks origin perm maxVein item h :
  0 <= maxVein ->
  blocksBroken (trace (snd (smallTunnel orc origin perm maxVein item (initSt h))))
  <= maxVein.
Proof.
  intros Hm. unfold smallTunnel. apply tryFinally_breaks. intros r s'.
  cbn zeta. unfold bind at 1.
  destruct (call orc GetDimension (initSt h)) as [rc sc] eqn:Ec.
  apply (prologue_breaks _ _ _ _ (Ext_call orc sideEvent GetDimension)) in Ec.
  cbn in Ec. change (blocksBroken []) with 0 in Ec.
  destruct rc as [?| |]; try (intros [= <- <-]; lia).
  unfold bind at 1.
  destruct (getViewDirection orc sc) as [rv sv] eqn:Ev.
  apply (prologue_breaks _ _ _ _ (Ext_getViewDirection orc)) in Ev.
  destruct rv as [v| |]; try (intros [= <- <-]; lia).
  destruct (aimAxis true v) as [axis sgn].
  unfold bind.
  destruct (forEach _ _ _ sv) as [rl sl] eqn:El.
  apply (forEach_breaks 2) in El; [|lia|].
  2:{ intros d c s0 r0 s0'. apply smallSlice_breaks. }
  rewrite length_seqZ in El.
  assert (2 * (maxVein / 2) <= maxVein) by (apply Z.mul_div_le; lia).
  assert (0 <= maxVein / 2) by (apply Z.div_pos; lia).
  destruct rl as [[]| |]; intros [= <- <-]; lia.
Qed.

(** **** Large tunnel *)

Lemma largeInv_cap maxBlocks n s :
  largeInv maxBlocks n s -> blocksBroken (trace s) <= largeCap maxBlocks.
Proof. unfold largeInv, largeCap. lia. Qed.

Lemma largeInner_breaks perm item maxBlocks axis center l : forall v s r s',
  largeInv maxBlocks (broken v) s ->
  forEach l (largeIter orc perm item maxBlocks axis center) v s = (r, s') ->
  match r with
  | Ok (Next, v') => largeInv maxBlocks (broken v') s'
  | Ok (Break, _) => False
  | _ => blocksBroken (trace s') <= largeCap maxBlocks
  end.
Proof.
  intros v s r s' HI E.
  eapply (forEach_inv
            (fun _ v s => largeInv maxBlocks (broken v) s)
            (fun r s' => match r with
                         | Ok (Next, v') => largeInv maxBlocks (broken v') s'
                         | Ok (Break, _) => False
                         | _ => blocksBroken (trace s') <= largeCap maxBlocks
                         end)); [ | | exact HI | exact E].
  - clear. intros o l v s r s' HI E.
    apply largeIter_step in E as (oc & HS & HR).
    apply Step_breaks in HS. unfold largeInv, largeCap in *.
    destruct oc; cbn in HR, HS.
    + subst r. lia.
    + subst r. split; lia.
    + subst r. split; lia.
    + destruct HR as [-> | ->]; [lia | split; lia].
    + destruct HR as [-> | [-> | [[-> Hc] | [-> Hc]]]]; cbn in *; lia.
  - auto.
Qed.

Lemma largeSlice_breaks origin perm item maxBlocks axis sgn d w s r s' :
  largeInv maxBlocks (snd (fst w)) s ->
  largeSlice orc origin perm item maxBlocks axis sgn d w s = (r, s') ->
  match r with
  | Ok (Next, w') => largeInv maxBlocks (snd (fst w')) s'
  | _ => blocksBroken (trace s') <= largeCap maxBlocks
  end.
Proof.
  destruct w as [[c b] outward]. cbn [fst snd]. intros HI.
  unfold largeSlice. unfold bind.
  destruct (forEach _ _ _ s) as [ri si] eqn:Ei.
  apply largeInner_breaks in Ei; [|exact HI].
  destruct ri as [[[] v]| |]; try done; try (intros [= <- <-]; done).
  destruct (negb (foundInSlice v)); intros [= <- <-]; cbn; [|done].
  by eapply largeInv_cap.
Qed.

Lemma largeTunnel_breaks origin perm maxVein item h :
  blocksBroken (trace (snd (largeTunnel orc origin perm maxVein item (initSt h))))
  <= largeCap (maxVein * 2).
Proof.
  unfold largeTunnel. apply tryFinally_breaks. intros r s'.
  cbn zeta. unfold bind at 1.
  assert (0 <= largeCap (maxVein * 2)) as Hcap by (unfold largeCap; lia).
  destruct (call orc GetDimension (initSt h)) as [rc sc] eqn:Ec.
  apply (prologue_breaks _ _ _ _ (Ext_call orc sideEvent GetDimension)) in Ec.
  cbn in Ec. change (blocksBroken []) with 0 in Ec.
  destruct rc as [?| |]; try (intros [= <- <-]; lia).
  unfold bind at 1.
  destruct (getViewDirection orc sc) as [rv sv] eqn:Ev.
  apply (prologue_breaks _ _ _ _ (Ext_getViewDirection orc)) in Ev.
  destruct rv as [v| |]; try (intros [= <- <-]; lia).
  destruct (aimAxis true v) as [axis sgn].
  unfold bind at 1, get. unfold bind.
  destruct (forEach _ _ _ sv) as [rl sl] eqn:El.
  eapply (forEach_inv
            (fun _ w s => largeInv (maxVein * 2) (snd (fst w)) s)
            (fun _ s => blocksBroken (trace s) <= largeCap (maxVein * 2)))
    in El.
  - destruct rl as [[]| |]; intros [= <- <-]; lia.
  - intros d l w s0 r0 s0' HI E0.
    eapply largeSlice_breaks in E0; [|exact HI].
    destruct r0 as [[[] w']| |]; try done.
  - intros w s0 HI. by eapply largeInv_cap.
  - cbn. unfold largeInv. lia.
Qed.

End Bounds.

(** C3 (amended). With a budget of at least 1, a run of a flood-fill
    handler, of the line tunnel or of the small tunnel hands at most
    [maxVein] blocks to [breakBlock], and a run of the large tunnel at
    most [2 * maxVein - 1]. *)
Theorem broken_blocks_within_budget (orc : Oracle) (sh : Shape) (origin : Pos)
    (brokenBlock : string) (maxVein : Z) (item : option Tool) (h : Host) :
  1 <= maxVein ->
  blocksBroken
    (trace (snd (veinHandler orc sh origin brokenBlock maxVein item (initSt h))))
  <= match sh with
     | LargeTunnel => 2 * maxVein - 1
     | _ => maxVein
     end.
Proof.
  intros Hm. destruct sh; cbn [veinHandler].
  - apply floodFill_breaks. lia.
  - apply floodFill_breaks. lia.
  - apply floodFill_breaks. lia.
  - pose proof (largeTunnel_breaks orc origin brokenBlock maxVein item h) as H.
    unfold largeCap in H. lia.
  - apply smallTunnel_breaks. lia.
  - apply lineTunnel_breaks. lia.
Qed.

(** ** The tool check *)

(** *** After a tool mismatch *)

Lemma blocksBroken_cons e t :
  blocksBroken (e :: t) = (if isBreak e then 1 else 0) + blocksBroken t.
Proof. unfold blocksBroken. cbn. destruct (isBreak e); cbn [length]; lia. Qed.

Lemma clean_app ty t u : clean ty t -> clean ty u -> clean ty (t ++ u).
Proof. unfold clean. rewrite forallb_app. by intros -> ->. Qed.

Lemma clean_settled ty t : clean ty t -> settled ty t.
Proof.
  intros Hc t1 m t2 -> Hm. unfold clean in Hc.
  rewrite forallb_app in Hc. apply andb_true_iff in Hc as [_ Hc].
  cbn in Hc. apply andb_true_iff in Hc as [Hc _].
  apply negb_true_iff, negb_false_iff, bool_decide_eq_true in Hc. done.
Qed.

Lemma settled_app ty t u :
  settled ty t -> blocksBroken u = 0 -> settled ty (t ++ u).
Proof.
  intros Hs Hu t1 m t2 E Hm.
  apply app_eq_app in E as [l [[E1 E2] | [E1 E2]]].
  - destruct l as [|e l].
    + cbn in E2. rewrite app_nil_r in E1. subst.
      rewrite blocksBroken_cons in Hu. pose proof (blocksBroken_nonneg t2).
      cbn in Hu. lia.
    + injection E2 as <- ->. rewrite blocksBroken_app.
      rewrite (Hs _ _ _ E1 Hm). lia.
  - subst u. rewrite blocksBroken_app, blocksBroken_cons in Hu.
    pose proof (blocksBroken_nonneg l). pose proof (blocksBroken_nonneg t2).
    cbn in Hu. lia.
Qed.

Lemma side_clean ty t : forallb sideEvent t = true -> clean ty t.
Proof.
  unfold clean. induction t as [|e t IH]; [done|].
  cbn [forallb]. intros [He Ht]%andb_true_iff. rewrite IH by done.
  destruct e; cbn in He |- *; try done.
Qed.

Lemma extends_side_clean ty s s' :
  extends sideEvent s s' -> clean ty (trace s) -> clean ty (trace s').
Proof.
  intros (t & E & Ht & _) Hc. rewrite E. apply clean_app; [done|].
  by apply side_clean.
Qed.

Lemma Step_clean it s o s' :
  Step (Some it) s o s' -> clean (toolType it) (trace s) ->
  match o with
  | OMismatch => armed (toolType it) s'
  | _ => clean (toolType it) (trace s')
  end.
Proof.
  intros [s1 Hi (E & _) | it' s1 [= <-] Hm (E & _ & Eh)
         | s1 o1 s2 (Hm & E & _) Hw] Hc.
  - by rewrite E.
  - split; [|by rewrite Eh]. rewrite E.
    apply settled_app; [by apply clean_settled|done].
  - assert (clean (toolType it) (trace s1)) as Hc1.
    { rewrite E. apply clean_app; [done|]. unfold clean. cbn.
      rewrite Hm. by rewrite bool_decide_eq_true_2. }
    destruct Hw as [ | s2 X | p sa sb s2 X1 (Eb & _) X2 ].
    + done.
    + by eapply extends_side_clean.
    + eapply extends_side_clean; [exact X2|]. rewrite Eb.
      apply clean_app; [|done]. by eapply extends_side_clean.
Qed.

Lemma Step_armed it s o s' :
  Step (Some it) s o s' -> armed (toolType it) s ->
  (o = OThrow \/ o = OMismatch) /\ armed (toolType it) s'.
Proof.
  intros [s1 Hi (E & _ & Eh) | it' s1 [= <-] Hm (E & _ & Eh)
         | s1 o1 s2 (Hm & _) Hw] [Hs Ha].
  - split; [by left|]. split; [by rewrite E | by rewrite Eh].
  - split; [by right|]. split; [|by rewrite Eh]. rewrite E.
    by apply settled_app.
  - done.
Qed.

Lemma armed_settled ty s : armed ty s -> settled ty (trace s).
Proof. by intros []. Qed.

Section ToolCheck.
Variable orc : Oracle.
Variable it : Tool.
#[local] Abbreviation ty := (toolType it).

Lemma tryFinally_settled (body : M unit) s :
  (forall r s', body s = (r, s') -> settled ty (trace s')) ->
  settled ty (trace (snd (tryFinally body (dropVeinLoot orc) s))).
Proof.
  intros Hb. unfold tryFinally.
  destruct (body s) as [r s1] eqn:E. specialize (Hb _ _ eq_refl).
  destruct (dropVeinLoot orc s1) as [r2 s2] eqn:E2.
  apply dropVeinLoot_events in E2 as [(t & Et & Ht & _) _].
  assert (settled ty (trace s2)).
  { rewrite Et. apply settled_app; [done|]. by apply spawn_no_break. }
  destruct r as [[]| |]; destruct r2 as [[]| |]; cbn; done.
Qed.

Lemma prologue_clean {X} (m : M X) s r s' :
  Ext sideEvent m -> m s = (r, s') -> clean ty (trace s) -> clean ty (trace s').
Proof.
  intros H E. apply (Ext_run _ _ _ _ _ H) in E as [E _].
  by apply extends_side_clean.
Qed.

Lemma floodLoop_settled eligibleType maxVein fuel : forall v s r s',
  clean ty (trace s) ->
  floodLoop orc fuel eligibleType (Some it) maxVein v s = (r, s') ->
  settled ty (trace s').
Proof.
  induction fuel as [|fuel IH]; intros v s r s' Hc.
  - rewrite floodLoop_0.
    destruct (_ && _); intros [= <- <-]; by apply clean_settled.
  - rewrite floodLoop_S. destruct (_ && _).
    2:{ intros [= <- <-]. by apply clean_settled. }
    unfold bind.
    destruct (floodIter orc eligibleType (Some it) v s) as [ri si] eqn:Ei.
    apply floodIter_step in Ei as (o & HS & HR).
    pose proof (Step_clean _ _ _ _ HS Hc) as Hc'.
    destruct o; cbn in HR.
    + subst ri. intros [= <- <-]. by apply clean_settled.
    + subst ri. intros [= <- <-]. by apply armed_settled.
    + destruct HR as (v' & -> & _). by apply IH.
    + destruct HR as [-> | [(v' & -> & _) | (v' & -> & _)]];
        try (intros [= <- <-]; by apply clean_settled).
      by apply IH.
    + destruct HR as [-> | (v' & -> & _)];
        try (intros [= <- <-]; by apply clean_settled).
      by apply IH.
Qed.

Lemma floodFill_settled eligibleType origin maxVein h :
  settled ty (trace (snd (floodFill orc eligibleType origin maxVein (Some it)
                                    (initSt h)))).
Proof.
  unfold floodFill. apply tryFinally_settled. intros r s'.
  unfold bind. destruct (call orc GetDimension (initSt h)) as [rc sc] eqn:Ec.
  apply (prologue_clean _ _ _ _ (Ext_call orc sideEvent GetDimension)) in Ec;
    [|done].
  destruct rc as [?| |]; try (intros [= <- <-]; by apply clean_settled).
  by apply floodLoop_settled.
Qed.

(** A pass that leaves its loop by [stop] on a mismatch and keeps the
    trace clean otherwise. *)
Lemma pass_settled {V} (stop : Flow) (v : V) res o s r s' :
  stop <> Next ->
  Step (Some it) s o s' -> passRes stop v res o r -> clean ty (trace s) ->
  match r with
  | Ok (Next, _) => clean ty (trace s')
  | _ => settled ty (trace s')
  end.
Proof.
  intros Hstop HS HR Hc. pose proof (Step_clean _ _ _ _ HS Hc) as Hc'.
  destruct o; cbn in HR.
  - subst r. by apply clean_settled.
  - subst r. destruct stop; try done; by apply armed_settled.
  - destruct r as [[[] ?]| |]; try done; by apply clean_settled.
  - destruct r as [[[] ?]| |]; try done; by apply clean_settled.
  - destruct r as [[[] ?]| |]; try done; by apply clean_settled.
Qed.

(** Loops that a mismatch leaves at once; [strict] loops have no
    [Break] in their body. *)
Lemma forEach_settled {A V} (strict : bool) (body : A -> V -> M (Flow * V)) :
  (forall a v s r s', clean ty (trace s) -> body a v s = (r, s') ->
     match r with
     | Ok (Next, _) => clean ty (trace s')
     | Ok (Break, _) => if strict then False else settled ty (trace s')
     | _ => settled ty (trace s')
     end) ->
  forall l v s r s', clean ty (trace s) -> forEach l body v s = (r, s') ->
    match r with
    | Ok (Next, _) =>
        if strict then clean ty (trace s') else settled ty (trace s')
    | Ok (Break, _) => False
    | _ => settled ty (trace s')
    end.
Proof.
  intros Hbody l v s r s' Hc E.
  eapply (forEach_inv
            (fun _ _ s => clean ty (trace s))
            (fun r s' => match r with
                         | Ok (Next, _) =>
                             if strict then clean ty (trace s')
                             else settled ty (trace s')
                         | Ok (Break, _) => False
                         | _ => settled ty (trace s')
                         end)); [ | | exact Hc | exact E].
  - intros a l' v' s1 r1 s1' HI Eb. specialize (Hbody _ _ _ _ _ HI Eb).
    destruct r1 as [[[] ?]| |]; try done.
    destruct strict; done.
  - intros v' s1 HI. destruct strict; [done|]. by apply clean_settled.
Qed.

Lemma lineIter_settled origin perm axis sgn d cont s r s' :
  clean ty (trace s) ->
  lineIter orc origin perm (Some it) axis sgn d cont s = (r, s') ->
  match r with
  | Ok (Next, _) => clean ty (trace s')
  | _ => settled ty (trace s')
  end.
Proof.
  intros Hc E. apply lineIter_step in E as (o & HS & HR).
  eapply (pass_settled Break cont (lineRes cont)); [done|exact HS|exact HR|exact Hc].
Qed.

Lemma smallIter_settled perm base off cont s r s' :
  clean ty (trace s) ->
  smallIter orc perm (Some it) base off cont s = (r, s') ->
  match r with
  | Ok (Next, _) => clean ty (trace s')
  | Ok (Break, _) => False
  | _ => settled ty (trace s')
  end.
Proof.
  intros Hc E. apply smallIter_step in E as (o & HS & HR).
  pose proof (Step_clean _ _ _ _ HS Hc) as Hc'.
  destruct o; cbn in HR.
  - subst r. by apply clean_settled.
  - subst r. by apply armed_settled.
  - by subst r.
  - destruct HR as [-> | ->]; by apply clean_settled.
  - destruct HR as [-> | [-> | ->]]; try done; by apply clean_settled.
Qed.

(** The prologue of the tunnel handlers keeps the trace clean. *)
Lemma tunnel_settled (loop : Axis -> Z -> Host -> M unit) h :
  (forall axis sgn h0 s r s', clean ty (trace s) ->
     loop axis sgn h0 s = (r, s') -> settled ty (trace s')) ->
  settled ty
    (trace (snd (tryFinally
                   (bind (call orc GetDimension) (fun _ =>
                    bind (getViewDirection orc) (fun v =>
                    let '(axis, stepSign) := aimAxis true v in
                    bind get (fun s => loop axis stepSign (host s)))))
                   (dropVeinLoot orc) (initSt h)))).
Proof.
  intros Hloop. apply tryFinally_settled. intros r s'.
  unfold bind at 1.
  destruct (call orc GetDimension (initSt h)) as [rc sc] eqn:Ec.
  apply (prologue_clean _ _ _ _ (Ext_call orc sideEvent GetDimension)) in Ec;
    [|done].
  destruct rc as [?| |]; try (intros [= <- <-]; by apply clean_settled).
  unfold bind at 1.
  destruct (getViewDirection orc sc) as [rv sv] eqn:Ev.
  apply (prologue_clean _ _ _ _ (Ext_getViewDirection orc)) in Ev; [|done].
  destruct rv as [v| |]; try (intros [= <- <-]; by apply clean_settled).
  destruct (aimAxis true v) as [axis sgn].
  unfold bind, get. by apply Hloop.
Qed.

Lemma lineTunnel_settled origin perm maxVein h :
  settled ty (trace (snd (lineTunnel orc origin perm maxVein (Some it)
                                     (initSt h)))).
Proof.
  apply (tunnel_settled
           (fun axis sgn _ =>
              bind (forEach (seqZ 0 maxVein)
                            (lineIter orc origin perm (Some it) axis sgn) 0)
                   (fun _ => ret tt))).
  intros axis sgn _ s r s' Hc. unfold bind.
  destruct (forEach _ _ _ s) as [rl sl] eqn:El.
  apply (forEach_settled false) in El; [|intros; by eapply lineIter_settled|done].
  destruct rl as [[[] ?]| |]; intros [= <- <-]; done.
Qed.

Lemma smallTunnel_settled origin perm maxVein h :
  settled ty (trace (snd (smallTunnel orc origin perm maxVein (Some it)
                                      (initSt h)))).
Proof.
  apply (tunnel_settled
           (fun axis sgn _ =>
              bind (forEach (seqZ 0 (maxVein / 2))
                            (smallSlice orc origin perm (Some it) axis sgn) 0)
                   (fun _ => ret tt))).
  intros axis sgn _ s r s' Hc. unfold bind.
  destruct (forEach _ _ _ s) as [rl sl] eqn:El.
  apply (forEach_settled false) in El; [| |done].
  - destruct rl as [[[] ?]| |]; intros [= <- <-]; done.
  - intros d c s0 r0 s0' Hc0 E0. unfold smallSlice in E0.
    apply (forEach_settled true) in E0;
      [|intros; by eapply smallIter_settled|done].
    destruct r0 as [[[] ?]| |]; done.
Qed.

(** In [largeTunnel] a mismatch leaves the inner loop only; the next
    slice starts with the same mainhand and leaves at its first pass. *)
Lemma largeIter_clean perm maxBlocks axis center o v s r s' :
  clean ty (trace s) ->
  largeIter orc perm (Some it) maxBlocks axis center o v s = (r, s') ->
  match r with
  | Ok (Next, _) => clean ty (trace s')
  | Ok (Break, _) => clean ty (trace s') \/ armed ty s'
  | _ => settled ty (trace s')
  end.
Proof.
  intros Hc E. apply largeIter_step in E as (oc & HS & HR).
  pose proof (Step_clean _ _ _ _ HS Hc) as Hc'.
  destruct oc; cbn in HR.
  - subst r. by apply clean_settled.
  - subst r. by right.
  - by subst r.
  - destruct HR as [-> | ->]; [by apply clean_settled | by left].
  - destruct HR as [-> | [-> | [[-> _] | [-> _]]]]; try done;
      by apply clean_settled.
Qed.

Lemma largeIter_armed perm maxBlocks axis center o v s r s' :
  armed ty s ->
  largeIter orc perm (Some it) maxBlocks axis center o v s = (r, s') ->
  (r = Throw \/ r = Ok (Break, v)) /\ armed ty s'.
Proof.
  intros Ha E. apply largeIter_step in E as (oc & HS & HR).
  destruct (Step_armed _ _ _ _ HS Ha) as [[-> | ->] Ha']; cbn in HR; subst r;
    split; auto.
Qed.

Lemma largeSlice_settled origin perm maxBlocks axis sgn d w s r s' :
  clean ty (trace s) \/ armed ty s ->
  largeSlice orc origin perm (Some it) maxBlocks axis sgn d w s = (r, s') ->
  match r with
  | Ok (Next, _) => clean ty (trace s') \/ armed ty s'
  | _ => settled ty (trace s')
  end.
Proof.
  destruct w as [[c b] outward]. intros Hs. unfold largeSlice, bind.
  destruct (forEach _ _ _ s) as [ri si] eqn:Ei.
  assert (forall x, clean ty (trace x) \/ armed ty x -> settled ty (trace x))
    as Hboth.
  { intros x [H|H]; [by apply clean_settled | by apply armed_settled]. }
  destruct Hs as [Hc | Ha].
  - eapply (forEach_inv
              (fun _ _ s => clean ty (trace s))
              (fun r s' => match r with
                           | Ok (Next, _) => clean ty (trace s') \/ armed ty s'
                           | Ok (Break, _) => False
                           | _ => settled ty (trace s')
                           end)) in Ei; [ | | | exact Hc].
    + destruct ri as [[[] v]| |]; try done; try (intros [= <- <-]; done).
      destruct (negb (foundInSlice v)); intros [= <- <-]; auto.
    + intros o l v s0 r0 s0' HI E0.
      eapply largeIter_clean in E0; [|exact HI].
      destruct r0 as [[[] ?]| |]; done.
    + intros v s0 HI. by left.
  - eapply (forEach_inv
              (fun _ v s => v = mkLarge c b false /\ armed ty s)
              (fun r s' => match r with
                           | Ok (Next, v) => v = mkLarge c b false /\ armed ty s'
                           | Throw => settled ty (trace s')
                           | _ => False
                           end)) in Ei; [ | | | split; [reflexivity|exact Ha]].
    + destruct ri as [[[] v]| |]; try done; try (intros [= <- <-]; done).
      destruct Ei as [-> Ha']. cbn. intros [= <- <-]. by apply armed_settled.
    + intros o l v s0 r0 s0' [-> HI] E0.
      eapply largeIter_armed in E0 as [[-> | ->] Ha']; [ | |exact HI].
      * by apply armed_settled.
      * done.
    + intros v s0 HI. done.
Qed.

Lemma largeTunnel_settled origin perm maxVein h :
  settled ty (trace (snd (largeTunnel orc origin perm maxVein (Some it)
                                      (initSt h)))).
Proof.
  apply (tunnel_settled
           (fun axis sgn h0 =>
              bind (forEach (largeDepths orc perm h0 axis origin (maxVein / 4))
                            (largeSlice orc origin perm (Some it) (maxVein * 2)
                                        axis sgn)
                            (0, 0, true))
                   (fun _ => ret tt))).
  intros axis sgn h0 s r s' Hc. unfold bind.
  destruct (forEach _ _ _ s) as [rl sl] eqn:El.
  eapply (forEach_inv
            (fun _ _ s => clean ty (trace s) \/ armed ty s)
            (fun _ s => settled ty (trace s))) in El; [ | | | by left].
  - destruct rl as [[[] ?]| |]; intros [= <- <-]; done.
  - intros d l w s0 r0 s0' HI E0.
    eapply largeSlice_settled in E0; [|exact HI].
    destruct r0 as [[[] ?]| |]; try done.
  - intros w s0 [H|H]; [by apply clean_settled | by apply armed_settled].
Qed.

End ToolCheck.

Lemma handler_settled (orc : Oracle) (sh : Shape) (origin : Pos)
    (brokenBlock : string) (maxVein : Z) (it : Tool) (h : Host) :
  settled (toolType it)
    (trace (snd (veinHandler orc sh origin brokenBlock maxVein (Some it)
                             (initSt h)))).
Proof.
  destruct sh; cbn [veinHandler].
  - apply floodFill_settled.
  - apply floodFill_settled.
  - apply floodFill_settled.
  - apply largeTunnel_settled.
  - apply smallTunnel_settled.
  - apply lineTunnel_settled.
Qed.

(** *** From a state in which the mainhand differs *)

Lemma onlyChecks_refl s : onlyChecks s s.
Proof. repeat split. exists []. by rewrite app_nil_r. Qed.

Lemma onlyChecks_trans s1 s2 s3 :
  onlyChecks s1 s2 -> onlyChecks s2 s3 -> onlyChecks s1 s3.
Proof.
  intros (Hh1 & Hl1 & t1 & E1 & H1) (Hh2 & Hl2 & t2 & E2 & H2).
  split; [congruence|]. split; [congruence|].
  exists (t1 ++ t2). rewrite E2, E1, <- app_assoc. split; [done|].
  rewrite forallb_app. by rewrite H1, H2.
Qed.

Section Mismatch.
Variable orc : Oracle.
Variable it : Tool.
#[local] Abbreviation differs s := (mainhand (host s) <> Some (toolType it)).

Lemma onlyChecks_differs s s' : onlyChecks s s' -> differs s -> differs s'.
Proof. intros (Hh & _) H. by rewrite Hh. Qed.

(** A pass that starts while the mainhand differs ends at its tool
    check: the read throws, or it finds the other type and the pass
    leaves by [stop]. *)
Lemma checked_mismatch {V} (stop : Flow) (v : V) (rest : M (Flow * V)) s r s' :
  differs s ->
  checked orc (Some it) stop v rest s = (r, s') ->
  onlyChecks s s' /\ (r = Throw \/ r = Ok (stop, v)).
Proof.
  intros Hd. unfold checked, bind.
  destruct (toolChanged_cases orc (Some it) s)
    as [[[=] _] | [(it' & s1 & [= <-] & -> & Hs) | (it' & s1 & [= <-] & -> & Hr)]].
  - intros [= <- <-]. split; [|by left].
    destruct Hs as (Et & El & Eh). repeat split; try done.
    exists []. by rewrite app_nil_r.
  - rewrite bool_decide_eq_false_2 by done. cbn. intros [= <- <-].
    split; [|by right].
    destruct Hr as (Et & El & Eh). repeat split; try done.
    by exists [EvGetEquipment (mainhand (host s))].
Qed.

(** A loop over a list whose passes only check the tool. *)
Lemma forEach_onlyChecks {X V} (body : X -> V -> M (Flow * V)) :
  (forall a v s r s', differs s -> body a v s = (r, s') -> onlyChecks s s') ->
  forall l v s r s', differs s -> forEach l body v s = (r, s') ->
                     onlyChecks s s'.
Proof.
  intros Hb l. induction l as [|a l IH]; intros v s r s' Hd; cbn.
  - intros [= <- <-]. apply onlyChecks_refl.
  - unfold bind. destruct (body a v s) as [rb sb] eqn:Eb.
    pose proof (Hb _ _ _ _ _ Hd Eb) as Hc.
    destruct rb as [[[] v']| |]; try (by intros [= <- <-]).
    intros E. eapply onlyChecks_trans; [exact Hc|].
    eapply IH; [|exact E]. by eapply onlyChecks_differs.
Qed.

Lemma floodLoop_onlyChecks eligibleType maxVein fuel : forall v s r s',
  differs s ->
  floodLoop orc fuel eligibleType (Some it) maxVein v s = (r, s') ->
  onlyChecks s s'.
Proof.
  induction fuel as [|fuel IH]; intros v s r s' Hd.
  - rewrite floodLoop_0.
    destruct (_ && _); intros [= <- <-]; apply onlyChecks_refl.
  - rewrite floodLoop_S. destruct (_ && _).
    2:{ intros [= <- <-]. apply onlyChecks_refl. }
    unfold bind.
    destruct (floodIter orc eligibleType (Some it) v s) as [ri si] eqn:Ei.
    apply checked_mismatch in Ei as [Hc Hr]; [|done].
    destruct Hr as [-> | ->]; by intros [= <- <-].
Qed.

Lemma lineLoop_onlyChecks origin perm axis sgn l cont s r s' :
  differs s ->
  forEach l (lineIter orc origin perm (Some it) axis sgn) cont s = (r, s') ->
  onlyChecks s s'.
Proof.
  apply forEach_onlyChecks. intros d c s0 r0 s0' Hd E.
  by apply checked_mismatch in E as [Hc _].
Qed.

Lemma smallInner_onlyChecks perm base l cont s r s' :
  differs s ->
  forEach l (smallIter orc perm (Some it) base) cont s = (r, s') ->
  onlyChecks s s'.
Proof.
  apply forEach_onlyChecks. intros d c s0 r0 s0' Hd E.
  by apply checked_mismatch in E as [Hc _].
Qed.

Lemma smallLoop_onlyChecks origin perm axis sgn l cont s r s' :
  differs s ->
  forEach l (smallSlice orc origin perm (Some it) axis sgn) cont s = (r, s') ->
  onlyChecks s s'.
Proof.
  apply forEach_onlyChecks. intros d c s0 r0 s0' Hd E.
  by eapply smallInner_onlyChecks.
Qed.

Lemma largeInner_onlyChecks perm maxBlocks axis center l v s r s' :
  differs s ->
  forEach l (largeIter orc perm (Some it) maxBlocks axis center) v s = (r, s') ->
  onlyChecks s s'.
Proof.
  apply forEach_onlyChecks. intros d c s0 r0 s0' Hd E.
  by apply checked_mismatch in E as [Hc _].
Qed.

Lemma largeLoop_onlyChecks origin perm maxBlocks axis sgn l w s r s' :
  differs s ->
  forEach l (largeSlice orc origin perm (Some it) maxBlocks axis sgn) w s
  = (r, s') ->
  onlyChecks s s'.
Proof.
  apply forEach_onlyChecks. intros d [[c b] outward] s0 r0 s0' Hd.
  unfold largeSlice, bind.
  destruct (forEach _ _ _ s0) as [ri si] eqn:Ei.
  apply largeInner_onlyChecks in Ei; [|done].
  destruct ri as [[[] v]| |]; try (by intros [= <- <-]);
    destruct (negb _); by intros [= <- <-].
Qed.

End Mismatch.

(** C4 (amended). In a run of any handler started with a tool, no block
    is handed to [breakBlock] after a tool check (the read of the
    mainhand that opens every pass) that found another type, or
    nothing, in the mainhand. And from any state in which the mainhand
    holds another type, or nothing, the loops of the handlers, taken up
    at any pass and with any value of their variables, do nothing but
    tool checks: they break no block and leave the host and the loot as
    they are. *)
Theorem no_break_after_tool_mismatch (orc : Oracle) (it : Tool) :
  (forall sh origin brokenBlock maxVein h t1 seen t2,
     trace (snd (veinHandler orc sh origin brokenBlock maxVein (Some it)
                             (initSt h)))
     = t1 ++ EvGetEquipment seen :: t2 ->
     seen <> Some (toolType it) ->
     blocksBroken t2 = 0)
  /\ (forall s,
        mainhand (host s) <> Some (toolType it) ->
        (forall fuel eligibleType maxVein v,
           onlyChecks s (snd (floodLoop orc fuel eligibleType (Some it)
                                        maxVein v s)))
        /\ (forall origin perm axis stepSign depths cont,
              onlyChecks s
                (snd (forEach depths
                              (lineIter orc origin perm (Some it) axis stepSign)
                              cont s)))
        /\ (forall origin perm axis stepSign depths cont,
              onlyChecks s
                (snd (forEach depths
                              (smallSlice orc origin perm (Some it) axis
                                          stepSign)
                              cont s)))
        /\ (forall perm base offsets cont,
              onlyChecks s
                (snd (forEach offsets (smallIter orc perm (Some it) base)
                              cont s)))
        /\ (forall origin perm maxBlocks axis stepSign depths w,
              onlyChecks s
                (snd (forEach depths
                              (largeSlice orc origin perm (Some it) maxBlocks
                                          axis stepSign)
                              w s)))
        /\ (forall perm maxBlocks axis sliceCenter cells v,
              onlyChecks s
                (snd (forEach cells
                              (largeIter orc perm (Some it) maxBlocks axis
                                         sliceCenter)
                              v s)))).
Proof.
  split.
  - intros sh origin brokenBlock maxVein h t1 seen t2 E Hm.
    exact (handler_settled orc sh origin brokenBlock maxVein it h _ _ _ E Hm).
  - intros s Hd. split; [|split; [|split; [|split; [|split]]]]; intros.
    + destruct (floodLoop _ _ _ _ _ _ s) as [r s'] eqn:E.
      by eapply floodLoop_onlyChecks.
    + destruct (forEach _ _ _ s) as [r s'] eqn:E.
      by eapply lineLoop_onlyChecks.
    + destruct (forEach _ _ _ s) as [r s'] eqn:E.
      by eapply smallLoop_onlyChecks.
    + destruct (forEach _ _ _ s) as [r s'] eqn:E.
      by eapply smallInner_onlyChecks.
    + destruct (forEach _ _ _ s) as [r s'] eqn:E.
      by eapply largeLoop_onlyChecks.
    + destruct (forEach _ _ _ s) as [r s'] eqn:E.
      by eapply largeInner_onlyChecks.
Qed.

(** ** Emission of the loot *)

(** *** The body of a handler spawns nothing *)

Lemma side_is_body e : sideEvent e = true -> bodyEvent e = true.
Proof. by destruct e. Qed.

Lemma extends_same s s' : same s s' -> extends bodyEvent s s'.
Proof.
  intros (Et & El & _). exists []. rewrite app_nil_r. by rewrite El.
Qed.

Lemma extends_read s s' : readEquipment s s' -> extends bodyEvent s s'.
Proof. intros (Et & El & _). eexists [_]. rewrite Et, El. done. Qed.

Lemma extends_passed item s s' : passed item s s' -> extends bodyEvent s s'.
Proof.
  destruct item; cbn.
  - intros [_ H]. by apply extends_read.
  - intros ->. apply extends_refl.
Qed.

Lemma extends_entered p s s' : entered p s s' -> extends bodyEvent s s'.
Proof. intros (Et & El). eexists [_]. rewrite Et, El. done. Qed.

Lemma Step_extends item s o s' : Step item s o s' -> extends bodyEvent s s'.
Proof.
  intros [s1 _ H | it s1 _ _ H | s1 o1 s2 Hp Hw].
  - by apply extends_same.
  - by apply extends_read.
  - eapply extends_trans; [by eapply extends_passed|].
    destruct Hw as [ | s2 X | p sa sb s2 X1 B X2 ].
    + apply extends_refl.
    + eapply extends_weaken; [apply side_is_body | exact X].
    + eapply extends_trans;
        [eapply extends_weaken; [apply side_is_body | exact X1]|].
      eapply extends_trans; [by eapply extends_entered|].
      eapply extends_weaken; [apply side_is_body | exact X2].
Qed.

Lemma body_no_spawn t : forallb bodyEvent t = true -> spawned t = [].
Proof.
  unfold spawned. induction t as [|e t IH]; [done|].
  cbn [forallb]. intros [He Ht]%andb_true_iff. cbn. rewrite IH by done.
  by destruct e.
Qed.

Lemma spawned_app t u : spawned (t ++ u) = spawned t ++ spawned u.
Proof. unfold spawned. apply flat_map_app. Qed.

Lemma generated_spawnEvents l : generated (spawnEvents l) = [].
Proof. unfold generated, spawnEvents. induction l as [|[] l IH]; done. Qed.

Section Body.
Variable orc : Oracle.

(** A loop whose passes extend the state by body events and do not get
    stuck does so too. *)
Lemma forEach_extends {A V} (body : A -> V -> M (Flow * V)) :
  (forall a v s r s', body a v s = (r, s') ->
     extends bodyEvent s s' /\ r <> Stuck) ->
  forall l v s r s', forEach l body v s = (r, s') ->
    extends bodyEvent s s' /\ r <> Stuck.
Proof.
  intros Hbody l v s r s' E.
  eapply (forEach_inv
            (fun _ _ s1 => extends bodyEvent s s1)
            (fun r s1 => extends bodyEvent s s1 /\ r <> Stuck));
    [ | | apply extends_refl | exact E].
  - intros a l' v' s1 r1 s1' HI Eb. apply Hbody in Eb as [Hx Hn].
    assert (extends bodyEvent s s1') by (eapply extends_trans; eauto).
    destruct r1 as [[[] ?]| |]; done.
  - done.
Qed.

Lemma floodIter_extends eligibleType item v s r s' :
  floodIter orc eligibleType item v s = (r, s') ->
  extends bodyEvent s s' /\ r <> Stuck.
Proof.
  intros (o & HS & HR)%floodIter_step. split; [by eapply Step_extends|].
  destruct o; cbn in HR; intros ->; try done.
  - by destruct HR as (? & ? & _).
  - destruct HR as [? | [(? & ? & _) | (? & ? & _)]]; done.
  - destruct HR as [? | (? & ? & _)]; done.
Qed.

Lemma lineIter_extends origin perm item axis sgn d cont s r s' :
  lineIter orc origin perm item axis sgn d cont s = (r, s') ->
  extends bodyEvent s s' /\ r <> Stuck.
Proof.
  intros (o & HS & HR)%lineIter_step. split; [by eapply Step_extends|].
  destruct o; cbn in HR; intros ->; try done.
  - by destruct HR.
  - by destruct HR as [? | [? | ?]].
Qed.

Lemma smallIter_extends perm item base off cont s r s' :
  smallIter orc perm item base off cont s = (r, s') ->
  extends bodyEvent s s' /\ r <> Stuck.
Proof.
  intros (o & HS & HR)%smallIter_step. split; [by eapply Step_extends|].
  destruct o; cbn in HR; intros ->; try done.
  - by destruct HR.
  - by destruct HR as [? | [? | ?]].
Qed.

Lemma largeIter_extends perm item maxBlocks axis center o' v s r s' :
  largeIter orc perm item maxBlocks axis center o' v s = (r, s') ->
  extends bodyEvent s s' /\ r <> Stuck.
Proof.
  intros (o & HS & HR)%largeIter_step. split; [by eapply Step_extends|].
  destruct o; cbn in HR; intros ->; try done.
  - by destruct HR.
  - by destruct HR as [? | [? | [[? _] | [? _]]]].
Qed.

Lemma largeSlice_extends origin perm item maxBlocks axis sgn d w s r s' :
  largeSlice orc origin perm item maxBlocks axis sgn d w s = (r, s') ->
  extends bodyEvent s s' /\ r <> Stuck.
Proof.
  destruct w as [[c b] outward]. unfold largeSlice, bind.
  destruct (forEach _ _ _ s) as [ri si] eqn:Ei.
  apply forEach_extends in Ei as [Hx Hn]; [|apply largeIter_extends].
  destruct ri as [[[] v]| |]; try done;
    try destruct (negb (foundInSlice v)); by intros [= <- <-].
Qed.

(** The flood loop: what it does to the state, and that its fuel is
    enough. *)
Lemma floodLoop_extends eligibleType item maxVein fuel : forall v s r s',
  floodLoop orc fuel eligibleType item maxVein v s = (r, s') ->
  extends bodyEvent s s'.
Proof.
  induction fuel as [|fuel IH]; intros v s r s'.
  - rewrite floodLoop_0. destruct (_ && _); intros [= <- <-]; apply extends_refl.
  - rewrite floodLoop_S. destruct (_ && _).
    2:{ intros [= <- <-]. apply extends_refl. }
    unfold bind.
    destruct (floodIter orc eligibleType item v s) as [ri si] eqn:Ei.
    apply floodIter_extends in Ei as [Hx Hn].
    destruct ri as [[[] v']| |]; try (by intros [= <- <-]).
    intros E. eapply extends_trans; [exact Hx|]. by eapply IH.
Qed.

Lemma floodLoop_terminates eligibleType item maxVein fuel : forall v s r s',
  (26 * Z.to_nat (maxVein - cont v) + length (toCheck v) < fuel)%nat ->
  floodLoop orc fuel eligibleType item maxVein v s = (r, s') ->
  r <> Stuck.
Proof.
  induction fuel as [|fuel IH]; intros v s r s' Hf; [lia|].
  rewrite floodLoop_S.
  destruct ((0 <? length (toCheck v))%nat && (cont v <? maxVein)) eqn:G.
  2:{ by intros [= <- <-]. }
  apply andb_true_iff in G as [_ G]. apply Z.ltb_lt in G.
  unfold bind.
  destruct (floodIter orc eligibleType item v s) as [ri si] eqn:Ei.
  apply floodIter_step in Ei as (o & _ & HR).
  destruct o; cbn in HR.
  - subst ri. by intros [= <- <-].
  - subst ri. by intros [= <- <-].
  - destruct HR as (v' & -> & Hc & Hl). apply IH. rewrite Hc. lia.
  - destruct HR as [-> | [(v' & -> & _) | (v' & -> & Hc & Hl)]];
      try (by intros [= <- <-]).
    apply IH. rewrite Hc, Hl.
    replace (maxVein - (cont v + 1)) with (maxVein - cont v - 1) by lia.
    rewrite Z2Nat.inj_sub by lia. lia.
  - destruct HR as [-> | (v' & -> & Hc & Hl)]; try (by intros [= <- <-]).
    apply IH. rewrite Hc, Hl.
    replace (maxVein - (cont v + 1)) with (maxVein - cont v - 1) by lia.
    rewrite Z2Nat.inj_sub by lia. lia.
Qed.

Lemma floodFill_body eligibleType origin maxVein item s r s' :
  bind (call orc GetDimension)
       (fun _ => floodLoop orc (floodFuel maxVein) eligibleType item maxVein
                           (mkFlood [origin] ∅ 0)) s = (r, s') ->
  extends bodyEvent s s' /\ r <> Stuck.
Proof.
  unfold bind. destruct (call orc GetDimension s) as [rc sc] eqn:Ec.
  apply (Ext_run bodyEvent) in Ec as [Hx Hn]; [|apply Ext_call].
  destruct rc as [?| |]; try (by intros [= <- <-]).
  intros E. split.
  - eapply extends_trans; [exact Hx|]. by eapply floodLoop_extends.
  - eapply floodLoop_terminates; [|exact E]. cbn. unfold floodFuel.
    rewrite Z.sub_0_r. lia.
Qed.

Lemma tunnel_body (loop : Axis -> Z -> Host -> M unit) s r s' :
  (forall axis sgn h0 s r s', loop axis sgn h0 s = (r, s') ->
     extends bodyEvent s s' /\ r <> Stuck) ->
  bind (call orc GetDimension) (fun _ =>
  bind (getViewDirection orc) (fun v =>
  let '(axis, stepSign) := aimAxis true v in
  bind get (fun s => loop axis stepSign (host s)))) s = (r, s') ->
  extends bodyEvent s s' /\ r <> Stuck.
Proof.
  intros Hloop. unfold bind at 1.
  destruct (call orc GetDimension s) as [rc sc] eqn:Ec.
  apply (Ext_run bodyEvent) in Ec as [Hx Hn]; [|apply Ext_call].
  destruct rc as [?| |]; try (by intros [= <- <-]).
  unfold bind at 1.
  destruct (getViewDirection orc sc) as [rv sv] eqn:Ev.
  apply (Ext_run sideEvent) in Ev as [Hx2 Hn2]; [|apply Ext_getViewDirection].
  apply (extends_weaken _ bodyEvent) in Hx2; [|apply side_is_body].
  assert (extends bodyEvent s sv) by (eapply extends_trans; eauto).
  destruct rv as [v| |]; try (by intros [= <- <-]).
  destruct (aimAxis true v) as [axis sgn].
  unfold bind, get. intros [Hx3 Hn3]%Hloop. split; [|done].
  eapply extends_trans; eauto.
Qed.

Lemma loop_then_done {V} (loop : M (Flow * V)) s r s' :
  (forall s r s', loop s = (r, s') -> extends bodyEvent s s' /\ r <> Stuck) ->
  bind loop (fun _ => ret tt) s = (r, s') ->
  extends bodyEvent s s' /\ r <> Stuck.
Proof.
  intros Hloop. unfold bind. destruct (loop s) as [rl sl] eqn:El.
  apply Hloop in El as [Hx Hn].
  destruct rl as [?| |]; by intros [= <- <-].
Qed.

(** What the body leaves for the emission, and what the emission does. *)
Lemma emitted_once (body : M unit) h :
  noSpawnFaults orc ->
  (forall s r s', body s = (r, s') -> extends bodyEvent s s' /\ r <> Stuck) ->
  let r := tryFinally body (dropVeinLoot orc) (initSt h) in
  (fst r = Ok tt \/ fst r = Throw)
  /\ spawned (trace (snd r)) = stacksOf (addAll [] (generated (trace (snd r)))).
Proof.
  intros Hq Hbody. unfold tryFinally.
  destruct (body (initSt h)) as [r1 s1] eqn:E1.
  apply Hbody in E1 as [(t & Et & Ht & El) Hn]. cbn in Et, El.
  destruct (dropVeinLoot_run orc Hq s1) as [c Hc]. rewrite Hc.
  assert (spawned (trace s1 ++ spawnEvents (stacksOf (loot s1)))
          = stacksOf (addAll []
              (generated (trace s1 ++ spawnEvents (stacksOf (loot s1))))))
    as Hfin.
  { rewrite spawned_app, generated_app, generated_spawnEvents, app_nil_r.
    rewrite spawned_spawnEvents, Et, (body_no_spawn t) by done.
    by rewrite El. }
  destruct r1 as [[]| |]; cbn; try done; auto.
Qed.

End Body.

(** C1. A run of any handler ends normally or by a fault, and in both
    cases the stacks it has spawned are those of exactly one emission of
    the loot generated during the run: the body spawns nothing, and the
    emission follows every exit of the body. The host's [spawnItem] is
    taken not to throw. *)
Theorem loot_emitted_exactly_once (orc : Oracle) (sh : Shape) (origin : Pos)
    (brokenBlock : string) (maxVein : Z) (item : option Tool) (h : Host) :
  noSpawnFaults orc ->
  let r := veinHandler orc sh origin brokenBlock maxVein item (initSt h) in
  (fst r = Ok tt \/ fst r = Throw)
  /\ spawned (trace (snd r)) = stacksOf (addAll [] (generated (trace (snd r)))).
Proof.
  intros Hq. destruct sh; cbn [veinHandler].
  - apply emitted_once; [done|]. intros s r s'. apply floodFill_body.
  - apply emitted_once; [done|]. intros s r s'. apply floodFill_body.
  - apply emitted_once; [done|]. intros s r s'. apply floodFill_body.
  - apply emitted_once; [done|]. intros s r s'.
    apply (tunnel_body orc
             (fun axis sgn h0 =>
                bind (forEach (largeDepths orc brokenBlock h0 axis origin
                                           (maxVein / 4))
                              (largeSlice orc origin brokenBlock item
                                          (maxVein * 2) axis sgn)
                              (0, 0, true))
                     (fun _ => ret tt))).
    intros axis sgn h0 s0 r0 s0'. apply loop_then_done.
    intros s1 r1 s1'. apply forEach_extends. intros d w s2 r2 s2'.
    apply largeSlice_extends.
  - apply emitted_once; [done|]. intros s r s'.
    apply (tunnel_body orc
             (fun axis sgn _ =>
                bind (forEach (seqZ 0 (maxVein / 2))
                              (smallSlice orc origin brokenBlock item axis sgn)
                              0)
                     (fun _ => ret tt))).
    intros axis sgn _ s0 r0 s0'. apply loop_then_done.
    intros s1 r1 s1'. apply forEach_extends. intros d c s2 r2 s2'.
    unfold smallSlice. apply forEach_extends. intros off c' s3 r3 s3'.
    apply smallIter_extends.
  - apply emitted_once; [done|]. intros s r s'.
    apply (tunnel_body orc
             (fun axis sgn _ =>
                bind (forEach (seqZ 0 maxVein)
                              (lineIter orc origin brokenBlock item axis sgn) 0)
                     (fun _ => ret tt))).
    intros axis sgn _ s0 r0 s0'. apply loop_then_done.
    intros s1 r1 s1'. apply forEach_extends. intros d c s2 r2 s2'.
    apply lineIter_extends.
Qed.

(** ** Candidates that do not resolve *)

(** *** Positions that do not resolve *)

Lemma checked_skips {V} orc (counter : V -> Z) item stop (v v' : V)
    (rest : M (Flow * V)) s :
  counter v' = counter v ->
  (forall s1, host s1 = host s -> rest s1 = (Ok (Next, v'), s1)) ->
  skips orc counter item v s (checked orc item stop v rest s).
Proof.
  intros Hc Hrest. unfold skips, checked, bind.
  destruct (toolChanged_cases orc item s)
    as [[-> H] | [(it & s1 & -> & H & Hs) | (it & s1 & -> & H & Hr)]];
    rewrite H; clear H.
  - rewrite Hrest by done. cbn. repeat split; auto.
    exists []. by rewrite app_nil_r.
  - destruct Hs as (Et & El & Eh). cbn. repeat split; auto.
    exists []. by rewrite app_nil_r.
  - destruct Hr as (Et & El & Eh).
    destruct (negb _) eqn:Eb; [|rewrite Hrest by done]; cbn;
      repeat split; eauto.
Qed.

Lemma unresolved_getBlock orc perm h p :
  unresolved h p -> getBlock orc true perm h p = None.
Proof. unfold unresolved, getBlock. by destruct (blockAt h p). Qed.

Lemma unresolved_target h p :
  unresolved h p ->
  match blockAt h p with QBlock b => Some b | _ => None end = None.
Proof. unfold unresolved. by destruct (blockAt h p). Qed.

(** C9 (amended). A candidate position whose block does not resolve is
    skipped without a fault of its own and without being counted: the
    step counter, the host (tool, hunger, saturation) and the loot stay
    as they were. This holds in the three tunnel handlers, and in the
    flood-fill handlers for every position but the first one taken from
    the queue. *)
Theorem unresolved_candidate_is_skipped (orc : Oracle) (item : option Tool)
    (s : St) :
  (forall eligibleType v pos rest,
     toCheck v = pos :: rest -> visited v <> ∅ -> unresolved (host s) pos ->
     skips orc cont item v s (floodIter orc eligibleType item v s))
  /\ (forall origin perm axis stepSign d cont0,
        unresolved (host s) (advance axis origin (d * stepSign)) ->
        skips orc id item cont0 s
              (lineIter orc origin perm item axis stepSign d cont0 s))
  /\ (forall perm base off cont0,
        unresolved (host s) (offset base off) ->
        skips orc id item cont0 s (smallIter orc perm item base off cont0 s))
  /\ (forall perm maxBlocks axis sliceCenter o v,
        unresolved (host s) (sliceCell axis sliceCenter o) ->
        skips orc lcont item v s
              (largeIter orc perm item maxBlocks axis sliceCenter o v s)).
Proof.
  split; [|split; [|split]].
  - intros eligibleType v pos rest Eq Hne Hu. unfold floodIter.
    destruct (decide (pos ∈ visited v)) as [Hin|Hin].
    + apply (checked_skips _ _ _ _ _ (mkFlood rest (visited v) (cont v)));
        [done|].
      intros s1 _. unfold floodRest. rewrite Eq.
      by destruct (decide (pos ∈ visited v)).
    + apply (checked_skips _ _ _ _ _
               (mkFlood rest ({[pos]} ∪ visited v) (cont v))); [done|].
      intros s1 Eh. unfold floodRest. rewrite Eq.
      destruct (decide (pos ∈ visited v)); [done|].
      cbn zeta. unfold bind, getBlockOrUndefined, bind, get, ret.
      rewrite Eh, (unresolved_target _ _ Hu).
      assert ((size ({[pos]} ∪ visited v) =? 1)%nat = false) as ->; [|done].
      apply Nat.eqb_neq. rewrite size_union by set_solver.
      rewrite size_singleton.
      assert (size (visited v) <> 0%nat); [|lia].
      intros Hz. apply Hne. apply leibniz_equiv. by apply size_empty_iff.
  - intros origin perm axis sgn d c Hu. unfold lineIter.
    apply (checked_skips _ _ _ _ _ c); [done|].
    intros s1 Eh. unfold lineRest, bind, getBlockNow, bind, get, ret.
    by rewrite Eh, (unresolved_getBlock _ _ _ _ Hu).
  - intros perm base off c Hu. unfold smallIter.
    apply (checked_skips _ _ _ _ _ c); [done|].
    intros s1 Eh. unfold smallRest, bind, getBlockNow, bind, get, ret.
    by rewrite Eh, (unresolved_getBlock _ _ _ _ Hu).
  - intros perm maxBlocks axis center o v Hu. unfold largeIter.
    apply (checked_skips _ _ _ _ _ v); [done|].
    intros s1 Eh. unfold largeRest, bind, getBlockNow, bind, get, ret.
    by rewrite Eh, (unresolved_getBlock _ _ _ _ Hu).
Qed.

(** ** Worked runs *)

Lemma calm_noFaults : noFaults calm.
Proof. intros a n. reflexivity. Qed.

Lemma calm_noSpawnFaults : noSpawnFaults calm.
Proof. intros n. reflexivity. Qed.

(** C1, at a shapeless run of budget 5 in stone. *)
Lemma loot_emitted_exactly_once_witness :
  noSpawnFaults calm
  /\ let r := veinHandler calm ShapelessVein origin "minecraft:stone" 5
                          (Some pick) (initSt (player stoneWorld 20 5)) in
     (fst r = Ok tt \/ fst r = Throw)
     /\ spawned (trace (snd r))
        = stacksOf (addAll [] (generated (trace (snd r)))).
Proof.
  split; [exact calm_noSpawnFaults|].
  exact (loot_emitted_exactly_once calm ShapelessVein origin "minecraft:stone"
           5 (Some pick) (player stoneWorld 20 5) calm_noSpawnFaults).
Defined.

(** C2, at 100 + 30 cobblestone and one coal: stacks of 64, 64 and 2. *)
Lemma emission_splits_into_stacks_witness :
  noSpawnFaults calm
  /\ Forall (fun d => 1 <= default 1 (amount d)) mixedDrops
  /\ let r := dropVeinLoot calm
                (mkSt (player stoneWorld 20 5) 0 0 [] (addAll [] mixedDrops)) in
     let sizes := stackSizes "minecraft:cobblestone"
                    (spawned (skipn (length (@nil Event)) (trace (snd r)))) in
     fst r = Ok tt
     /\ Forall (fun n => 1 <= n <= 64) sizes
     /\ sumZ sizes = totalAdded "minecraft:cobblestone" mixedDrops
     /\ (In "minecraft:cobblestone" (map typeId mixedDrops) -> sizes <> []).
Proof.
  assert (Forall (fun d => 1 <= default 1 (amount d)) mixedDrops) as H.
  { repeat constructor; cbn; lia. }
  split; [exact calm_noSpawnFaults|]. split; [exact H|].
  exact (emission_splits_into_stacks calm (player stoneWorld 20 5) 0 0 []
           mixedDrops "minecraft:cobblestone" calm_noSpawnFaults H).
Defined.

(** C3 (amended), at the default budget of 64 for the large tunnel. *)
Lemma broken_blocks_within_budget_witness :
  1 <= 64
  /\ blocksBroken
       (trace (snd (veinHandler calm LargeTunnel origin "minecraft:stone" 64
                                (Some pick) (initSt (player stoneWorld 20 5)))))
     <= 2 * 64 - 1.
Proof.
  assert (1 <= 64) as H by lia.
  split; [exact H|].
  exact (broken_blocks_within_budget calm LargeTunnel origin "minecraft:stone"
           64 (Some pick) (player stoneWorld 20 5) H).
Defined.

(** C3 as stated fails: a large tunnel of budget 2 breaks 3 blocks. *)
Lemma large_tunnel_exceeds_budget :
  1 <= 2
  /\ blocksBroken
       (trace (snd (veinHandler calm LargeTunnel origin "minecraft:stone" 2
                                (Some pick) (initSt (player stoneWorld 20 5)))))
     = 3
  /\ ~ (blocksBroken
          (trace (snd (veinHandler calm LargeTunnel origin "minecraft:stone" 2
                                   (Some pick)
                                   (initSt (player stoneWorld 20 5)))))
        <= 2).
Proof.
  assert (blocksBroken
            (trace (snd (veinHandler calm LargeTunnel origin "minecraft:stone"
                                     2 (Some pick)
                                     (initSt (player stoneWorld 20 5)))))
          = 3) as E by (vm_compute; reflexivity).
  split; [lia|]. split; [exact E|]. rewrite E. lia.
Qed.

(** C4 as stated fails: the durability step of a pass comes after its
    tool check, so when the tool breaks there and the code empties the
    mainhand, the block of that pass is still handed to [breakBlock]. *)
Lemma worn_out_tool_still_breaks_its_block :
  let s := initSt (player solidWorld 20 5) in
  mainhand (host s) = Some (toolType pick)
  /\ mainhand (host (snd (wear brittle (Some pick) s))) = None
  /\ wornRun LineTunnel
     = [ EvGetEquipment (Some "minecraft:iron_pickaxe"%string);
         EvDamage false;
         EvSetEquipment None;
         EvPlaySound "random.break";
         EvBreakBlock origin;
         EvGenerateLoot origin [mkStack "minecraft:stone" (Some 1)];
         EvCommand (FillAir origin);
         EvWaitTicks;
         EvGetEquipment None;
         EvSpawnItem "minecraft:stone" 1 ]
  /\ forall sh,
       firstn 3 (wornRun sh)
       = [ EvGetEquipment (Some "minecraft:iron_pickaxe"%string);
           EvDamage false;
           EvSetEquipment None ]
       /\ blocksBroken (skipn 3 (wornRun sh)) = 1
       /\ ~ blocksBroken (skipn 3 (wornRun sh)) = 0.
Proof.
  cbv zeta. split; [reflexivity|]. split; [vm_compute; reflexivity|].
  split; [vm_compute; reflexivity|].
  intros sh.
  assert (blocksBroken (skipn 3 (wornRun sh)) = 1) as E
    by (destruct sh; vm_compute; reflexivity).
  split; [destruct sh; vm_compute; reflexivity|].
  split; [exact E|]. rewrite E. lia.
Qed.

(** C4 (amended), at a line tunnel during which the player swaps the
    tool, and at a flood fill taken up with dirt in the mainhand. *)
Lemma no_break_after_tool_mismatch_witness :
  (trace (snd (veinHandler swapping LineTunnel origin "minecraft:stone" 5
                           (Some pick) (initSt (player solidWorld 20 5))))
   = swapBefore ++ EvGetEquipment (Some "minecraft:dirt") :: swapAfter
   /\ Some "minecraft:dirt" <> Some (toolType pick)
   /\ blocksBroken swapBefore = 2
   /\ blocksBroken swapAfter = 0)
  /\ (mainhand (host dirtInHand) <> Some (toolType pick)
      /\ onlyChecks dirtInHand
           (snd (floodLoop calm (floodFuel 64)
                           (fun typeId => String.eqb typeId "minecraft:stone")
                           (Some pick) 64 (mkFlood [origin] ∅ 0) dirtInHand))).
Proof.
  assert (trace (snd (veinHandler swapping LineTunnel origin "minecraft:stone"
                                  5 (Some pick)
                                  (initSt (player solidWorld 20 5))))
          = swapBefore ++ EvGetEquipment (Some "minecraft:dirt") :: swapAfter)
    as E by (vm_compute; reflexivity).
  assert (Some "minecraft:dirt" <> Some (toolType pick)) as N by discriminate.
  assert (mainhand (host dirtInHand) <> Some (toolType pick)) as D
    by discriminate.
  split.
  - split; [exact E|]. split; [exact N|]. split; [vm_compute; reflexivity|].
    exact (proj1 (no_break_after_tool_mismatch swapping pick) LineTunnel origin
             "minecraft:stone" 5 (player solidWorld 20 5) swapBefore
             (Some "minecraft:dirt") swapAfter E N).
  - split; [exact D|].
    exact (proj1 (proj2 (no_break_after_tool_mismatch calm pick) dirtInHand D)
             (floodFuel 64) (fun typeId => String.eqb typeId "minecraft:stone")
             64 (mkFlood [origin] ∅ 0)).
Defined.

(** C5 fails in [largeTunnel]: with both reserves at 0 the penalty is
    applied twice, once in the slice of the eleventh eligible block and
    once more at the first block of the next slice. *)
Lemma large_tunnel_applies_nausea_twice :
  let h := player stoneWorld 0 0 in
  let r := veinHandler calm LargeTunnel origin "minecraft:stone" 8 (Some pick)
                       (initSt h) in
  hunger h = Some 0%Q /\ saturation h = Some 0%Q
  /\ noConsumeSaturation h = false
  /\ fst r = Ok tt
  /\ blocksBroken (trace (snd r)) = 10
  /\ nauseaCount (trace (snd r)) = 2
  /\ damageCount (trace (snd r)) = 12.
Proof. vm_compute. repeat split. Qed.

(** The same defect at the default budget, from one hunger point. *)
Example large_tunnel_nausea_twice_default_budget :
  let r := veinHandler calm LargeTunnel origin "minecraft:stone" 64 (Some pick)
                       (initSt (player stoneWorld 1 0)) in
  blocksBroken (trace (snd r)) = 20 /\ nauseaCount (trace (snd r)) = 2.
Proof. vm_compute. repeat split. Qed.

(** The other handlers stop at the first penalty. *)
Example other_handlers_apply_nausea_once :
  let result sh := veinHandler calm sh origin "minecraft:stone" 64 (Some pick)
                            (initSt (player stoneWorld 0 0)) in
  nauseaCount (trace (snd (result ShapelessVein))) = 1
  /\ nauseaCount (trace (snd (result SmallTunnel))) = 1
  /\ nauseaCount (trace (snd (result LineTunnel))) = 1
  /\ blocksBroken (trace (snd (result ShapelessVein))) = 10
  /\ blocksBroken (trace (snd (result SmallTunnel))) = 10
  /\ blocksBroken (trace (snd (result LineTunnel))) = 10.
Proof. vm_compute. repeat split. Qed.

(** C6, at the eleventh step of a player with both reserves at 0. *)
Lemma hunger_governor_decision_witness :
  noFaults calm
  /\ let s := initSt (player stoneWorld 0 0) in
     let r := hungerGate calm 10 s in
     forall hv sv,
       hunger (host s) = Some hv -> saturation (host s) = Some sv ->
       if Qle_bool 0 (sv - 1) then
         fst r = Ok false /\ host (snd r) = withSaturation (host s) (sv - 1)
       else if Qle_bool 0 (hv - 1) then
         fst r = Ok false /\ host (snd r) = withHunger (host s) (hv - 1)
       else
         fst r = Ok true /\ host (snd r) = host s
         /\ trace (snd r) = trace s ++ [EvAddEffect "nausea" 200].
Proof.
  split; [exact calm_noFaults|].
  exact (hunger_governor_decision calm (initSt (player stoneWorld 0 0)) 10
           calm_noFaults).
Defined.

(** C7 as stated fails: a leading slice with one eligible block out of
    nine is not fully solid, and the depth loop still starts at 0. *)
Lemma partly_solid_leading_slice_is_kept :
  let h := player thinWorld 20 5 in
  forallb (cellSolid calm "minecraft:stone" h AxisX origin) orderOut = false
  /\ existsb (cellSolid calm "minecraft:stone" h AxisX origin) orderOut = true
  /\ sliceStart calm "minecraft:stone" h AxisX origin = 0
  /\ largeDepths calm "minecraft:stone" h AxisX origin 16 = seqZ 0 17
  /\ blocksBroken
       (trace (snd (veinHandler calm LargeTunnel origin "minecraft:stone" 64
                                (Some pick) (initSt h)))) = 1.
Proof. vm_compute. repeat split. Qed.

(** C9 as stated fails at the first position of a flood fill: it is
    counted as a step and wears the tool although it does not resolve. *)
Lemma unresolved_origin_counts_as_step :
  let s := initSt (player unloadedWorld 20 5) in
  let v := mkFlood [origin] ∅ 0 in
  let r := floodIter calm (fun typeId => String.eqb typeId "minecraft:stone")
                     (Some pick) v s in
  unresolved (host s) origin
  /\ (exists v', fst r = Ok (Next, v') /\ cont v = 0 /\ cont v' = 1)
  /\ damageCount (trace (snd r)) = 1
  /\ ~ skips calm cont (Some pick) v s r.
Proof.
  cbv zeta. split; [exact I|]. split.
  { eexists. vm_compute. repeat split. }
  split; [vm_compute; reflexivity|].
  intros (_ & _ & _ & H). vm_compute in H. destruct H as [H _]. discriminate.
Qed.

(** C10, at a sneaking survival player with hunger 0 and the large
    tunnel selected. *)
Lemma starving_player_starts_no_run_witness :
  hunger (player stoneWorld 0 5) = Some 0%Q
  /\ (0 == 0)%Q
  /\ snd (demoTrigger (player stoneWorld 0 5) (demoSettings "largeTunnel"))
     <> Started demoCall.
Proof.
  assert (hunger (player stoneWorld 0 5) = Some 0%Q) as H by reflexivity.
  assert (0 == 0)%Q as Z0 by reflexivity.
  split; [exact H|]. split; [exact Z0|].
  exact (starving_player_starts_no_run ["minecraft:stone"%string] []
           (fun _ _ => true) (fun _ => None) (fun _ => ""%string)
           (player stoneWorld 0 5) (demoSettings "largeTunnel") demoEvent
           0%Q demoCall H Z0).
Defined.

(** With one hunger point the same event starts the run. *)
Example fed_player_starts_run :
  snd (demoTrigger (player stoneWorld 1 5) (demoSettings "largeTunnel"))
  = Started demoCall.
Proof. vm_compute. reflexivity. Qed.

(** * Further properties of the engine *)

(** ** Breaking one block *)

Lemma spawnDrops_run orc (drops : list ItemStack) : forall s r s',
  spawnDrops orc drops s = (r, s') ->
  host s' = host s /\ loot s' = loot s
  /\ match r with
     | Ok _ => trace s' = trace s ++ spawnEvents (dropStacks drops)
     | Throw => True
     | Stuck => False
     end.
Proof.
  induction drops as [|d drops IH]; intros s r s'; cbn.
  - intros [= <- <-]. by rewrite app_nil_r.
  - unfold bind at 1, spawnItem, bind at 1, call, emit.
    destruct (faultAt orc SpawnItem (calls s)); cbn.
    { by intros [= <- <-]. }
    intros E. apply IH in E as (H1 & H2 & H3). cbn in *.
    repeat split; try done.
    destruct r as [[]| |]; try done. by rewrite H3, <- app_assoc.
Qed.

(** Host calls that leave trace, loot and host alone. *)
Lemma call_same orc a s r s' :
  call orc a s = (r, s') -> same s s' /\ r <> Stuck.
Proof.
  unfold call. destruct (faultAt orc a (calls s)); by intros [= <- <-].
Qed.

Lemma hasTag_run orc b tag s r s' :
  hasTag orc b tag s = (r, s') ->
  same s s' /\ (r = Throw \/ r = Ok (tagged b tag)).
Proof.
  unfold hasTag, bind, call, ret, tagged.
  destruct (faultAt orc HasTag (calls s)); intros [= <- <-];
    unfold same; cbn; auto.
Qed.

Lemma itemComponent_run orc item id s r s' :
  itemComponent orc item id s = (r, s') ->
  same s s' /\ (r = Throw \/ r = Ok (carries item id)).
Proof.
  unfold itemComponent, carries. destruct item as [it|].
  - unfold bind, call, ret.
    destruct (faultAt orc GetItemComponent (calls s)); intros [= <- <-];
      unfold same; cbn; auto.
  - intros [= <- <-]. unfold same. auto.
Qed.

Lemma runCommand_script orc id p s r s' :
  runCommand orc (ScriptEvent id p) s = (r, s') ->
  host s' = host s /\ loot s' = loot s
  /\ (r = Ok tt /\ trace s' = trace s ++ [EvCommand (ScriptEvent id p)]
      \/ r = Throw /\ trace s' = trace s).
Proof.
  unfold runCommand, bind, call, get, ret, emit.
  destruct (faultAt orc RunCommand (calls s)); intros [= <- <-]; cbn; auto.
Qed.

Lemma runCommand_fill orc p s r s' :
  runCommand orc (FillAir p) s = (r, s') ->
  loot s' = loot s
  /\ (r = Ok tt /\ host s' = withAir (host s) p
      /\ trace s' = trace s ++ [EvCommand (FillAir p)]
      \/ r = Throw /\ host s' = host s /\ trace s' = trace s).
Proof.
  unfold runCommand, bind, call, get, ret, emit, setHost.
  destruct (faultAt orc RunCommand (calls s)); intros [= <- <-]; cbn; auto.
Qed.

Lemma same_trans s1 s2 s3 : same s1 s2 -> same s2 s3 -> same s1 s3.
Proof. intros (? & ? & ?) (? & ? & ?). repeat split; congruence. Qed.

Section BreakBlock.
Variable orc : Oracle.
Variable item : option Tool.
Variable p : Pos.
Variable b : BlockData.
Variable veinCtx : bool.

(** The common end of the six script-event exits of [breakBlock]. *)
Lemma script_exit id s0 s r s' :
  trace s = trace s0 ++ [EvBreakBlock p] -> host s = host s0 ->
  loot s = loot s0 ->
  runCommand orc (ScriptEvent id p) s = (r, s') ->
  host s' = host s0 /\ loot s' = loot s0
  /\ (r = Ok tt
      /\ trace s' = trace s0 ++ [EvBreakBlock p; EvCommand (ScriptEvent id p)]
      \/ r = Throw /\ trace s' = trace s0 ++ [EvBreakBlock p]).
Proof.
  intros Ht Hh Hl (H1 & H2 & H3)%runCommand_script.
  rewrite H1, H2, Hh, Hl. repeat split.
  destruct H3 as [[-> H3] | [-> H3]]; rewrite H3, Ht; [left|right]; split; try done.
  by rewrite <- app_assoc.
Qed.

Lemma breakBlock_delegated id s r s' :
  delegate b item = Some id ->
  breakBlock orc item p b veinCtx s = (r, s') ->
  host s' = host s /\ loot s' = loot s
  /\ (r = Ok tt
      /\ trace s' = trace s ++ [EvBreakBlock p; EvCommand (ScriptEvent id p)]
      \/ r = Throw /\ trace s' = trace s ++ [EvBreakBlock p]).
Proof.
  unfold delegate, breakBlock. intros Hd.
  unfold bind at 1, emit.
  match goal with |- context [bind _ _ ?s0] =>
    set (s1 := s0);
    assert (trace s1 = trace s ++ [EvBreakBlock p]) as Ht by done;
    assert (host s1 = host s) as Hh by done;
    assert (loot s1 = loot s) as Hl by done;
    clearbody s1
  end.
  assert (forall r0 s2, same s1 s2 -> r0 = @Throw unit ->
            (r0, s2) = (r, s') ->
            host s' = host s /\ loot s' = loot s
            /\ (r = Ok tt
                /\ trace s' = trace s ++ [EvBreakBlock p; EvCommand (ScriptEvent id p)]
                \/ r = Throw /\ trace s' = trace s ++ [EvBreakBlock p])) as Hthrow.
  { intros r0 s2 (E1 & E2 & E3) -> [= <- <-].
    rewrite E1, E2, E3, Ht, Hh, Hl. auto. }
  assert (forall s2 id', same s1 s2 -> Some id' = Some id ->
            runCommand orc (ScriptEvent id' p) s2 = (r, s') ->
            host s' = host s /\ loot s' = loot s
            /\ (r = Ok tt
                /\ trace s' = trace s ++ [EvBreakBlock p; EvCommand (ScriptEvent id p)]
                \/ r = Throw /\ trace s' = trace s ++ [EvBreakBlock p])) as Hexit.
  { intros s2 id' (E1 & E2 & E3) [= ->]. apply script_exit; congruence. }
  unfold bind at 1.
  destruct (call orc GetLootTableManager s1) as [r0 s2] eqn:E0.
  apply call_same in E0 as [S0 N0].
  destruct r0 as [n0| |]; [|by apply Hthrow|done].
  do 4 (unfold bind at 1;
        match goal with
        | |- context [hasTag orc b ?tag ?s3] =>
            let E := fresh "E" in
            let S1 := fresh "S" in
            destruct (hasTag orc b tag s3) as [? ?] eqn:E;
            apply hasTag_run in E as [S1 [-> | ->]];
            pose proof (same_trans _ _ _ S0 S1);
            [by apply Hthrow|];
            clear S0 S1;
            match goal with H : same s1 _ |- _ => rename H into S0 end;
            destruct (tagged b tag); [by eapply Hexit|]
        end).
  do 2 (unfold bind at 1;
        match goal with
        | |- context [itemComponent orc item ?c ?s3] =>
            let E := fresh "E" in
            let S1 := fresh "S" in
            destruct (itemComponent orc item c s3) as [? ?] eqn:E;
            apply itemComponent_run in E as [S1 [-> | ->]];
            pose proof (same_trans _ _ _ S0 S1);
            [by apply Hthrow|];
            clear S0 S1;
            match goal with H : same s1 _ |- _ => rename H into S0 end;
            destruct (carries item c); [by eapply Hexit|]
        end).
  done.
Qed.

Lemma breakBlock_fallback s r s' :
  delegate b item = None ->
  breakBlock orc item p b veinCtx s = (r, s') ->
  match r with
  | Ok _ =>
      exists n drops,
        lootOf orc n p b item = Some drops
        /\ trace s'
           = trace s ++ [EvBreakBlock p; EvGenerateLoot p drops]
                     ++ (if veinCtx then [] else spawnEvents (dropStacks drops))
                     ++ [EvCommand (FillAir p)]
        /\ loot s' = (if veinCtx then addAll (loot s) drops else loot s)
        /\ host s' = withAir (host s) p
  | Throw => host s' = host s
  | Stuck => False
  end.
Proof.
  unfold delegate, breakBlock. intros Hd.
  unfold bind at 1, emit.
  match goal with |- context [bind _ _ ?s0] =>
    set (s1 := s0);
    assert (trace s1 = trace s ++ [EvBreakBlock p]) as Ht by done;
    assert (host s1 = host s) as Hh by done;
    assert (loot s1 = loot s) as Hl by done;
    clearbody s1
  end.
  assert (forall (r0 : Exit unit) s2, same s1 s2 -> r0 = Throw ->
            (r0, s2) = (r, s') ->
            match r with
            | Ok _ =>
                exists n drops,
                  lootOf orc n p b item = Some drops
                  /\ trace s'
                     = trace s ++ [EvBreakBlock p; EvGenerateLoot p drops]
                         ++ (if veinCtx then [] else spawnEvents (dropStacks drops))
                         ++ [EvCommand (FillAir p)]
                  /\ loot s' = (if veinCtx then addAll (loot s) drops else loot s)
                  /\ host s' = withAir (host s) p
            | Throw => host s' = host s
            | Stuck => False
            end) as Hthrow.
  { intros r0 s2 (E1 & E2 & E3) -> [= <- <-]. congruence. }
  unfold bind at 1.
  destruct (call orc GetLootTableManager s1) as [r0 s2] eqn:E0.
  apply call_same in E0 as [S0 N0].
  destruct r0 as [n0| |]; [|by apply Hthrow|done].
  do 4 (unfold bind at 1;
        match goal with
        | |- context [hasTag orc b ?tag ?s3] =>
            let E := fresh "E" in
            let S1 := fresh "S" in
            destruct (hasTag orc b tag s3) as [? ?] eqn:E;
            apply hasTag_run in E as [S1 [-> | ->]];
            pose proof (same_trans _ _ _ S0 S1);
            [by apply Hthrow|];
            clear S0 S1;
            match goal with H : same s1 _ |- _ => rename H into S0 end;
            destruct (tagged b tag); [done|]
        end).
  do 2 (unfold bind at 1;
        match goal with
        | |- context [itemComponent orc item ?c ?s3] =>
            let E := fresh "E" in
            let S1 := fresh "S" in
            destruct (itemComponent orc item c s3) as [? ?] eqn:E;
            apply itemComponent_run in E as [S1 [-> | ->]];
            pose proof (same_trans _ _ _ S0 S1);
            [by apply Hthrow|];
            clear S0 S1;
            match goal with H : same s1 _ |- _ => rename H into S0 end;
            destruct (carries item c); [done|]
        end).
  clear Hd. unfold bind at 1.
  match goal with |- context [call orc GenerateLoot ?s3] =>
    destruct (call orc GenerateLoot s3) as [rg sg] eqn:Eg
  end.
  apply call_same in Eg as [Sg Ng].
  pose proof (same_trans _ _ _ S0 Sg) as S1. clear S0 Sg.
  destruct rg as [n| |]; [|by apply Hthrow|done].
  destruct (lootOf orc n p b item) as [drops|] eqn:El; [|by apply Hthrow].
  destruct S1 as (T1 & L1 & H1).
  unfold bind at 1, emit. unfold bind at 1.
  destruct veinCtx.
  - unfold addDrops, bind at 1, get, setLoot. cbn [trace host loot calls ticks].
    intros (Hl' & Hf)%runCommand_fill. cbn [trace host loot] in *.
    destruct Hf as [(-> & Hh' & Ht') | (-> & Hh' & Ht')].
    + exists n, drops. rewrite Ht', Hh', Hl', T1, L1, H1, Ht, Hh, Hl.
      repeat split; try done. by rewrite <- !app_assoc.
    + congruence.
  - match goal with |- context [spawnDrops orc drops ?s3] =>
      destruct (spawnDrops orc drops s3) as [rs ss] eqn:Es
    end.
    apply spawnDrops_run in Es as (Hsh & Hsl & Hst). cbn [trace host loot] in *.
    destruct rs as [[]| |]; [| intros [= <- <-]; congruence | done].
    intros (Hl' & Hf)%runCommand_fill.
    destruct Hf as [(-> & Hh' & Ht') | (-> & Hh' & Ht')].
    + exists n, drops. rewrite Ht', Hh', Hl', Hst, Hsh, Hsl, T1, L1, H1, Ht, Hh, Hl.
      repeat split; try done. by rewrite <- !app_assoc.
    + congruence.
Qed.

End BreakBlock.
(** X1. A block that carries one of the four machine tags, or a tool
    that carries one of the two loot components, is handed over to
    another script: [breakBlock] sends the one script event that the
    priority list of its documentation names and returns, or it throws
    before sending it. It generates no loot, does not touch the loot
    context and leaves the block where it is. *)
Theorem delegated_break_sends_one_script_event (orc : Oracle)
    (item : option Tool) (p : Pos) (b : BlockData) (veinCtx : bool) (s : St)
    (id : string) :
  delegate b item = Some id ->
  let r := breakBlock orc item p b veinCtx s in
  host (snd r) = host s /\ loot (snd r) = loot s
  /\ (fst r = Ok tt
      /\ trace (snd r)
         = trace s ++ [EvBreakBlock p; EvCommand (ScriptEvent id p)]
      \/ fst r = Throw /\ trace (snd r) = trace s ++ [EvBreakBlock p]).
Proof.
  intros Hd r. subst r.
  destruct (breakBlock orc item p b veinCtx s) as [r s'] eqn:E.
  by apply (breakBlock_delegated orc item p b veinCtx id) in E.
Qed.

Lemma delegated_break_witness :
  delegate (mkBlock "dorios:tank" ["dorios:fluid"%string]) (Some pick)
  = Some "dorios:destroyTank"%string
  /\ let r := breakBlock calm (Some pick) origin
             (mkBlock "dorios:tank" ["dorios:fluid"%string]) true
             (initSt (player solidWorld 20 5)) in
  host (snd r) = player solidWorld 20 5 /\ loot (snd r) = []
  /\ (fst r = Ok tt
      /\ trace (snd r)
         = [EvBreakBlock origin;
            EvCommand (ScriptEvent "dorios:destroyTank" origin)]
      \/ fst r = Throw /\ trace (snd r) = [EvBreakBlock origin]).
Proof.
  split; [reflexivity|].
  apply (delegated_break_sends_one_script_event calm (Some pick) origin
           (mkBlock "dorios:tank" ["dorios:fluid"%string]) true
           (initSt (player solidWorld 20 5)) "dorios:destroyTank").
  reflexivity.
Defined.

(** X2. For a block without those tags and a tool without those
    components, a [breakBlock] that returns has generated the loot of
    the block once, has put it into the loot context when there is one
    and has spawned it drop by drop when there is none, and has then
    replaced the block by air; a [breakBlock] that throws has left the
    block in the world. *)
Theorem plain_break_generates_loot_then_clears (orc : Oracle)
    (item : option Tool) (p : Pos) (b : BlockData) (veinCtx : bool) (s : St) :
  delegate b item = None ->
  let r := breakBlock orc item p b veinCtx s in
  match fst r with
  | Ok _ =>
      exists n drops,
        lootOf orc n p b item = Some drops
        /\ trace (snd r)
           = trace s ++ [EvBreakBlock p; EvGenerateLoot p drops]
                     ++ (if veinCtx then [] else spawnEvents (dropStacks drops))
                     ++ [EvCommand (FillAir p)]
        /\ loot (snd r) = (if veinCtx then addAll (loot s) drops else loot s)
        /\ host (snd r) = withAir (host s) p
  | Throw => host (snd r) = host s
  | Stuck => False
  end.
Proof.
  intros Hd r. subst r.
  destruct (breakBlock orc item p b veinCtx s) as [r s'] eqn:E.
  by apply (breakBlock_fallback orc item p b veinCtx) in E.
Qed.

Lemma plain_break_witness :
  delegate stone (Some pick) = None
  /\ let r := breakBlock calm (Some pick) origin stone false
             (initSt (player solidWorld 20 5)) in
  match fst r with
  | Ok _ =>
      exists n drops,
        lootOf calm n origin stone (Some pick) = Some drops
        /\ trace (snd r)
           = [] ++ [EvBreakBlock origin; EvGenerateLoot origin drops]
                ++ spawnEvents (dropStacks drops)
                ++ [EvCommand (FillAir origin)]
        /\ loot (snd r) = []
        /\ host (snd r) = withAir (player solidWorld 20 5) origin
  | Throw => host (snd r) = player solidWorld 20 5
  | Stuck => False
  end.
Proof.
  split; [reflexivity|].
  apply (plain_break_generates_loot_then_clears calm (Some pick) origin stone
           false (initSt (player solidWorld 20 5))).
  reflexivity.
Defined.

(** ** The hunger reserves *)

Lemma Qle_bool_neg (a : Q) : Qle_bool 0 a = false -> (a < 0)%Q.
Proof. apply Qle_bool_false. Qed.

Lemma reduceHunger_run orc mh ms s r s' :
  reduceHunger orc mh ms s = (r, s') ->
  trace s' = trace s /\ loot s' = loot s
  /\ match r with
     | Ok true =>
         noConsumeSaturation (host s) = true /\ host s' = host s
         \/ noConsumeSaturation (host s) = false
            /\ exists hv sv,
                hunger (host s) = Some hv /\ saturation (host s) = Some sv
                /\ ((0 <= sv - ms)%Q
                    /\ host s' = withSaturation (host s) (sv - ms)
                    \/ (sv - ms < 0)%Q /\ (0 <= hv - mh)%Q
                       /\ host s' = withHunger (host s) (hv - mh))
     | Ok false =>
         host s' = host s /\ noConsumeSaturation (host s) = false
         /\ forall hv sv,
              hunger (host s) = Some hv -> saturation (host s) = Some sv ->
              (sv - ms < 0)%Q /\ (hv - mh < 0)%Q
     | Throw => host s' = host s
     | Stuck => False
     end.
Proof.
  unfold reduceHunger, bind, call, get, ret, setHost. cbn.
  destruct (faultAt orc GetDynamicProperty (calls s)); cbn.
  { by intros [= <- <-]. }
  destruct (noConsumeSaturation (host s)) eqn:Hb; cbn.
  { intros [= <- <-]. cbn. auto. }
  destruct (faultAt orc GetComponent (S (calls s))); cbn.
  { by intros [= <- <-]. }
  destruct (faultAt orc GetComponent (S (S (calls s)))); cbn.
  { by intros [= <- <-]. }
  destruct (hunger (host s)) as [hv|] eqn:Hh;
    destruct (saturation (host s)) as [sv|] eqn:Hs;
    try (intros [= <- <-]; cbn; repeat split; done).
  destruct (Qle_bool 0 (sv - ms)) eqn:Es.
  { apply Qle_bool_iff in Es.
    destruct (faultAt orc SetCurrentValue _); intros [= <- <-]; cbn;
      [done|]. repeat split. right. split; [done|]. exists hv, sv. auto. }
  apply Qle_bool_neg in Es.
  destruct (Qle_bool 0 (hv - mh)) eqn:Eh.
  { apply Qle_bool_iff in Eh.
    destruct (faultAt orc SetCurrentValue _); intros [= <- <-]; cbn;
      [done|]. repeat split. right. split; [done|]. exists hv, sv.
    repeat split. right. auto. }
  apply Qle_bool_neg in Eh.
  intros [= <- <-]. cbn. repeat split; congruence.
Qed.

(** X3. [reduceHunger] makes no call that the trace records, and it
    charges at most one reserve, never below zero: it answers true when
    the bypass flag is set (nothing is charged), when the saturation
    covers its cost (the saturation is charged) or, failing that, when
    the hunger covers its cost (the hunger is charged). When it answers
    false, as it does when a component is missing, and when it throws,
    the player is as before. *)
Theorem reduceHunger_charges_one_reserve (orc : Oracle)
    (minusHunger minusSaturation : Q) (s : St) :
  let r := reduceHunger orc minusHunger minusSaturation s in
  trace (snd r) = trace s /\ loot (snd r) = loot s
  /\ match fst r with
     | Ok true =>
         noConsumeSaturation (host s) = true /\ host (snd r) = host s
         \/ noConsumeSaturation (host s) = false
            /\ exists hv sv,
                hunger (host s) = Some hv /\ saturation (host s) = Some sv
                /\ ((0 <= sv - minusSaturation)%Q
                    /\ host (snd r)
                       = withSaturation (host s) (sv - minusSaturation)
                    \/ (sv - minusSaturation < 0)%Q
                       /\ (0 <= hv - minusHunger)%Q
                       /\ host (snd r) = withHunger (host s) (hv - minusHunger))
     | Ok false =>
         host (snd r) = host s /\ noConsumeSaturation (host s) = false
         /\ forall hv sv,
              hunger (host s) = Some hv -> saturation (host s) = Some sv ->
              (sv - minusSaturation < 0)%Q /\ (hv - minusHunger < 0)%Q
     | Throw => host (snd r) = host s
     | Stuck => False
     end.
Proof.
  intros r. subst r.
  destruct (reduceHunger orc minusHunger minusSaturation s) as [r s'] eqn:E.
  by apply reduceHunger_run in E.
Qed.

(** ** The emission, stack by stack *)

Lemma spawnStacks_prefix orc fuel : forall id remaining s r s',
  (Z.to_nat remaining <= fuel)%nat ->
  spawnStacks orc fuel id remaining s = (r, s') ->
  host s' = host s /\ loot s' = loot s
  /\ exists k,
       trace s'
       = trace s ++ spawnEvents (map (pair id) (firstn k (chunks fuel remaining)))
       /\ match r with
          | Ok _ => k = length (chunks fuel remaining)
          | Throw => (k < length (chunks fuel remaining))%nat
          | Stuck => False
          end.
Proof.
  induction fuel as [|fuel IH]; intros id remaining s r s' Hf; cbn.
  - destruct (0 <? remaining) eqn:E; [apply Z.ltb_lt in E; lia|].
    intros [= <- <-]. repeat split. exists 0%nat. cbn. by rewrite app_nil_r.
  - destruct (0 <? remaining) eqn:E.
    2:{ intros [= <- <-]. repeat split. exists 0%nat. cbn. by rewrite app_nil_r. }
    apply Z.ltb_lt in E.
    unfold bind at 1, spawnItem, bind at 1, call, emit.
    destruct (faultAt orc SpawnItem (calls s)); cbn.
    { intros [= <- <-]. repeat split. exists 0%nat. cbn.
      rewrite app_nil_r. split; [done|lia]. }
    intros (Hh & Hl & k & Ht & Hk)%IH; [|lia]. cbn in *.
    repeat split; try done. exists (S k). cbn.
    rewrite Ht, <- app_assoc. split; [done|].
    destruct r as [[]| |]; try done; lia.
Qed.

Lemma dropEntries_prefix orc (l : Loot) : forall s r s',
  dropEntries orc l s = (r, s') ->
  host s' = host s /\ loot s' = loot s
  /\ exists k,
       trace s' = trace s ++ spawnEvents (firstn k (stacksOf l))
       /\ match r with
          | Ok _ => k = length (stacksOf l)
          | Throw => (k < length (stacksOf l))%nat
          | Stuck => False
          end.
Proof.
  induction l as [|[id amt] l IH]; intros s r s'; cbn.
  - intros [= <- <-]. repeat split. exists 0%nat. cbn. by rewrite app_nil_r.
  - unfold bind at 1.
    destruct (spawnStacks orc (Z.to_nat amt) id amt s) as [r1 s1] eqn:E1.
    apply spawnStacks_prefix in E1 as (Hh & Hl & k & Ht & Hk); [|lia].
    unfold stacksOf. cbn [flat_map fst snd].
    fold (stacksOf l).
    set (a := map (pair id) (chunks (Z.to_nat amt) amt)) in *.
    assert (length a = length (chunks (Z.to_nat amt) amt)) as La
      by (subst a; apply length_map).
    destruct r1 as [[]| |]; [| |done].
    + intros (Hh2 & Hl2 & k2 & Ht2 & Hk2)%IH.
      split; [congruence|]. split; [congruence|].
      exists (length a + k2)%nat.
      rewrite firstn_app, firstn_all2 by lia.
      replace (length a + k2 - length a)%nat with k2 by lia.
      rewrite Ht2, Ht. subst k. rewrite firstn_all. fold a.
      unfold spawnEvents. rewrite map_app, <- app_assoc.
      split; [done|]. rewrite length_app.
      destruct r as [[]| |]; try done; lia.
    + intros [= <- <-]. repeat split; try done. exists k.
      rewrite firstn_app. replace (k - length a)%nat with 0%nat by lia.
      cbn. rewrite app_nil_r. subst a. rewrite firstn_map.
      split; [done|]. rewrite length_app, length_map. lia.
Qed.

(** X4. The emission spawns the stacks of the loot map in order and
    stops at the first [spawnItem] that throws: what has been spawned is
    an initial part of the stacks, all of them exactly when the emission
    returns. It changes neither the player, nor the world, nor the loot
    map it reads. *)
Theorem emission_stops_at_first_fault (orc : Oracle) (s : St) :
  let r := dropVeinLoot orc s in
  host (snd r) = host s /\ loot (snd r) = loot s
  /\ exists k,
       trace (snd r) = trace s ++ spawnEvents (firstn k (stacksOf (loot s)))
       /\ match fst r with
          | Ok _ => k = length (stacksOf (loot s))
          | Throw => (k < length (stacksOf (loot s)))%nat
          | Stuck => False
          end.
Proof.
  intros r. subst r. destruct (dropVeinLoot orc s) as [r s'] eqn:E.
  unfold dropVeinLoot, bind, get in E. by apply dropEntries_prefix in E.
Qed.

Lemma chunks_fullThenRest fuel : forall q,
  (Z.to_nat q <= fuel)%nat -> chunks fuel q = fullThenRest q.
Proof.
  unfold fullThenRest.
  induction fuel as [|fuel IH]; intros q Hf; cbn.
  - destruct (0 <? q) eqn:E; [apply Z.ltb_lt in E; lia|].
    apply Z.ltb_ge in E. by rewrite (proj2 (Z.leb_le q 0)).
  - destruct (0 <? q) eqn:E.
    2:{ apply Z.ltb_ge in E. by rewrite (proj2 (Z.leb_le q 0)). }
    apply Z.ltb_lt in E. rewrite (proj2 (Z.leb_gt q 0)) by lia.
    rewrite IH by lia.
    destruct (Z_le_gt_dec q 64) as [Hle|Hgt].
    + rewrite Z.min_l by lia. rewrite Z.sub_diag. cbn [Z.leb Z.compare].
      destruct (Z.eq_dec q 64) as [->|Hne]; [done|].
      rewrite Z.div_small, Z.mod_small by lia. cbn.
      by rewrite (proj2 (Z.eqb_neq q 0)) by lia.
    + rewrite Z.min_r by lia. rewrite (proj2 (Z.leb_gt (q - 64) 0)) by lia.
      assert ((q - 64) / 64 = q / 64 - 1) as Hd.
      { replace (q - 64) with (q + (-1) * 64) by lia.
        rewrite Z.div_add by lia. lia. }
      assert ((q - 64) mod 64 = q mod 64) as Hm.
      { replace (q - 64) with (q + (-1) * 64) by lia.
        by rewrite Z.mod_add by lia. }
      rewrite Hd, Hm.
      assert (1 <= q / 64) by (apply Z.div_le_lower_bound; lia).
      replace (Z.to_nat (q / 64)) with (S (Z.to_nat (q / 64 - 1))) by lia.
      done.
Qed.

Lemma stacksOf_fullThenRest (l : Loot) :
  stacksOf l
  = flat_map (fun e => map (pair (fst e)) (fullThenRest (snd e))) l.
Proof.
  unfold stacksOf. induction l as [|e l IH]; [done|].
  cbn. by rewrite IH, chunks_fullThenRest.
Qed.

(** X5. When [spawnItem] does not throw, the emission spawns for every
    entry of the loot map, in the order of the map, as many full stacks
    of 64 as the quantity holds and then one stack with the remainder if
    there is one; an entry with a quantity of 0 or less spawns nothing. *)
Theorem emission_spawns_full_stacks_then_rest (orc : Oracle) (s : St) :
  noSpawnFaults orc ->
  let r := dropVeinLoot orc s in
  fst r = Ok tt
  /\ trace (snd r)
     = trace s
       ++ spawnEvents
            (flat_map (fun e => map (pair (fst e)) (fullThenRest (snd e)))
                      (loot s)).
Proof.
  intros Hq r. subst r.
  destruct (dropVeinLoot_run orc Hq s) as [c ->]. cbn.
  by rewrite stacksOf_fullThenRest.
Qed.

Lemma emission_spawns_full_stacks_witness :
  noSpawnFaults calm
  /\ let s := mkSt (player stoneWorld 20 5) 0 0 []
                   [("minecraft:cobblestone"%string, 130);
                    ("minecraft:coal"%string, 0)] in
     let r := dropVeinLoot calm s in
     fst r = Ok tt
     /\ trace (snd r)
        = trace s
          ++ spawnEvents
               (flat_map (fun e => map (pair (fst e)) (fullThenRest (snd e)))
                         (loot s)).
Proof.
  split; [exact calm_noSpawnFaults|].
  exact (emission_spawns_full_stacks_then_rest calm
           (mkSt (player stoneWorld 20 5) 0 0 []
                 [("minecraft:cobblestone"%string, 130);
                  ("minecraft:coal"%string, 0)])
           calm_noSpawnFaults).
Defined.

(** ** The loot map *)

Lemma lootGet_lootSet_same l k v : lootGet (lootSet l k v) k = Some v.
Proof.
  induction l as [|[k' w] l IH]; cbn.
  - by rewrite String.eqb_refl.
  - destruct (String.eqb k' k) eqn:E; cbn; rewrite E; [done | exact IH].
Qed.

Lemma lootGet_lootSet_other l k v id :
  id <> k -> lootGet (lootSet l k v) id = lootGet l id.
Proof.
  intros Hne. induction l as [|[k' w] l IH]; cbn.
  - assert (String.eqb k id = false) as ->; [|done].
    apply String.eqb_neq. congruence.
  - destruct (String.eqb k' k) eqn:E; cbn.
    + apply String.eqb_eq in E. subst k'.
      assert (String.eqb k id = false) as ->; [|done].
      apply String.eqb_neq. congruence.
    + destruct (String.eqb k' id); [done | exact IH].
Qed.

Lemma lootGet_None l k : lootGet l k = None -> ~ In k (map fst l).
Proof.
  induction l as [|[k' w] l IH]; cbn; [tauto|].
  destruct (String.eqb k' k) eqn:E; [done|].
  apply String.eqb_neq in E. intros H [?|?]; [done|]. by apply IH.
Qed.

Lemma lootSet_keys l k v :
  map fst (lootSet l k v)
  = match lootGet l k with
    | Some _ => map fst l
    | None => map fst l ++ [k]
    end.
Proof.
  induction l as [|[k' w] l IH]; cbn; [done|].
  destruct (String.eqb k' k) eqn:E; cbn; [done|].
  rewrite IH. by destruct (lootGet l k).
Qed.

(** X6. [addLoot] on the map of the context: afterwards the type of the
    stack has what it had before (0 when it was absent) plus the amount
    of the stack (1 when the stack has none); every other type has what
    it had; a type that was present keeps its place in the order of the
    map and a new type goes last; and no type gets a second entry. *)
Theorem addLoot_updates_one_entry (l : Loot) (itemStack : ItemStack)
    (id : string) :
  lootGet (addLoot l itemStack) (typeId itemStack)
  = Some (default 0 (lootGet l (typeId itemStack))
          + default 1 (amount itemStack))
  /\ (id <> typeId itemStack -> lootGet (addLoot l itemStack) id = lootGet l id)
  /\ map fst (addLoot l itemStack)
     = match lootGet l (typeId itemStack) with
       | Some _ => map fst l
       | None => map fst l ++ [typeId itemStack]
       end
  /\ (NoDup (map fst l) -> NoDup (map fst (addLoot l itemStack))).
Proof.
  unfold addLoot. cbn zeta. split; [apply lootGet_lootSet_same|].
  split; [apply lootGet_lootSet_other|].
  split; [apply lootSet_keys|].
  rewrite lootSet_keys. intros Hnd.
  destruct (lootGet l (typeId itemStack)) eqn:E; [done|].
  apply NoDup_app. split; [done|].
  split; [|apply NoDup_singleton].
  intros x Hx ->%list_elem_of_singleton.
  apply lootGet_None in E. apply E. by apply list_elem_of_In.
Qed.

(** ** The neighbour table and the slices *)

Lemma offset_inj p : Inj (=) (=) (offset p).
Proof.
  intros [x1 y1 z1] [x2 y2 z2]. unfold offset. cbn. intros [= ? ? ?].
  f_equal; lia.
Qed.

Lemma NoDup_map_inj {A B} (f : A -> B) (l : list A) :
  Inj (=) (=) f -> NoDup l -> NoDup (map f l).
Proof.
  intros Hf. induction 1 as [|x l Hx Hl IH]; cbn; constructor; [|done].
  intros (y & Hy & Hin)%list_elem_of_In%in_map_iff.
  apply Hf in Hy. subst y. by apply Hx, list_elem_of_In.
Qed.

Lemma dirs_NoDup : NoDup dirs.
Proof. apply (bool_decide_unpack _). by vm_compute. Qed.

(** Picking the disjunct of a membership in a table that holds. *)
Ltac pick_disjunct :=
  repeat match goal with
         | |- _ \/ _ => first [ left; solve [unfold offset; cbn; f_equal; lia] | right ]
         end.

Lemma neighbours_spec (p q : Pos) :
  (In q (map (offset p) dirs) <-> reach q p = 1)
  /\ NoDup (map (offset p) dirs)
  /\ length (map (offset p) dirs) = 26%nat.
Proof.
  split; [|split; [apply NoDup_map_inj; [apply offset_inj | apply dirs_NoDup] | reflexivity]].
  destruct p as [x y z], q as [x' y' z']. unfold reach. cbn [px py pz].
  split.
  - unfold offset. cbn. intros H.
    repeat (destruct H as [[= <- <- <-] | H]; [lia|]). done.
  - intros H.
    assert (x' - x = -1 \/ x' - x = 0 \/ x' - x = 1) as Hx by lia.
    assert (y' - y = -1 \/ y' - y = 0 \/ y' - y = 1) as Hy by lia.
    assert (z' - z = -1 \/ z' - z = 0 \/ z' - z = 1) as Hz by lia.
    cbn.
    destruct Hx as [Hx | [Hx | Hx]], Hy as [Hy | [Hy | Hy]],
             Hz as [Hz | [Hz | Hz]];
      try (exfalso; lia); pick_disjunct.
Qed.

(** X7. The positions that a flood-fill pass puts on its queue for a
    position are its 26 neighbours, each of them once: the positions
    one step away from it along the axes or a diagonal. *)
Theorem queued_neighbours_are_the_26_around (p q : Pos) :
  (In q (map (offset p) dirs) <-> reach q p = 1)
  /\ NoDup (map (offset p) dirs)
  /\ length (map (offset p) dirs) = 26%nat.
Proof. apply neighbours_spec. Qed.

Lemma sliceCell_inj axis c : Inj (=) (=) (sliceCell axis c).
Proof.
  intros [a1 b1] [a2 b2]. destruct axis; cbn; intros [= ? ?]; f_equal; lia.
Qed.

Lemma slice_square (axis : Axis) (sliceCenter q : Pos)
    (outward : bool) :
  let cells := map (sliceCell axis sliceCenter) (spiralOffsets outward) in
  (In q cells <->
   along axis q = along axis sliceCenter /\ reach q sliceCenter <= 1)
  /\ NoDup cells
  /\ length cells = 9%nat.
Proof.
  cbn zeta. split; [|split].
  - assert (In q (map (sliceCell axis sliceCenter) (spiralOffsets outward))
            <-> In q (map (sliceCell axis sliceCenter) orderOut)) as ->.
    { unfold spiralOffsets. destruct outward; [done|].
      rewrite map_rev. symmetry. apply in_rev. }
    destruct sliceCenter as [x y z], q as [x' y' z'].
    unfold reach. cbn [px py pz]. split.
    + cbn. intros H.
      destruct axis; cbn in H |- *;
        repeat (destruct H as [[= <- <- <-] | H]; [lia|]); done.
    + intros [Ha H].
      assert (x' - x = -1 \/ x' - x = 0 \/ x' - x = 1) as Hx by lia.
      assert (y' - y = -1 \/ y' - y = 0 \/ y' - y = 1) as Hy by lia.
      assert (z' - z = -1 \/ z' - z = 0 \/ z' - z = 1) as Hz by lia.
      destruct axis; cbn in Ha |- *; subst;
        destruct Hx as [Hx | [Hx | Hx]], Hy as [Hy | [Hy | Hy]],
                 Hz as [Hz | [Hz | Hz]];
        try (exfalso; lia); pick_disjunct.
  - apply NoDup_map_inj; [apply sliceCell_inj|]. unfold spiralOffsets.
    destruct outward; apply (bool_decide_unpack _); by vm_compute.
  - by destruct outward.
Qed.

(** X8. A slice of the large tunnel is the 3 by 3 square of cells around
    its centre, across the axis: in either order of traversal the nine
    cells are those at most one step from the centre that have the
    coordinate of the centre along the axis, each of them once. *)
Theorem slice_is_the_square_across_the_axis (axis : Axis) (sliceCenter q : Pos)
    (outward : bool) :
  let cells := map (sliceCell axis sliceCenter) (spiralOffsets outward) in
  (In q cells <->
   along axis q = along axis sliceCenter /\ reach q sliceCenter <= 1)
  /\ NoDup cells
  /\ length cells = 9%nat.
Proof. apply slice_square. Qed.

(** ** The type tests of the tree and ore shapes *)

Lemma substring_all (s : string) : String.substring 0 (String.length s) s = s.
Proof. induction s as [|c s IH]; cbn; [done | f_equal; exact IH]. Qed.

Lemma substring_skip (pre s : string) (m : nat) :
  String.substring (String.length pre) m (pre ++ s)%string
  = String.substring 0 m s.
Proof.
  induction pre as [|c pre IH]; [done|].
  change (String c pre ++ s)%string with (String c (pre ++ s)).
  exact IH.
Qed.

Lemma length_append (a b : string) :
  String.length (a ++ b)%string = (String.length a + String.length b)%nat.
Proof.
  induction a as [|c a IH]; [done|].
  change (String c a ++ b)%string with (String c (a ++ b)).
  cbn. by rewrite IH.
Qed.

Lemma substring_split (s : string) : forall k,
  (k <= String.length s)%nat ->
  s = (String.substring 0 k s
       ++ String.substring k (String.length s - k) s)%string.
Proof.
  induction s as [|c s IH]; intros k Hk; cbn in Hk.
  - by destruct k.
  - destruct k as [|k]; cbn.
    + by rewrite substring_all.
    + change (String c ?a ++ ?b)%string with (String c (a ++ b)).
      f_equal. apply IH. lia.
Qed.

Lemma endsWith_spec (s suffix : string) :
  endsWith s suffix = true <-> exists pre, s = (pre ++ suffix)%string.
Proof.
  unfold endsWith. split.
  - intros [Hl He]%andb_true_iff. apply Nat.leb_le in Hl.
    apply String.eqb_eq in He.
    exists (String.substring 0 (String.length s - String.length suffix) s).
    pose proof (substring_split s (String.length s - String.length suffix)
                  ltac:(lia)) as Hsp.
    replace (String.length s - (String.length s - String.length suffix))%nat
      with (String.length suffix) in Hsp by lia.
    by rewrite He in Hsp.
  - intros [pre ->]. rewrite length_append. apply andb_true_iff. split.
    + apply Nat.leb_le. lia.
    + replace (String.length pre + String.length suffix
               - String.length suffix)%nat
        with (String.length pre) by lia.
      rewrite substring_skip, substring_all. apply String.eqb_refl.
Qed.

(** X9. The type tests of the tree and ore shapes: [isTreeBlock] accepts
    exactly the type ids that end in one of the four patterns of the
    code, and [isOreBlock] exactly those that end in [_ore] and the id
    of ancient debris. *)
Theorem eligible_types_by_suffix (typeId : string) :
  (isTreeBlock typeId = true <->
   exists pre p, In p patterns /\ typeId = (pre ++ p)%string)
  /\ (isOreBlock typeId = true <->
      (exists pre, typeId = (pre ++ "_ore")%string)
      \/ typeId = "minecraft:ancient_debris"%string).
Proof.
  split.
  - unfold isTreeBlock. rewrite existsb_exists. split.
    + intros (p & Hp & [pre ->]%endsWith_spec). eauto.
    + intros (pre & p & Hp & ->). exists p. split; [done|].
      apply endsWith_spec. eauto.
  - unfold isOreBlock. rewrite orb_true_iff, endsWith_spec, String.eqb_eq.
    done.
Qed.

(** ** The trigger *)

Section TriggerRuns.
Variable list_default blacklist_ : list string.
Variable is_diggable : option Tool -> string -> bool.
Variable parseJSON : string -> option (list string).
Variable stringifyJSON : list string -> string.

#[local] Abbreviation trigger :=
  (onPlayerBreakBlock list_default blacklist_ is_diggable parseJSON
                      stringifyJSON).

Lemma listens_guard h st e :
  listens h st e <->
  (negb (isSneaking e)
   || match gameMode h with Creative => true | _ => false end = false)
  /\ (isAdding st || isBlacklistAdding st || isDefaultAdding st = false).
Proof.
  unfold listens.
  destruct (isSneaking e), (gameMode h), (isAdding st), (isBlacklistAdding st),
    (isDefaultAdding st); cbn; intuition congruence.
Qed.

Lemma started_iff (h : Host) (st : Settings) (e : BreakEvent)
    (c : RunCall) :
  snd (trigger h st e) = Started c <->
  listens h st e
  /\ exists veinList_ currentValue,
       match veinList st with
       | None => Some list_default
       | Some text => parseJSON text
       end = Some veinList_
       /\ ~ In (brokenType e) blacklist_
       /\ default true (veinEnabled st) = true
       /\ is_diggable (itemStackBeforeBreak e) (brokenType e) = true
       /\ hunger h = Some currentValue /\ ~ (currentValue == 0)%Q
       /\ In (shape c) handlerNames
       /\ (shape c = "largeTunnel"%string \/ shape c = "smallTunnel"%string
           \/ In (runBlockOf (brokenType e)) veinList_)
       /\ c = mkRunCall (default "shapelessVein"%string (veinShape st))
                        (blockLocation e) (runBlockOf (brokenType e))
                        (default 64 (veinLimit st)) (itemStackBeforeBreak e).
Proof.
  rewrite listens_guard. unfold onPlayerBreakBlock, runBlockOf.
  set (sh := default "shapelessVein"%string (veinShape st)).
  set (bb := if includes (brokenType e) "redstone_ore"
             then removeFirst (brokenType e) "lit_" else brokenType e).
  destruct (negb (isSneaking e) || _) eqn:G1.
  { cbn. split; [done|]. by intros [[? _] _]. }
  destruct (isAdding st || isBlacklistAdding st || isDefaultAdding st) eqn:G2.
  { cbn. split; [done|]. by intros [[_ ?] _]. }
  destruct (match veinList st with
            | Some text => parseJSON text
            | None => Some list_default
            end) as [veinList_|] eqn:Ep.
  2:{ cbn. split; [done|]. by intros (_ & ? & ? & ? & _). }
  destruct (existsb (String.eqb (brokenType e)) blacklist_) eqn:Eb.
  { cbn. split; [done|]. intros (_ & vl & cv & _ & Hn & _). exfalso. apply Hn.
    apply existsb_exists in Eb as (y & Hx & Hxe).
    apply String.eqb_eq in Hxe. by subst y. }
  assert (~ In (brokenType e) blacklist_) as Hnb.
  { intros Hin. assert (existsb (String.eqb (brokenType e)) blacklist_ = true);
      [|congruence].
    apply existsb_exists. exists (brokenType e). split; [done|].
    apply String.eqb_refl. }
  destruct (default true (veinEnabled st)) eqn:Een; cbn [negb orb].
  2:{ cbn. split; [done|]. by intros (_ & ? & ? & _ & _ & ? & _). }
  destruct (is_diggable (itemStackBeforeBreak e) (brokenType e)) eqn:Ed;
    cbn [negb].
  2:{ cbn. split; [done|]. by intros (_ & ? & ? & _ & _ & _ & ? & _). }
  destruct (hunger h) as [hv|] eqn:Eh.
  2:{ cbn. split; [done|]. by intros (_ & ? & ? & _ & _ & _ & _ & ? & _). }
  destruct (Qeq_bool hv 0) eqn:Ez.
  { cbn. split; [done|].
    intros (_ & ? & cv & _ & _ & _ & _ & [= <-] & Hnz & _).
    apply Qeq_bool_iff in Ez. done. }
  assert (~ (hv == 0)%Q) as Hnz.
  { intros H%Qeq_bool_iff. congruence. }
  assert (existsb (String.eqb sh) handlerNames = true <-> In sh handlerNames)
    as Hnames.
  { rewrite existsb_exists. split.
    - intros (x & Hx & Hxe). apply String.eqb_eq in Hxe. by subst x.
    - intros Hin. exists sh. split; [done | apply String.eqb_refl]. }
  assert (existsb (String.eqb bb) veinList_ = true <-> In bb veinList_)
    as Hlist.
  { rewrite existsb_exists. split.
    - intros (x & Hx & Hxe). apply String.eqb_eq in Hxe. by subst x.
    - intros Hin. exists bb. split; [done | apply String.eqb_refl]. }
  assert (String.eqb sh "largeTunnel" || String.eqb sh "smallTunnel" = true
          <-> sh = "largeTunnel"%string \/ sh = "smallTunnel"%string) as Htun.
  { by rewrite orb_true_iff, !String.eqb_eq. }
  split.
  - intros Hs.
    assert (existsb (String.eqb sh) handlerNames = true
            /\ c = mkRunCall sh (blockLocation e) bb
                             (default 64 (veinLimit st))
                             (itemStackBeforeBreak e)
            /\ (String.eqb sh "largeTunnel" || String.eqb sh "smallTunnel"
                = true
                \/ existsb (String.eqb bb) veinList_ = true)) as (H1 & -> & H3).
    { destruct (existsb (String.eqb sh) handlerNames);
        destruct (existsb (String.eqb sh) inheritedReturning);
        destruct (String.eqb sh "largeTunnel" || String.eqb sh "smallTunnel");
        destruct (existsb (String.eqb bb) veinList_);
        cbn in Hs; try discriminate; injection Hs as <-; auto. }
    split; [done|]. exists veinList_, hv. cbn [shape].
    repeat split; try done; [by apply Hnames|].
    destruct H3 as [H3|H3]; [apply Htun in H3; tauto|].
    right; right. by apply Hlist.
  - intros (_ & vl & cv & [= <-] & _ & _ & _ & _ & _ & Hin & Hor & ->).
    cbn [shape] in *. apply Hnames in Hin. rewrite Hin.
    destruct (String.eqb sh "largeTunnel" || String.eqb sh "smallTunnel")
      eqn:Et; [done|].
    destruct Hor as [H | [H | H]].
    + assert (false = true); [|done]. apply Htun. by left.
    + assert (false = true); [|done]. apply Htun. by right.
    + apply Hlist in H. by rewrite H.
Qed.

(** X10. The trigger starts a run exactly when the player sneaks, is
    not in creative mode and is in none of the three adding modes, the
    stored list can be read, the block is not blacklisted, the engine is
    enabled (or was never set), the tool can dig the block, the hunger
    value is not 0, the stored shape names a handler, and the block is
    on the stored list or the shape is the large or the small tunnel.
    The run gets the location of the block, its type with a lit
    redstone ore taken as redstone ore, the stored limit (64 when none
    is stored) and the tool as it was before the break. *)
Theorem run_started_exactly_when (h : Host) (st : Settings) (e : BreakEvent)
    (c : RunCall) :
  snd (trigger h st e) = Started c <->
  listens h st e
  /\ exists veinList_ currentValue,
       match veinList st with
       | None => Some list_default
       | Some text => parseJSON text
       end = Some veinList_
       /\ ~ In (brokenType e) blacklist_
       /\ default true (veinEnabled st) = true
       /\ is_diggable (itemStackBeforeBreak e) (brokenType e) = true
       /\ hunger h = Some currentValue /\ ~ (currentValue == 0)%Q
       /\ In (shape c) handlerNames
       /\ (shape c = "largeTunnel"%string \/ shape c = "smallTunnel"%string
           \/ In (runBlockOf (brokenType e)) veinList_)
       /\ c = mkRunCall (default "shapelessVein"%string (veinShape st))
                        (blockLocation e) (runBlockOf (brokenType e))
                        (default 64 (veinLimit st)) (itemStackBeforeBreak e).
Proof. apply started_iff. Qed.

(** X11. Breaking a blacklisted block while the trigger listens starts
    no run and takes the block off the stored list of the player: the
    list is stored again without the type, the other entries in their
    order. *)
Theorem blacklisted_block_leaves_the_list (h : Host) (st : Settings)
    (e : BreakEvent) (veinList_ : list string) :
  listens h st e ->
  match veinList st with
  | None => Some list_default
  | Some text => parseJSON text
  end = Some veinList_ ->
  In (brokenType e) blacklist_ ->
  let kept :=
    List.filter (fun id => negb (String.eqb id (brokenType e))) veinList_ in
  snd (trigger h st e) = NoRun
  /\ veinList (fst (trigger h st e)) = Some (stringifyJSON kept)
  /\ ~ In (brokenType e) kept
  /\ forall id, id <> brokenType e -> (In id kept <-> In id veinList_).
Proof.
  intros [G1 G2]%listens_guard Ep Hin kept.
  unfold onPlayerBreakBlock. rewrite G1, G2, Ep.
  assert (existsb (String.eqb (brokenType e)) blacklist_ = true) as ->.
  { apply existsb_exists. exists (brokenType e). split; [done|].
    apply String.eqb_refl. }
  cbn. repeat split; try done.
  - subst kept. rewrite filter_In, String.eqb_refl. by intros [_ ?].
  - subst kept. rewrite filter_In. tauto.
  - subst kept. rewrite filter_In. intros Hi. split; [done|].
    apply negb_true_iff, String.eqb_neq. done.
Qed.

(** X12. An event the trigger does not listen to leaves the stored
    settings as they are. An event it listens to stores a value for each
    of the four settings: those that were stored keep their value, the
    others get true, the shapeless shape and 64, and the list gets the
    default list unless the block is blacklisted. After that, a later
    event on a block that is not blacklisted changes none of them. *)
Theorem settings_are_initialised_once (h h' : Host) (st : Settings)
    (e e' : BreakEvent) :
  let st1 := fst (trigger h st e) in
  (~ listens h st e -> trigger h st e = (st, NoRun))
  /\ (listens h st e ->
      veinEnabled st1 = Some (default true (veinEnabled st))
      /\ veinShape st1 = Some (default "shapelessVein"%string (veinShape st))
      /\ veinLimit st1 = Some (default 64 (veinLimit st))
      /\ (~ In (brokenType e) blacklist_ ->
          veinList st1
          = Some (default (stringifyJSON list_default) (veinList st)))
      /\ (~ In (brokenType e') blacklist_ ->
          fst (trigger h' st1 e') = st1)).
Proof.
  cbn zeta. split.
  - intros Hn. unfold onPlayerBreakBlock.
    destruct (negb (isSneaking e) || _) eqn:G1; [done|].
    destruct (isAdding st || isBlacklistAdding st || isDefaultAdding st)
      eqn:G2; [done|].
    exfalso. apply Hn, listens_guard. done.
  - intros [G1 G2]%listens_guard.
    assert (forall x : string, ~ In x blacklist_ ->
              existsb (String.eqb x) blacklist_ = false) as Hbl.
    { intros x Hx. destruct (existsb (String.eqb x) blacklist_) eqn:E; [|done].
      apply existsb_exists in E as (y & Hy & Hye).
      apply String.eqb_eq in Hye. by subst y. }
    assert (exists a b c d,
              fst (trigger h st e)
              = mkSettings (isAdding st) (isBlacklistAdding st)
                           (isDefaultAdding st) (Some a) (Some b) (Some c)
                           (Some d)
              /\ a = default true (veinEnabled st)
              /\ b = default "shapelessVein"%string (veinShape st)
              /\ c = default 64 (veinLimit st)
              /\ (~ In (brokenType e) blacklist_ ->
                  d = default (stringifyJSON list_default) (veinList st)))
      as (a & b & c & d & -> & Ha & Hb & Hc & Hd).
    { unfold onPlayerBreakBlock. rewrite G1, G2.
      destruct (match veinList st with
                | Some text => parseJSON text
                | None => Some list_default
                end) as [vl|]; [|cbn; eauto 10].
      destruct (existsb (String.eqb (brokenType e)) blacklist_) eqn:Eb.
      { cbn. do 4 eexists. split; [reflexivity|]. repeat split.
        intros Hx%Hbl. congruence. }
      repeat case_match; cbn; eauto 10. }
    cbn [veinEnabled veinShape veinLimit veinList].
    split; [by subst|]. split; [by subst|]. split; [by subst|].
    split; [by intros ->%Hd|].
    intros Hx%Hbl. unfold onPlayerBreakBlock.
    cbn [isAdding isBlacklistAdding isDefaultAdding veinEnabled veinShape
         veinLimit veinList default from_option].
    rewrite G2, Hx.
    repeat case_match; done.
Qed.

End TriggerRuns.

Lemma blacklisted_block_witness :
  let h := player stoneWorld 20 5 in
  let st := demoSettings "shapelessVein" in
  let defaults := ["minecraft:dirt"; "minecraft:stone"; "minecraft:sand"]%string in
  listens h st demoEvent
  /\ match veinList st with
     | None => Some defaults
     | Some text => (fun _ => None) text
     end = Some defaults
  /\ In (brokenType demoEvent) ["minecraft:stone"%string]
  /\ let kept :=
       List.filter (fun id => negb (String.eqb id (brokenType demoEvent)))
                   defaults in
     let res := onPlayerBreakBlock defaults ["minecraft:stone"%string]
                  (fun _ _ => true) (fun _ => None)
                  (fun l => String.concat "," l) h st demoEvent in
     snd res = NoRun
     /\ veinList (fst res) = Some (String.concat "," kept)
     /\ ~ In (brokenType demoEvent) kept
     /\ forall id, id <> brokenType demoEvent -> (In id kept <-> In id defaults).
Proof.
  cbn zeta.
  assert (listens (player stoneWorld 20 5) (demoSettings "shapelessVein")
                  demoEvent) as H1 by (repeat split; discriminate).
  assert (In (brokenType demoEvent) ["minecraft:stone"%string]) as H3
    by (left; reflexivity).
  split; [exact H1|]. split; [reflexivity|]. split; [exact H3|].
  exact (blacklisted_block_leaves_the_list
           ["minecraft:dirt"; "minecraft:stone"; "minecraft:sand"]%string
           ["minecraft:stone"%string] (fun _ _ => true) (fun _ => None)
           (fun l => String.concat "," l) (player stoneWorld 20 5)
           (demoSettings "shapelessVein") demoEvent
           ["minecraft:dirt"; "minecraft:stone"; "minecraft:sand"]%string
           H1 eq_refl H3).
Defined.

(** ** Runs, by the class of their events *)

(** *** The components, for any class of events *)

Section Classes.
Variable orc : Oracle.
Variable A : Event -> bool.
Variable item : option Tool.
Hypothesis plain_in : forall e, plainEvent e = true -> A e = true.
Hypothesis tool_in : item <> None -> forall e, toolEvent e = true -> A e = true.

(** An event of the class, by one of the two assumptions. *)
Ltac in_class :=
  first [ apply plain_in; reflexivity
        | apply tool_in; [discriminate | reflexivity]
        | assumption ].

Ltac class_step :=
  first
    [ apply Ext_loot; [in_class|]
    | apply Ext_bind; [|intros ?]
    | apply Ext_tryCatch
    | apply Ext_ret
    | apply Ext_throw
    | apply Ext_get
    | apply Ext_call
    | apply Ext_setHost
    | apply Ext_emit; [in_class | reflexivity]
    | apply Ext_waitTicks; in_class
    | match goal with
      | |- Ext _ (if ?b then _ else _) => destruct b
      | |- Ext _ (match ?x with _ => _ end) => destruct x
      end ].

Lemma toolChanged_in : Ext A (toolChanged orc item).
Proof.
  unfold toolChanged. destruct item; [|apply Ext_ret].
  unfold getEquipment. repeat class_step.
Qed.

Lemma wear_in : Ext A (wear orc item).
Proof.
  unfold wear, getGameMode, setEquipment, playSound.
  destruct item; repeat class_step.
Qed.

Lemma hungerGate_in cont : Ext A (hungerGate orc cont).
Proof. unfold hungerGate, reduceHunger, addEffect. repeat class_step. Qed.

Lemma runCommand_in c : Ext A (runCommand orc c).
Proof. unfold runCommand. repeat class_step. Qed.

Lemma breakBlock_in p b :
  A (EvBreakBlock p) = true -> Ext A (breakBlock orc item p b true).
Proof.
  intros Hp. rewrite breakBlock_unfold.
  apply Ext_bind; [by apply Ext_emit|]. intros _.
  unfold breakBlockRest, hasTag, itemComponent.
  repeat class_step; apply runCommand_in.
Qed.

Lemma breakOrWarn_in p b :
  A (EvBreakBlock p) = true -> Ext A (breakOrWarn orc item p b).
Proof.
  intros Hp. unfold breakOrWarn, consoleWarn.
  apply Ext_tryCatch; [|repeat class_step].
  apply Ext_bind; [by apply breakBlock_in | intros; apply Ext_ret].
Qed.

Lemma waitTicks_in : Ext A (waitTicks orc).
Proof. apply Ext_waitTicks. in_class. Qed.

Lemma checked_in {V} stop (v : V) (rest : M (Flow * V)) :
  Ext A rest -> Ext A (checked orc item stop v rest).
Proof.
  intros Hr. unfold checked. apply Ext_bind; [apply toolChanged_in|].
  intros []; [apply Ext_ret | exact Hr].
Qed.

Lemma floodIter_in eligibleType v :
  (forall pos rest, toCheck v = pos :: rest -> A (EvBreakBlock pos) = true) ->
  Ext A (floodIter orc eligibleType item v).
Proof.
  intros Hp. unfold floodIter. apply checked_in. unfold floodRest.
  destruct (toCheck v) as [|pos rest]; [apply Ext_throw|].
  specialize (Hp pos rest eq_refl).
  destruct (decide (pos ∈ visited v)); [apply Ext_ret|].
  cbn zeta. unfold getBlockOrUndefined.
  apply Ext_bind; [repeat class_step|]. intros targetBlock.
  destruct (_ || _); [|apply Ext_ret].
  apply Ext_bind; [apply wear_in|]. intros _.
  apply Ext_bind; [apply hungerGate_in|]. intros [|]; [apply Ext_ret|].
  apply Ext_bind; [|intros; apply Ext_ret].
  destruct targetBlock as [b|]; [|apply Ext_ret].
  apply Ext_bind; [by apply breakBlock_in | intros; apply waitTicks_in].
Qed.

Lemma lineRest_in perm pos cont :
  A (EvBreakBlock pos) = true -> Ext A (lineRest orc perm item pos cont).
Proof.
  intros Hp. unfold lineRest, getBlockNow.
  apply Ext_bind; [repeat class_step|]. intros [b|]; [|apply Ext_ret].
  apply Ext_bind; [apply wear_in|]. intros _.
  apply Ext_bind; [apply hungerGate_in|]. intros [|]; [apply Ext_ret|].
  apply Ext_bind; [by apply breakOrWarn_in|]. intros [|]; [apply Ext_ret|].
  apply Ext_bind; [apply waitTicks_in | intros; apply Ext_ret].
Qed.

Lemma smallRest_in perm pos cont :
  A (EvBreakBlock pos) = true -> Ext A (smallRest orc perm item pos cont).
Proof.
  intros Hp. unfold smallRest, getBlockNow.
  apply Ext_bind; [repeat class_step|]. intros [b|]; [|apply Ext_ret].
  apply Ext_bind; [apply wear_in|]. intros _.
  apply Ext_bind; [apply hungerGate_in|]. intros [|]; [apply Ext_ret|].
  apply Ext_bind; [by apply breakOrWarn_in|]. intros [|]; [apply Ext_ret|].
  apply Ext_bind; [apply waitTicks_in | intros; apply Ext_ret].
Qed.

Lemma largeRest_in perm maxBlocks pos v :
  A (EvBreakBlock pos) = true ->
  Ext A (largeRest orc perm item maxBlocks pos v).
Proof.
  intros Hp. unfold largeRest, getBlockNow.
  apply Ext_bind; [repeat class_step|]. intros [b|]; [|apply Ext_ret].
  apply Ext_bind; [apply wear_in|]. intros _.
  apply Ext_bind; [apply hungerGate_in|]. intros [|]; [apply Ext_ret|].
  apply Ext_bind; [by apply breakOrWarn_in|]. intros [|]; [apply Ext_ret|].
  cbn zeta. destruct (_ <=? _); [apply Ext_ret|].
  apply Ext_bind; [apply waitTicks_in | intros; apply Ext_ret].
Qed.

(** A loop over a list, when every pass stays in the class. *)
Lemma forEach_in {X V} (body : X -> V -> M (Flow * V)) (l : list X) :
  (forall a, In a l -> forall v, Ext A (body a v)) ->
  forall v, Ext A (forEach l body v).
Proof.
  induction l as [|a l IH]; intros Hb v; cbn; [apply Ext_ret|].
  apply Ext_bind; [apply Hb; by left|].
  intros [[] v']; try apply Ext_ret.
  apply IH. intros a' Ha'. apply Hb. by right.
Qed.

(** The emission stays in every class that has the plain events. *)
Lemma dropVeinLoot_in s r s' :
  dropVeinLoot orc s = (r, s') -> extends A s s'.
Proof.
  intros [H _]%dropVeinLoot_events.
  eapply extends_weaken; [|exact H].
  intros e He. apply plain_in. by destruct e.
Qed.

(** From the body of a handler to the handler. *)
Lemma tryFinally_in (body : M unit) s :
  (forall r s', body s = (r, s') -> extends A s s') ->
  extends A s (snd (tryFinally body (dropVeinLoot orc) s)).
Proof.
  intros Hb. unfold tryFinally.
  destruct (body s) as [r s1] eqn:E. specialize (Hb _ _ eq_refl).
  destruct (dropVeinLoot orc s1) as [r2 s2] eqn:E2.
  apply dropVeinLoot_in in E2.
  assert (extends A s s2) by (eapply extends_trans; eauto).
  destruct r as [[]| |]; destruct r2 as [[]| |]; cbn; done.
Qed.

Lemma floodLoop_in eligibleType maxVein
    (I : FloodVars -> Prop) fuel : forall v s r s',
  (forall v, I v ->
     forall pos rest, toCheck v = pos :: rest -> cont v < maxVein ->
     A (EvBreakBlock pos) = true) ->
  (forall v s s' v',
     I v -> floodIter orc eligibleType item v s = (Ok (Next, v'), s') ->
     I v') ->
  I v ->
  floodLoop orc fuel eligibleType item maxVein v s = (r, s') ->
  extends A s s'.
Proof.
  induction fuel as [|fuel IH]; intros v s r s' Hcls Hstep Hv.
  - rewrite floodLoop_0. destruct (_ && _); intros [= <- <-]; apply extends_refl.
  - rewrite floodLoop_S.
    destruct ((0 <? length (toCheck v))%nat && (cont v <? maxVein)) eqn:G.
    2:{ intros [= <- <-]. apply extends_refl. }
    apply andb_true_iff in G as [_ G]. apply Z.ltb_lt in G.
    unfold bind.
    destruct (floodIter orc eligibleType item v s) as [ri si] eqn:Ei.
    pose proof Ei as Ei'.
    apply (Ext_run A) in Ei as [Hx Hn].
    2:{ apply floodIter_in. intros pos rest E. by eapply Hcls. }
    destruct ri as [[[] v']| |]; try (by intros [= <- <-]).
    intros E. eapply extends_trans; [exact Hx|].
    eapply IH; [exact Hcls | exact Hstep | | exact E].
    by eapply (Hstep v s).
Qed.

End Classes.

(** *** The handlers, for any class of events *)

Lemma getViewDirection_run orc s r s' :
  getViewDirection orc s = (r, s') ->
  same s s' /\ (r = Throw \/ r = Ok (viewDirection (host s))).
Proof.
  unfold getViewDirection, bind, call, get, ret.
  destruct (faultAt orc GetViewDirection (calls s)); intros [= <- <-];
    unfold same; cbn; auto.
Qed.

Lemma same_extends A s s' : same s s' -> extends A s s'.
Proof. intros (Ht & Hl & _). exists []. by rewrite app_nil_r, Ht, Hl. Qed.

Lemma largeDepths_range orc perm h axis origin maxLength d :
  In d (largeDepths orc perm h axis origin maxLength) -> 0 <= d <= maxLength.
Proof.
  unfold largeDepths, sliceStart.
  intros H%list_elem_of_In%elem_of_seqZ.
  destruct (hasSolid _ _ _ _ _ _); lia.
Qed.

Section Handlers.
Variable orc : Oracle.
Variable A : Event -> bool.
Variable item : option Tool.
Hypothesis plain_in : forall e, plainEvent e = true -> A e = true.
Hypothesis tool_in : item <> None -> forall e, toolEvent e = true -> A e = true.

Lemma floodFill_in eligibleType origin maxVein h :
  (forall p, A (EvBreakBlock p) = true) ->
  forallb A (trace (snd (floodFill orc eligibleType origin maxVein item
                                   (initSt h)))) = true.
Proof.
  intros Hp.
  assert (extends A (initSt h)
            (snd (floodFill orc eligibleType origin maxVein item (initSt h))))
    as (t & Ht & Hc & _); [|by rewrite Ht].
  unfold floodFill. apply tryFinally_in; [done|]. intros r s'.
  unfold bind. destruct (call orc GetDimension (initSt h)) as [rc sc] eqn:Ec.
  apply call_same in Ec as [Hs _]. apply (same_extends A) in Hs.
  destruct rc as [?| |]; try (by intros [= <- <-]).
  intros E. eapply extends_trans; [exact Hs|].
  eapply (floodLoop_in orc A item plain_in tool_in _ _ (fun _ => True));
    [| |exact I|exact E]; done.
Qed.

(** The prologue of the tunnel handlers: the axis is read off the aim
    of the player in the host the run starts in. *)
Lemma tunnel_in (loop : Axis -> Z -> Host -> M unit) h s r s' :
  same (initSt h) s ->
  (forall s0 r s', host s0 = h -> 
     loop (fst (aimAxis true (viewDirection h)))
          (snd (aimAxis true (viewDirection h))) h s0 = (r, s') ->
     extends A s0 s') ->
  bind (call orc GetDimension) (fun _ =>
  bind (getViewDirection orc) (fun v =>
  let '(axis, stepSign) := aimAxis true v in
  bind get (fun s => loop axis stepSign (host s)))) s = (r, s') ->
  extends A s s'.
Proof.
  intros (_ & _ & Hh) Hloop. cbn in Hh. unfold bind at 1.
  destruct (call orc GetDimension s) as [rc sc] eqn:Ec.
  apply call_same in Ec as [Hs _].
  destruct rc as [?| |];
    try (intros [= <- <-]; by apply same_extends).
  unfold bind at 1.
  destruct (getViewDirection orc sc) as [rv sv] eqn:Ev.
  apply getViewDirection_run in Ev as [Hs2 Hv].
  pose proof (same_trans _ _ _ Hs Hs2) as Hs3.
  destruct Hv as [-> | ->];
    [intros [= <- <-]; by apply same_extends|].
  destruct Hs as (_ & _ & Hh1). destruct Hs3 as (Ht3 & Hl3 & Hh3).
  rewrite Hh1, Hh.
  destruct (aimAxis true (viewDirection h)) as [axis sgn] eqn:Ea.
  unfold bind, get. rewrite Hh3, Hh. intros E.
  apply (extends_trans _ s sv); [apply same_extends; by repeat split|].
  cbn [fst snd] in Hloop. eapply Hloop; [|exact E]. congruence.
Qed.

Lemma then_done_in {V} (loop : M (Flow * V)) s r s' :
  (forall r s', loop s = (r, s') -> extends A s s') ->
  bind loop (fun _ => ret tt) s = (r, s') -> extends A s s'.
Proof.
  intros Hloop. unfold bind. destruct (loop s) as [rl sl] eqn:El.
  specialize (Hloop _ _ eq_refl).
  destruct rl as [?| |]; by intros [= <- <-].
Qed.

Lemma tunnel_cells_in (sh : Shape) origin perm maxVein h :
  (forall p,
     In p (tunnelCells sh (fst (aimAxis true (viewDirection h)))
                       (snd (aimAxis true (viewDirection h))) origin maxVein) ->
     A (EvBreakBlock p) = true) ->
  match sh with
  | LargeTunnel | SmallTunnel | LineTunnel =>
      forallb A (trace (snd (veinHandler orc sh origin perm maxVein item
                                         (initSt h)))) = true
  | _ => True
  end.
Proof.
  intros Hp.
  set (axis := fst (aimAxis true (viewDirection h))) in *.
  set (sgn := snd (aimAxis true (viewDirection h))) in *.
  destruct sh; try exact I; cbn [veinHandler].
  - assert (extends A (initSt h)
              (snd (largeTunnel orc origin perm maxVein item (initSt h))))
      as (t & Ht & Hc & _); [|by rewrite Ht].
    unfold largeTunnel. apply tryFinally_in; [done|]. intros r s'.
    apply (tunnel_in
             (fun axis sgn h0 =>
                bind (forEach (largeDepths orc perm h0 axis origin (maxVein / 4))
                              (largeSlice orc origin perm item (maxVein * 2)
                                          axis sgn)
                              (0, 0, true))
                     (fun _ => ret tt)) h); [done|].
    intros s0 r0 s0' Hh0. apply then_done_in. intros r1 s1.
    apply Ext_run. apply forEach_in. intros d Hd [[c b] outward].
    apply largeDepths_range in Hd.
    unfold largeSlice. apply Ext_bind.
    + apply forEach_in. intros o Ho v. unfold largeIter.
      apply checked_in; try done. apply largeRest_in; try done.
      apply Hp. cbn [tunnelCells]. apply in_flat_map. exists d. split.
      * apply list_elem_of_In, elem_of_seqZ. lia.
      * apply in_map. unfold spiralOffsets in Ho.
        destruct outward; [done | by apply in_rev].
    + intros [[] v]; try apply Ext_ret; destruct (negb _); apply Ext_ret.
  - assert (extends A (initSt h)
              (snd (smallTunnel orc origin perm maxVein item (initSt h))))
      as (t & Ht & Hc & _); [|by rewrite Ht].
    unfold smallTunnel. apply tryFinally_in; [done|]. intros r s'.
    apply (tunnel_in
             (fun axis sgn _ =>
                bind (forEach (seqZ 0 (maxVein / 2))
                              (smallSlice orc origin perm item axis sgn) 0)
                     (fun _ => ret tt)) h); [done|].
    intros s0 r0 s0' Hh0. apply then_done_in. intros r1 s1.
    apply Ext_run. apply forEach_in. intros d Hd c.
    unfold smallSlice. apply forEach_in. intros o Ho c'. unfold smallIter.
    apply checked_in; try done. apply smallRest_in; try done.
    apply Hp. cbn [tunnelCells]. apply in_flat_map. exists d. split; [done|].
    by apply in_map.
  - assert (extends A (initSt h)
              (snd (lineTunnel orc origin perm maxVein item (initSt h))))
      as (t & Ht & Hc & _); [|by rewrite Ht].
    unfold lineTunnel. apply tryFinally_in; [done|]. intros r s'.
    apply (tunnel_in
             (fun axis sgn _ =>
                bind (forEach (seqZ 0 maxVein)
                              (lineIter orc origin perm item axis sgn) 0)
                     (fun _ => ret tt)) h); [done|].
    intros s0 r0 s0' Hh0. apply then_done_in. intros r1 s1.
    apply Ext_run. apply forEach_in. intros d Hd c. unfold lineIter.
    apply checked_in; try done. apply lineRest_in; try done.
    apply Hp. cbn [tunnelCells].
    apply (in_map (fun d => advance axis origin (d * sgn))). done.
Qed.

End Handlers.

(** *** A run without a tool *)

Lemma plain_handsOff e : plainEvent e = true -> handsOff e = true.
Proof. by destruct e. Qed.

(** X14. A run that was started with an empty hand makes no call on the
    equipment of the player: it never reads the mainhand, never damages
    a tool, never sets the mainhand and never plays the sound of a tool
    that breaks. *)
Theorem empty_hand_run_leaves_equipment_alone (orc : Oracle) (sh : Shape)
    (origin : Pos) (brokenBlock : string) (maxVein : Z) (h : Host) :
  forallb handsOff
    (trace (snd (veinHandler orc sh origin brokenBlock maxVein None
                             (initSt h)))) = true.
Proof.
  assert (@None Tool <> None ->
          forall e, toolEvent e = true -> handsOff e = true) as Ht by done.
  destruct sh; cbn [veinHandler];
    try (apply (floodFill_in orc handsOff None plain_handsOff Ht); done).
  - by apply (tunnel_cells_in orc handsOff None plain_handsOff Ht LargeTunnel).
  - by apply (tunnel_cells_in orc handsOff None plain_handsOff Ht SmallTunnel).
  - by apply (tunnel_cells_in orc handsOff None plain_handsOff Ht LineTunnel).
Qed.

(** *** Where a tunnel reaches *)

Lemma breakPositions_app t u :
  breakPositions (t ++ u) = breakPositions t ++ breakPositions u.
Proof. unfold breakPositions. apply flat_map_app. Qed.

Lemma breaksWithin_positions (S : Pos -> bool) t :
  forallb (breaksWithin S) t = true ->
  Forall (fun p => S p = true) (breakPositions t).
Proof.
  induction t as [|e t IH]; cbn; [constructor|].
  intros [He Ht]%andb_true_iff. destruct e; cbn; auto.
Qed.

Lemma offset_zero p : offset p (mkPos 0 0 0) = p.
Proof. destruct p. unfold offset. cbn. f_equal; lia. Qed.

Lemma along_advance axis origin k :
  along axis (advance axis origin k) = along axis origin + k.
Proof. by destruct axis. Qed.

Lemma tunnelCells_inTunnel sh axis sgn origin maxVein p :
  In p (tunnelCells sh axis sgn origin maxVein) ->
  inTunnel sh axis sgn origin maxVein p.
Proof.
  destruct sh; cbn [tunnelCells inTunnel]; try done.
  - intros (d & Hd & Hp)%in_flat_map.
    apply list_elem_of_In, elem_of_seqZ in Hd.
    exists d. split; [lia|].
    pose proof (slice_square axis (advance axis origin (d * sgn)) p true)
      as [Hsq _].
    cbn zeta in Hsq. apply Hsq in Hp as [Ha Hr].
    by rewrite Ha, along_advance.
  - intros (d & Hd & Hp)%in_flat_map.
    apply list_elem_of_In, elem_of_seqZ in Hd.
    exists d. split; [lia|].
    cbn in Hp. rewrite offset_zero in Hp. intuition.
  - intros (d & Hp & Hd)%in_map_iff.
    apply list_elem_of_In, elem_of_seqZ in Hd.
    exists d. split; [lia|done].
Qed.

(** X15. The blocks that a tunnel shape hands to [breakBlock] lie in the
    tunnel that the aim of the player fixes when the run starts. With
    [d] the depth from the block that was broken along the axis, in the
    direction of the aim: the line tunnel breaks only on the axis, at
    depths from 0 to below the limit; the small tunnel only on the axis
    and one block above it, at depths from 0 to below half the limit;
    the large tunnel only at most one step off the axis, at depths from
    0 to a quarter of the limit. *)
Theorem tunnel_breaks_stay_in_the_tunnel (orc : Oracle) (sh : Shape)
    (origin : Pos) (brokenBlock : string) (maxVein : Z) (item : option Tool)
    (h : Host) :
  let axis := fst (aimAxis true (viewDirection h)) in
  let stepSign := snd (aimAxis true (viewDirection h)) in
  Forall (inTunnel sh axis stepSign origin maxVein)
         (breakPositions
            (trace (snd (veinHandler orc sh origin brokenBlock maxVein item
                                     (initSt h))))).
Proof.
  cbn zeta.
  set (axis := fst (aimAxis true (viewDirection h))).
  set (sgn := snd (aimAxis true (viewDirection h))).
  set (cells := tunnelCells sh axis sgn origin maxVein).
  set (S := fun q : Pos => bool_decide (q ∈ cells)).
  assert (forall e, plainEvent e = true -> breaksWithin S e = true) as Hpl
    by (by intros []).
  assert (item <> None -> forall e, toolEvent e = true ->
          breaksWithin S e = true) as Htl by (by intros _ []).
  pose proof (tunnel_cells_in orc (breaksWithin S) item Hpl Htl sh origin
                brokenBlock maxVein h) as H.
  assert (forall t, forallb (breaksWithin S) t = true ->
            Forall (inTunnel sh axis sgn origin maxVein) (breakPositions t))
    as Hconv.
  { intros t Ht%breaksWithin_positions.
    eapply Forall_impl; [exact Ht|]. intros p Hp. cbn beta in Hp.
    apply tunnelCells_inTunnel, list_elem_of_In.
    by apply bool_decide_eq_true in Hp. }
  assert (forall p, In p cells -> breaksWithin S (EvBreakBlock p) = true)
    as Hcells.
  { intros p Hp. cbn. by apply bool_decide_eq_true, list_elem_of_In. }
  destruct sh; try (apply Hconv, H, Hcells);
    apply Forall_forall; intros; exact I.
Qed.

(** ** The flood-fill loop *)

(** *** The positions a pass breaks *)

Lemma side_positions t : forallb sideEvent t = true -> breakPositions t = [].
Proof.
  unfold breakPositions. induction t as [|e t IH]; [done|].
  cbn [forallb]. intros [He Ht]%andb_true_iff. cbn. rewrite IH by done.
  by destruct e.
Qed.

Lemma extends_side_positions s s' :
  extends sideEvent s s' ->
  breakPositions (trace s') = breakPositions (trace s).
Proof.
  intros (t & E & Ht & _).
  by rewrite E, breakPositions_app, (side_positions t), app_nil_r.
Qed.

Lemma entered_positions p s s' :
  entered p s s' ->
  breakPositions (trace s') = breakPositions (trace s) ++ [p].
Proof. intros [E _]. by rewrite E, breakPositions_app. Qed.

Lemma readEquipment_positions s s' :
  readEquipment s s' ->
  breakPositions (trace s') = breakPositions (trace s).
Proof. intros (E & _). by rewrite E, breakPositions_app, app_nil_r. Qed.

(** Running a component that only makes side events. *)
Ltac go_side lem :=
  let T := type of lem in
  lazymatch T with
  | Ext _ ?m =>
      match goal with
      | |- context [m ?s] =>
          let E := fresh "E" in
          let X := fresh "X" in
          let N := fresh "N" in
          let r := fresh "r" in
          let s' := fresh "s" in
          destruct (m s) as [r s'] eqn:E;
          apply (Ext_run _ _ _ _ _ lem) in E as [X N];
          destruct r as [?| |]; [ | | done]
      end
  end.

(** Running [breakBlock]. *)
Ltac go_break :=
  match goal with
  | |- context [breakBlock ?o ?i ?p ?b ?c ?s] =>
      let E := fresh "E" in
      let X := fresh "X" in
      let N := fresh "N" in
      let B := fresh "B" in
      let r := fresh "r" in
      let s' := fresh "s" in
      let s0 := fresh "s" in
      destruct (breakBlock o i p b c s) as [r s'] eqn:E;
      apply breakBlock_run in E as (N & s0 & B & X);
      destruct r as [?| |]; [ | | done]
  end.

Lemma first_position (pos : Pos) (X : gset Pos) :
  pos ∉ X -> (size ({[pos]} ∪ X) =? 1)%nat = true -> X = ∅.
Proof.
  intros Hn H%Nat.eqb_eq.
  rewrite size_union, size_singleton in H
    by (intros x ->%elem_of_singleton; done).
  apply leibniz_equiv, size_empty_iff. lia.
Qed.

Section FloodPass.
Variable orc : Oracle.

#[local] Arguments wear : simpl never.
#[local] Arguments hungerGate : simpl never.
#[local] Arguments breakBlock : simpl never.
#[local] Arguments waitTicks : simpl never.

Lemma floodRest_pass eligibleType item v pos rest s1 r s' :
  toCheck v = pos :: rest ->
  floodRest orc eligibleType item v s1 = (r, s') ->
  floodPass v pos rest (breakPositions (trace s1))
            (breakPositions (trace s')) r.
Proof.
  intros Eq. unfold floodRest, floodPass. rewrite Eq.
  destruct (decide (pos ∈ visited v)) as [Hin|Hin].
  { intros [= <- <-]. left. cbn. repeat split; auto. }
  cbn zeta. unfold bind at 1, getBlockOrUndefined, bind at 1, get, ret at 1.
  destruct (match blockAt (host s1) pos with
            | QBlock b => Some b | _ => None end) as [b|] eqn:Eb.
  - destruct ((size ({[pos]} ∪ visited v) =? 1)%nat
              || eligibleType (blockType b)).
    2:{ intros [= <- <-]. left. cbn. repeat split; auto. }
    unfold bind at 1. go_side (Ext_wear orc item).
    2:{ intros [= <- <-]. left. by apply extends_side_positions. }
    unfold bind at 1. go_side (Ext_hungerGate orc (cont v)).
    2:{ intros [= <- <-]. left.
        apply extends_side_positions in X, X0. congruence. }
    apply extends_side_positions in X, X0.
    match goal with |- context [if ?c then _ else _] => destruct c end.
    { intros [= <- <-]. left. congruence. }
    cbn zeta. unfold bind at 1 2. go_break.
    2:{ intros [= <- <-]. right. split; [|done].
        apply extends_side_positions in X1. apply entered_positions in B.
        congruence. }
    apply extends_side_positions in X1. apply entered_positions in B.
    go_side (Ext_waitTicks orc sideEvent eq_refl).
    + intros [= <- <-]. right. cbn. repeat split; try done.
      right. apply extends_side_positions in X2. congruence.
    + intros [= <- <-]. right. split; [|done].
      apply extends_side_positions in X2. congruence.
  - rewrite orb_false_r.
    destruct (size ({[pos]} ∪ visited v) =? 1)%nat eqn:Es.
    2:{ intros [= <- <-]. left. cbn. repeat split; auto. }
    apply first_position in Es; [|done].
    unfold bind at 1. go_side (Ext_wear orc item).
    2:{ intros [= <- <-]. left. by apply extends_side_positions. }
    unfold bind at 1. go_side (Ext_hungerGate orc (cont v)).
    2:{ intros [= <- <-]. left.
        apply extends_side_positions in X, X0. congruence. }
    apply extends_side_positions in X, X0.
    match goal with |- context [if ?c then _ else _] => destruct c end.
    { intros [= <- <-]. left. congruence. }
    cbn zeta. intros [= <- <-]. right. cbn. repeat split; try done.
    left. split; [congruence|done].
Qed.

Lemma floodIter_pass eligibleType item v pos rest s r s' :
  toCheck v = pos :: rest ->
  floodIter orc eligibleType item v s = (r, s') ->
  floodPass v pos rest (breakPositions (trace s))
            (breakPositions (trace s')) r.
Proof.
  intros Eq. unfold floodIter, checked, bind.
  destruct (toolChanged_cases orc item s)
    as [[-> H] | [(it & s1 & -> & H & Hs) | (it & s1 & -> & H & Hr)]];
    rewrite H; clear H.
  - by apply floodRest_pass.
  - intros [= <- <-]. left. destruct Hs as (E & _). by rewrite E.
  - apply readEquipment_positions in Hr. rewrite <- Hr.
    destruct (negb _); [|by apply floodRest_pass].
    intros [= <- <-]. by left.
Qed.

End FloodPass.

(** *** Between passes *)

Lemma reach_self p : reach p p = 0.
Proof. unfold reach. by rewrite !Z.sub_diag. Qed.

Lemma reach_le p o k :
  reach p o <= k <->
  Z.abs (px p - px o) <= k /\ Z.abs (py p - py o) <= k
  /\ Z.abs (pz p - pz o) <= k.
Proof. unfold reach. rewrite !Z.max_lub_iff. tauto. Qed.

Lemma reach_triangle p q o : reach p o <= reach p q + reach q o.
Proof.
  pose proof (proj1 (reach_le p q (reach p q)) (Z.le_refl _)) as (A1 & A2 & A3).
  pose proof (proj1 (reach_le q o (reach q o)) (Z.le_refl _)) as (B1 & B2 & B3).
  apply reach_le.
  generalize dependent (reach p q). generalize dependent (reach q o).
  intros. repeat split; lia.
Qed.

Lemma neighbour_reach p q : In q (map (offset p) dirs) -> reach q p = 1.
Proof. apply neighbours_spec. Qed.

Lemma grown_snoc origin B p :
  grown origin B -> reachable origin B p -> grown origin (B ++ [p]).
Proof.
  intros Hg Hp l1 q l2 E.
  destruct l2 as [|x l2 _] using rev_ind.
  - apply app_inj_tail in E as [-> ->]. exact Hp.
  - rewrite app_comm_cons, app_assoc in E.
    apply app_inj_tail in E as [-> _]. by eapply Hg.
Qed.

Lemma reachable_more origin B p q :
  reachable origin B q -> reachable origin (B ++ [p]) q.
Proof.
  intros [-> | (c & Hc & Hr)]; [by left|]. right. exists c. split; [|done].
  destruct Hc as [-> | Hc]; [by left|]. right. apply in_or_app. auto.
Qed.

Lemma singleton_union_nonempty (pos : Pos) (X : gset Pos) : {[pos]} ∪ X <> ∅.
Proof.
  intros H. apply (not_elem_of_empty (C := gset Pos) pos).
  rewrite <- H. apply elem_of_union_l. by apply elem_of_singleton.
Qed.

Lemma floodInv_goal origin maxVein v B :
  floodInv origin maxVein v B -> floodGoal origin maxVein B.
Proof. intros (H1 & _ & _ & _ & H5 & H6 & _). by repeat split. Qed.

(** The position the pass takes from the queue may be broken. *)
Lemma floodInv_break origin maxVein v B pos rest :
  floodInv origin maxVein v B -> toCheck v = pos :: rest ->
  cont v < maxVein -> pos ∉ visited v ->
  floodGoal origin maxVein (B ++ [pos]).
Proof.
  intros (H1 & H2 & H3 & H4 & H5 & H6 & H7 & H8) Eq Hc Hn.
  rewrite Eq in *. repeat split.
  - apply NoDup_app. repeat split; [done| |apply NoDup_singleton].
    intros x Hx ->%list_elem_of_singleton. apply Hn, H2.
    by apply list_elem_of_In.
  - intros p [Hp | [<- | []]]%in_app_or; [by apply H5|].
    specialize (H4 pos (or_introl eq_refl)). lia.
  - apply grown_snoc; [done|]. apply H7. by left.
Qed.

Lemma floodInv_step origin maxVein v B B' pos rest v' :
  floodInv origin maxVein v B -> toCheck v = pos :: rest ->
  cont v < maxVein ->
  floodPass v pos rest B B' (Ok (Next, v')) ->
  floodInv origin maxVein v' B'.
Proof.
  intros Hinv Eq Hc Hp. pose proof Hinv as Hinv'.
  destruct Hinv as (H1 & H2 & H3 & H4 & H5 & H6 & H7 & H8).
  rewrite Eq in H4, H7, H8. cbn in Hp. unfold floodInv.
  destruct Hp as [(-> & Er & Ec & Hv) | (Er & Ec & Ev & Hn & Hb)].
  - rewrite Er, Ec.
    assert (visited v ⊆ visited v' /\ visited v' <> ∅) as [Hsub Hne].
    { destruct Hv as [[-> Hin] | ->]; split; try done.
      - intros H. rewrite H in Hin. by apply not_elem_of_empty in Hin.
      - apply union_subseteq_r.
      - apply singleton_union_nonempty. }
    repeat split; try done.
    + intros p Hp. apply Hsub. by apply H2.
    + intros q Hq. apply H4. by right.
    + intros q Hq. apply H7. by right.
  - rewrite Er, Ec, Ev.
    assert (reach pos origin <= cont v) as Hpos by (apply H4; by left).
    destruct Hb as [[-> He] | ->].
    + specialize (H8 He). injection H8 as -> ->.
      repeat split; try done.
      * intros p Hp. apply elem_of_union_r. by apply H2.
      * lia.
      * intros q Hq. cbn in Hq. apply neighbour_reach in Hq. lia.
      * intros q Hq. cbn in Hq. apply neighbour_reach in Hq.
        right. exists origin. auto.
      * by intros ?%singleton_union_nonempty.
    + pose proof (floodInv_break _ _ _ _ _ _ Hinv' Eq Hc Hn) as (G1 & G2 & G3).
      repeat split; try done.
      * intros p [Hp | [<- | []]]%in_app_or.
        -- apply elem_of_union_r. by apply H2.
        -- apply elem_of_union_l. by apply elem_of_singleton.
      * lia.
      * intros q [Hq | Hq]%in_app_or.
        -- specialize (H4 q (or_intror Hq)). lia.
        -- apply neighbour_reach in Hq.
           pose proof (reach_triangle q pos origin). lia.
      * intros q [Hq | Hq]%in_app_or.
        -- apply reachable_more, H7. by right.
        -- apply neighbour_reach in Hq. right. exists pos. split; [|done].
           right. apply in_or_app. right. by left.
      * by intros ?%singleton_union_nonempty.
Qed.

Section FloodLoop.
Variable orc : Oracle.

Lemma floodLoop_goal eligibleType item origin maxVein fuel : forall v s r s',
  floodInv origin maxVein v (breakPositions (trace s)) ->
  floodLoop orc fuel eligibleType item maxVein v s = (r, s') ->
  floodGoal origin maxVein (breakPositions (trace s')).
Proof.
  induction fuel as [|fuel IH]; intros v s r s' Hinv.
  - rewrite floodLoop_0. destruct (_ && _); intros [= <- <-];
      by eapply floodInv_goal.
  - rewrite floodLoop_S.
    destruct ((0 <? length (toCheck v))%nat && (cont v <? maxVein)) eqn:G.
    2:{ intros [= <- <-]. by eapply floodInv_goal. }
    apply andb_true_iff in G as [G1 G2]. apply Z.ltb_lt in G2.
    destruct (toCheck v) as [|pos rest] eqn:Eq; [done|].
    unfold bind.
    destruct (floodIter orc eligibleType item v s) as [ri si] eqn:Ei.
    apply (floodIter_pass orc _ _ _ pos rest) in Ei; [|done].
    assert (forall B', B' = breakPositions (trace s)
                       \/ B' = breakPositions (trace s) ++ [pos]
                          /\ pos ∉ visited v ->
                       floodGoal origin maxVein B') as Hend.
    { intros B' [-> | [-> Hn]]; [by eapply floodInv_goal|].
      by eapply floodInv_break. }
    destruct ri as [[[] v']| |]; try (intros [= <- <-]; by apply Hend).
    apply IH. by eapply floodInv_step.
Qed.

Lemma spawn_positions t : forallb isSpawn t = true -> breakPositions t = [].
Proof.
  unfold breakPositions. induction t as [|e t IH]; [done|].
  cbn [forallb]. intros [He Ht]%andb_true_iff. cbn. rewrite IH by done.
  by destruct e.
Qed.

Lemma floodFill_goal eligibleType origin maxVein item h :
  floodGoal origin maxVein
    (breakPositions
       (trace (snd (floodFill orc eligibleType origin maxVein item
                              (initSt h))))).
Proof.
  unfold floodFill, tryFinally.
  destruct (bind _ _ (initSt h)) as [r s1] eqn:E.
  assert (floodGoal origin maxVein (breakPositions (trace s1))) as Hg.
  { revert E. unfold bind.
    destruct (call orc GetDimension (initSt h)) as [rc sc] eqn:Ec.
    apply call_same in Ec as [(Et & _) _]. cbn in Et.
    assert (floodInv origin maxVein (mkFlood [origin] ∅ 0)
                     (breakPositions (trace sc))) as Hinv.
    { rewrite Et. cbn. repeat split; try done.
      - constructor.
      - intros q [<- | []]. rewrite reach_self. done.
      - intros l1 p l2 E. by destruct l1.
      - intros q [<- | []]. by left. }
    destruct rc as [?| |].
    - by apply floodLoop_goal.
    - intros [= <- <-]. by eapply floodInv_goal.
    - intros [= <- <-]. by eapply floodInv_goal. }
  destruct (dropVeinLoot orc s1) as [r2 s2] eqn:E2.
  apply dropVeinLoot_events in E2 as [(t & Et & Hs & _) _].
  assert (breakPositions (trace s2) = breakPositions (trace s1)) as Hb.
  { by rewrite Et, breakPositions_app, (spawn_positions t), app_nil_r. }
  destruct r as [[]| |]; destruct r2 as [[]| |]; cbn; congruence.
Qed.

End FloodLoop.

(** X16. A flood-fill run hands no position to [breakBlock] twice,
    whatever the world does between its passes. *)
Theorem flood_fill_breaks_no_position_twice (orc : Oracle)
    (eligibleType : string -> bool) (origin : Pos) (maxVein : Z)
    (item : option Tool) (h : Host) :
  NoDup (breakPositions
           (trace (snd (floodFill orc eligibleType origin maxVein item
                                  (initSt h))))).
Proof. apply (floodFill_goal orc eligibleType origin maxVein item h). Qed.

(** X17. Every block that a flood-fill run hands to [breakBlock] is
    fewer steps of the neighbour table away from the block that was
    broken than the limit of the run. *)
Theorem flood_fill_stays_within_reach (orc : Oracle)
    (eligibleType : string -> bool) (origin : Pos) (maxVein : Z)
    (item : option Tool) (h : Host) :
  Forall (fun p => reach p origin < maxVein)
         (breakPositions
            (trace (snd (floodFill orc eligibleType origin maxVein item
                                   (initSt h))))).
Proof.
  apply Forall_forall. intros p Hp%list_elem_of_In.
  by apply (floodFill_goal orc eligibleType origin maxVein item h).
Qed.

(** X18. The blocks of a flood-fill run hang together: each block it
    hands to [breakBlock] is the block that was broken, or is one step
    of the neighbour table from it or from a block the run has handed
    to [breakBlock] before. *)
Theorem flood_fill_breaks_a_connected_set (orc : Oracle)
    (eligibleType : string -> bool) (origin : Pos) (maxVein : Z)
    (item : option Tool) (h : Host) :
  grown origin
        (breakPositions
           (trace (snd (floodFill orc eligibleType origin maxVein item
                                  (initSt h))))).
Proof. apply (floodFill_goal orc eligibleType origin maxVein item h). Qed.

(** ** The nausea penalty *)

(** *** Traces with at most one penalty *)

Lemma calm_no_nausea t e :
  forallb calmEvent t = true -> In e t -> isNausea e = false.
Proof.
  rewrite forallb_forall. intros H Hin. specialize (H e Hin).
  unfold calmEvent in H. by destruct (isNausea e).
Qed.

Lemma spawn_no_nausea t e :
  forallb isSpawn t = true -> In e t -> isNausea e = false.
Proof.
  rewrite forallb_forall. intros H Hin. specialize (H e Hin). by destruct e.
Qed.

Lemma nauseaCount_app t u : nauseaCount (t ++ u) = nauseaCount t + nauseaCount u.
Proof. unfold nauseaCount. rewrite List.filter_app, length_app. lia. Qed.

Lemma nauseaCount_none t :
  (forall e, In e t -> isNausea e = false) -> nauseaCount t = 0.
Proof.
  unfold nauseaCount. induction t as [|e t IH]; [done|]. intros H. cbn.
  rewrite (H e) by (by left). apply IH. intros e' He'. apply H. by right.
Qed.

Lemma calmed_calm t u :
  forallb calmEvent t = true -> forallb isSpawn u = true -> calmed (t ++ u).
Proof.
  intros Ht Hu t1 e t2 E He.
  assert (In e (t ++ u)) as Hin by (rewrite E; apply in_elt).
  apply in_app_or in Hin as [Hin | Hin].
  - apply (calm_no_nausea t) in Hin; [congruence|done].
  - apply (spawn_no_nausea u) in Hin; [congruence|done].
Qed.

Lemma calmed_penalised t n u :
  forallb calmEvent t = true -> forallb isSpawn u = true ->
  calmed (t ++ n :: u).
Proof.
  intros Ht Hu t1 e t2 E He.
  apply app_eq_app in E as [l [[E1 E2] | [E1 E2]]].
  - destruct l as [|x l].
    + cbn in E2. by injection E2 as _ <-.
    + injection E2 as <- E2. exfalso.
      assert (In e t) as Hin by (rewrite E1; apply in_or_app; right; by left).
      apply (calm_no_nausea t) in Hin; [congruence|done].
  - destruct l as [|x l].
    + cbn in E2. by injection E2 as _ <-.
    + injection E2 as _ ->. rewrite forallb_app in Hu.
      apply andb_true_iff in Hu as [_ Hu]. cbn in Hu.
      by apply andb_true_iff in Hu as [_ Hu].
Qed.

(** *** The components *)

Section NauseaPasses.
Variable orc : Oracle.

Lemma toolChanged_calm item : Ext calmEvent (toolChanged orc item).
Proof. unfold toolChanged, getEquipment. ext_auto. Qed.

Lemma wear_calm item : Ext calmEvent (wear orc item).
Proof. unfold wear, getGameMode, setEquipment, playSound. ext_auto. Qed.

Lemma runCommand_calm c : Ext calmEvent (runCommand orc c).
Proof. unfold runCommand. ext_auto. Qed.

Lemma breakBlock_calm item p b : Ext calmEvent (breakBlock orc item p b true).
Proof.
  rewrite breakBlock_unfold. apply Ext_bind; [by apply Ext_emit|]. intros _.
  unfold breakBlockRest, hasTag, itemComponent.
  ext_auto; apply runCommand_calm.
Qed.

Lemma breakOrWarn_calm item p b : Ext calmEvent (breakOrWarn orc item p b).
Proof.
  unfold breakOrWarn, consoleWarn.
  apply Ext_tryCatch; [|ext_auto].
  apply Ext_bind; [apply breakBlock_calm | intros; apply Ext_ret].
Qed.

Lemma waitTicks_calm : Ext calmEvent (waitTicks orc).
Proof. by apply Ext_waitTicks. Qed.

Lemma reduceHunger_calm mh ms : Ext calmEvent (reduceHunger orc mh ms).
Proof. unfold reduceHunger. ext_auto. Qed.

(** The hunger step applies the penalty exactly when it stops the
    handler, as its last call. *)
Lemma hungerGate_nausea cont s r s' :
  hungerGate orc cont s = (r, s') ->
  (extends calmEvent s s' /\ r <> Stuck /\ r <> Ok true)
  \/ (penalised s s' /\ r = Ok true).
Proof.
  unfold hungerGate.
  destruct ((Z.rem cont 10 =? 0) && negb (cont =? 0)).
  2:{ intros [= <- <-]. left. split; [apply extends_refl|done]. }
  unfold bind at 1.
  destruct (reduceHunger orc 1 1 s) as [r1 s1] eqn:E1.
  apply (Ext_run calmEvent) in E1 as [X1 N1]; [|apply reduceHunger_calm].
  destruct r1 as [[|]| |]; try (intros [= <- <-]; left; done).
  unfold addEffect, bind, call, emit.
  destruct (faultAt orc AddEffect (calls s1)); intros [= <- <-].
  - left. split; [|done]. eapply extends_trans; [exact X1|].
    exists []. cbn. by rewrite app_nil_r.
  - right. split; [|done]. eexists. split; [|reflexivity].
    eapply extends_trans; [exact X1|]. exists []. cbn. by rewrite app_nil_r.
Qed.

Lemma penalised_after s s1 s' :
  extends calmEvent s s1 -> penalised s1 s' -> penalised s s'.
Proof.
  intros X (s2 & X2 & E). exists s2. split; [|done].
  eapply extends_trans; eauto.
Qed.

#[local] Arguments wear : simpl never.
#[local] Arguments hungerGate : simpl never.

(** The durability step and the hunger step, then either the exit of
    the penalty or a rest that does not apply it. *)
Lemma gate_then {V} (leaves : Flow -> Prop) item cont (fl : Flow) (v : V)
    (rest : M (Flow * V)) s r s' :
  leaves fl -> Ext calmEvent rest ->
  bind (wear orc item) (fun _ =>
  bind (hungerGate orc cont) (fun stop =>
  if stop then ret (fl, v) else rest)) s = (r, s') ->
  nauseaPass leaves s r s'.
Proof.
  intros Hfl Hrest. unfold bind at 1.
  destruct (wear orc item s) as [rw sw] eqn:Ew.
  apply (Ext_run calmEvent) in Ew as [Xw Nw]; [|apply wear_calm].
  destruct rw as [[]| |]; [|intros [= <- <-]; by left|done].
  unfold bind.
  destruct (hungerGate orc cont sw) as [rh sh] eqn:Eh.
  apply hungerGate_nausea in Eh as [(Xh & Nh & Th) | (Ph & ->)].
  - assert (extends calmEvent s sh) as X by (eapply extends_trans; eauto).
    destruct rh as [[|]| |]; try done.
    + intros E. apply (Ext_run calmEvent) in E as [Xr Nr]; [|done].
      left. split; [|done]. eapply extends_trans; eauto.
    + intros [= <- <-]. by left.
  - intros [= <- <-]. right. split; [by eapply penalised_after|]. eauto.
Qed.

Lemma checked_nausea {V} (leaves : Flow -> Prop) item stop (v : V)
    (rest : M (Flow * V)) s r s' :
  (forall s1 r s', rest s1 = (r, s') -> nauseaPass leaves s1 r s') ->
  checked orc item stop v rest s = (r, s') ->
  nauseaPass leaves s r s'.
Proof.
  intros Hrest. unfold checked, bind.
  destruct (toolChanged orc item s) as [rt st] eqn:Et.
  apply (Ext_run calmEvent) in Et as [Xt Nt]; [|apply toolChanged_calm].
  destruct rt as [[|]| |]; try (intros [= <- <-]; by left).
  intros [(X & N) | (P & fl & v' & -> & Hfl)]%Hrest.
  - left. split; [|done]. eapply extends_trans; eauto.
  - right. split; [by eapply penalised_after|]. eauto.
Qed.

Lemma floodIter_nausea eligibleType item v s r s' :
  floodIter orc eligibleType item v s = (r, s') ->
  nauseaPass (fun fl => fl = Break) s r s'.
Proof.
  apply checked_nausea. clear. intros s1 r s'. unfold floodRest.
  destruct (toCheck v) as [|pos rest].
  { intros [= <- <-]. left. split; [apply extends_refl|done]. }
  destruct (decide (pos ∈ visited v)).
  { intros [= <- <-]. left. split; [apply extends_refl|done]. }
  cbn zeta. unfold bind at 1, getBlockOrUndefined, bind at 1, get, ret at 1.
  destruct (_ || _).
  2:{ intros [= <- <-]. left. split; [apply extends_refl|done]. }
  apply gate_then; [done|].
  apply Ext_bind; [|intros; apply Ext_ret].
  destruct (match blockAt (host s1) pos with
            | QBlock b => Some b | _ => None end); [|apply Ext_ret].
  apply Ext_bind; [apply breakBlock_calm | intros; apply waitTicks_calm].
Qed.

Lemma lineIter_nausea origin perm item axis sgn d cont s r s' :
  lineIter orc origin perm item axis sgn d cont s = (r, s') ->
  nauseaPass (fun fl => fl = Break) s r s'.
Proof.
  apply checked_nausea. clear. intros s1 r s'.
  unfold lineRest, bind at 1, getBlockNow, bind at 1, get, ret at 1.
  destruct (getBlock orc true perm (host s1) _) as [b|].
  2:{ intros [= <- <-]. left. split; [apply extends_refl|done]. }
  apply gate_then; [done|].
  apply Ext_bind; [apply breakOrWarn_calm|]. intros [|]; [apply Ext_ret|].
  apply Ext_bind; [apply waitTicks_calm | intros; apply Ext_ret].
Qed.

Lemma smallIter_nausea perm item base off cont s r s' :
  smallIter orc perm item base off cont s = (r, s') ->
  nauseaPass (fun fl => fl = Return) s r s'.
Proof.
  apply checked_nausea. clear. intros s1 r s'.
  unfold smallRest, bind at 1, getBlockNow, bind at 1, get, ret at 1.
  destruct (getBlock orc true perm (host s1) _) as [b|].
  2:{ intros [= <- <-]. left. split; [apply extends_refl|done]. }
  apply gate_then; [done|].
  apply Ext_bind; [apply breakOrWarn_calm|]. intros [|]; [apply Ext_ret|].
  apply Ext_bind; [apply waitTicks_calm | intros; apply Ext_ret].
Qed.

(** *** The loops *)

Lemma calmRun_after s s1 s' :
  extends calmEvent s s1 -> calmRun s1 s' -> calmRun s s'.
Proof.
  intros X [X2 | P]; [left; eapply extends_trans; eauto|].
  right. by eapply penalised_after.
Qed.

Lemma nauseaPass_after {V} leaves s s1 (r : Exit (Flow * V)) s' :
  extends calmEvent s s1 -> nauseaPass leaves s1 r s' ->
  nauseaPass leaves s r s'.
Proof.
  intros X [[X2 N] | [P H]]; [left; split; [eapply extends_trans; eauto|done]|].
  right. split; [by eapply penalised_after | done].
Qed.

(** A loop whose passes leave it when they apply the penalty. *)
Lemma forEach_calm {X V} (body : X -> V -> M (Flow * V)) l v s r s' :
  (forall a v s r s', body a v s = (r, s') ->
     nauseaPass (fun fl => fl <> Next) s r s') ->
  forEach l body v s = (r, s') -> calmRun s s'.
Proof.
  intros Hbody E.
  eapply (forEach_inv
            (fun _ _ s1 => extends calmEvent s s1)
            (fun _ s1 => calmRun s s1));
    [ | | apply extends_refl | exact E].
  - intros a l' v' s1 r1 s1' HI Eb. apply Hbody in Eb.
    apply (nauseaPass_after _ _ _ _ _ HI) in Eb.
    destruct Eb as [[Xb Nb] | [Pb (fl & v'' & -> & Hfl)]].
    + destruct r1 as [[[] ?]| |]; try done; by left.
    + destruct fl; try done; by right.
  - intros v' s1 HI. by left.
Qed.

(** A loop whose passes return when they apply the penalty does so
    too. *)
Lemma forEach_return {X V} (body : X -> V -> M (Flow * V)) l v s r s' :
  (forall a v s r s', body a v s = (r, s') ->
     nauseaPass (fun fl => fl = Return) s r s') ->
  forEach l body v s = (r, s') ->
  nauseaPass (fun fl => fl = Return) s r s'.
Proof.
  intros Hbody E.
  eapply (forEach_inv
            (fun _ _ s1 => extends calmEvent s s1)
            (fun r1 s1 => nauseaPass (fun fl => fl = Return) s r1 s1));
    [ | | apply extends_refl | exact E].
  - intros a l' v' s1 r1 s1' HI Eb. apply Hbody in Eb.
    apply (nauseaPass_after _ _ _ _ _ HI) in Eb.
    destruct Eb as [[Xb Nb] | [Pb (fl & v'' & -> & ->)]].
    + destruct r1 as [[[] ?]| |]; try done; by left.
    + right. eauto.
  - intros v' s1 HI. by left.
Qed.

Lemma floodLoop_calm eligibleType item maxVein fuel : forall v s r s',
  floodLoop orc fuel eligibleType item maxVein v s = (r, s') -> calmRun s s'.
Proof.
  induction fuel as [|fuel IH]; intros v s r s'.
  - rewrite floodLoop_0. destruct (_ && _); intros [= <- <-];
      left; apply extends_refl.
  - rewrite floodLoop_S. destruct (_ && _).
    2:{ intros [= <- <-]. left. apply extends_refl. }
    unfold bind.
    destruct (floodIter orc eligibleType item v s) as [ri si] eqn:Ei.
    apply floodIter_nausea in Ei as [[Xi Ni] | [Pi (fl & v' & -> & ->)]].
    + destruct ri as [[[] v']| |]; try done;
        try (intros [= <- <-]; by left).
      intros E. eapply calmRun_after; [exact Xi|]. by eapply IH.
    + intros [= <- <-]. by right.
Qed.

(** *** The handlers *)

Lemma same_calmRun s s1 s' : same s s1 -> calmRun s1 s' -> calmRun s s'.
Proof. intros H. apply calmRun_after. by apply same_extends. Qed.

Lemma floodFill_calm eligibleType origin maxVein item s r s' :
  bind (call orc GetDimension)
       (fun _ => floodLoop orc (floodFuel maxVein) eligibleType item maxVein
                           (mkFlood [origin] ∅ 0)) s = (r, s') ->
  calmRun s s'.
Proof.
  unfold bind. destruct (call orc GetDimension s) as [rc sc] eqn:Ec.
  apply call_same in Ec as [Hs _].
  destruct rc as [?| |];
    try (intros [= <- <-]; left; by apply same_extends).
  intros E. eapply same_calmRun; [exact Hs|]. by eapply floodLoop_calm.
Qed.

Lemma tunnel_calm {V} (loop : Axis -> Z -> M (Flow * V)) s r s' :
  (forall axis sgn s r s', loop axis sgn s = (r, s') -> calmRun s s') ->
  bind (call orc GetDimension) (fun _ =>
  bind (getViewDirection orc) (fun v =>
  let '(axis, stepSign) := aimAxis true v in
  bind (loop axis stepSign) (fun _ => ret tt))) s = (r, s') ->
  calmRun s s'.
Proof.
  intros Hloop. unfold bind at 1.
  destruct (call orc GetDimension s) as [rc sc] eqn:Ec.
  apply call_same in Ec as [Hs _].
  destruct rc as [?| |];
    try (intros [= <- <-]; left; by apply same_extends).
  unfold bind at 1.
  destruct (getViewDirection orc sc) as [rv sv] eqn:Ev.
  apply getViewDirection_run in Ev as [Hs2 Hv].
  pose proof (same_trans _ _ _ Hs Hs2) as Hs3.
  destruct Hv as [-> | ->];
    [intros [= <- <-]; left; by apply same_extends|].
  destruct (aimAxis true _) as [axis sgn].
  unfold bind. destruct (loop axis sgn sv) as [rl sl] eqn:El.
  apply Hloop in El. apply (same_calmRun _ _ _ Hs3) in El.
  destruct rl as [?| |]; by intros [= <- <-].
Qed.

(** The emission after a body that applied the penalty at most at its
    end. *)
Lemma calmRun_emission (body : M unit) h :
  (forall r s', body (initSt h) = (r, s') -> calmRun (initSt h) s') ->
  let t := trace (snd (tryFinally body (dropVeinLoot orc) (initSt h))) in
  nauseaCount t <= 1 /\ calmed t.
Proof.
  intros Hb. unfold tryFinally.
  destruct (body (initSt h)) as [r s1] eqn:E. specialize (Hb _ _ eq_refl).
  assert (forall u, forallb isSpawn u = true ->
            nauseaCount (trace s1 ++ u) <= 1 /\ calmed (trace s1 ++ u))
    as Hfin.
  { intros u Hu.
    assert (nauseaCount u = 0) as Hu0
      by (apply nauseaCount_none; intros e; by apply spawn_no_nausea).
    destruct Hb as [(t & Et & Ht & _) | (s0 & (t & Et & Ht & _) & En)].
    - cbn in Et. rewrite Et. split; [|by apply calmed_calm].
      rewrite nauseaCount_app, Hu0, (nauseaCount_none t); [lia|].
      intros e. by apply calm_no_nausea.
    - cbn in Et. rewrite En, Et, <- app_assoc. split.
      + rewrite !nauseaCount_app, Hu0, (nauseaCount_none t)
          by (intros e; by apply calm_no_nausea).
        by vm_compute.
      + by apply calmed_penalised. }
  assert (nauseaCount (trace s1) <= 1 /\ calmed (trace s1)) as Hfin1.
  { specialize (Hfin [] eq_refl). by rewrite app_nil_r in Hfin. }
  destruct (dropVeinLoot orc s1) as [r2 s2] eqn:E2.
  apply dropVeinLoot_events in E2 as [(u & Eu & Hu & _) _].
  specialize (Hfin u Hu). rewrite <- Eu in Hfin.
  destruct r as [[]| |]; destruct r2 as [[]| |]; first [exact Hfin | exact Hfin1].
Qed.

End NauseaPasses.

(** X19. In a run of a flood-fill shape, of the line tunnel or of the
    small tunnel the nausea penalty is applied at most once, and after
    it the run does nothing but emit the loot: no block is broken, no
    tool is checked or worn and no tick is waited for. *)
Theorem nausea_penalty_ends_the_run (orc : Oracle) (sh : Shape) (origin : Pos)
    (brokenBlock : string) (maxVein : Z) (item : option Tool) (h : Host) :
  sh <> LargeTunnel ->
  let t := trace (snd (veinHandler orc sh origin brokenBlock maxVein item
                                   (initSt h))) in
  nauseaCount t <= 1
  /\ forall t1 e t2, t = t1 ++ e :: t2 -> isNausea e = true ->
                     forallb isSpawn t2 = true.
Proof.
  intros Hsh. destruct sh; try done; cbn [veinHandler].
  - apply calmRun_emission. intros r s'. apply floodFill_calm.
  - apply calmRun_emission. intros r s'. apply floodFill_calm.
  - apply calmRun_emission. intros r s'. apply floodFill_calm.
  - apply calmRun_emission. intros r s'.
    apply (tunnel_calm orc
             (fun axis sgn =>
                forEach (seqZ 0 (maxVein / 2))
                        (smallSlice orc origin brokenBlock item axis sgn) 0)).
    intros axis sgn s0 r0 s0'. apply forEach_calm.
    intros d c s1 r1 s1' E1. unfold smallSlice in E1.
    apply forEach_return in E1.
    + destruct E1 as [? | [? (fl & v & -> & ->)]]; [by left|].
      right. split; [done|]. by exists Return, v.
    + intros off c' s2 r2 s2'. apply smallIter_nausea.
  - apply calmRun_emission. intros r s'.
    apply (tunnel_calm orc
             (fun axis sgn =>
                forEach (seqZ 0 maxVein)
                        (lineIter orc origin brokenBlock item axis sgn) 0)).
    intros axis sgn s0 r0 s0'. apply forEach_calm.
    intros d c s1 r1 s1' E1. apply lineIter_nausea in E1.
    destruct E1 as [? | [? (fl & v & -> & ->)]]; [by left|].
    right. split; [done|]. by exists Break, v.
Qed.

Lemma nausea_penalty_witness :
  LineTunnel <> LargeTunnel
  /\ let t := trace (snd (veinHandler calm LineTunnel origin "minecraft:stone"
                                      64 (Some pick)
                                      (initSt (player solidWorld 0 0)))) in
     nauseaCount t <= 1
     /\ forall t1 e t2, t = t1 ++ e :: t2 -> isNausea e = true ->
                        forallb isSpawn t2 = true.
Proof.
  assert (LineTunnel <> LargeTunnel) as H by discriminate.
  split; [exact H|].
  exact (nausea_penalty_ends_the_run calm LineTunnel origin "minecraft:stone"
           64 (Some pick) (player solidWorld 0 0) H).
Defined.

(** In that run the penalty is applied: at the eleventh block. *)
Example nausea_penalty_applies :
  let t := trace (snd (veinHandler calm LineTunnel origin "minecraft:stone"
                                   64 (Some pick)
                                   (initSt (player solidWorld 0 0)))) in
  nauseaCount t = 1 /\ blocksBroken t = 10.
Proof. by vm_compute. Qed.

(** ** Faults *)

(** *** What does not throw *)

Lemma NoThrow_ret {X} (x : X) : NoThrow (ret x).
Proof. by intros s. Qed.

Lemma NoThrow_bind {X Y} (m : M X) (f : X -> M Y) :
  NoThrow m -> (forall x, NoThrow (f x)) -> NoThrow (bind m f).
Proof.
  intros Hm Hf s. unfold bind. specialize (Hm s).
  destruct (m s) as [[x| |] s1]; cbn in *; [apply Hf | done | done].
Qed.

Lemma NoThrow_get : NoThrow get.
Proof. by intros s. Qed.

Lemma NoThrow_emit e : NoThrow (emit e).
Proof. by intros s. Qed.

Lemma NoThrow_setHost h : NoThrow (setHost h).
Proof. by intros s. Qed.

Lemma NoThrow_setLoot l : NoThrow (setLoot l).
Proof. by intros s. Qed.

Lemma NoThrow_tryCatch {X} (m h : M X) : NoThrow h -> NoThrow (tryCatch m h).
Proof.
  intros Hh s. unfold tryCatch.
  destruct (m s) as [[x| |] s1]; cbn; [done | apply Hh | done].
Qed.

Lemma NoThrow_tryFinally {X} (m : M X) (f : M unit) :
  NoThrow m -> NoThrow f -> NoThrow (tryFinally m f).
Proof.
  intros Hm Hf s. unfold tryFinally. specialize (Hm s).
  destruct (m s) as [[x| |] s1]; cbn in *; [|done|done].
  specialize (Hf s1). by destruct (f s1) as [[[]| |] s2].
Qed.

Lemma NoThrow_forEach {X V} (body : X -> V -> M (Flow * V)) (l : list X) :
  (forall a v, NoThrow (body a v)) -> forall v, NoThrow (forEach l body v).
Proof.
  intros Hb. induction l as [|a l IH]; intros v; cbn; [apply NoThrow_ret|].
  apply NoThrow_bind; [apply Hb|]. intros [[] v']; try apply NoThrow_ret.
  apply IH.
Qed.

Ltac nothrow_step call_lemma :=
  first
    [ apply NoThrow_bind; [|intros ?]
    | apply NoThrow_ret
    | apply NoThrow_get
    | apply NoThrow_emit
    | apply NoThrow_setHost
    | apply NoThrow_setLoot
    | apply call_lemma; reflexivity
    | match goal with
      | |- NoThrow (if ?b then _ else _) => destruct b
      | |- NoThrow (match ?x with _ => _ end) => destruct x
      end ].

Section Tolerant.
Variable orc : Oracle.
Hypothesis only_break : faultsOnlyInBreak orc.

Lemma NoThrow_call a : breakApi a = false -> NoThrow (call orc a).
Proof.
  intros Ha s. unfold call.
  destruct (faultAt orc a (calls s)) eqn:E; [|done].
  apply only_break in E. congruence.
Qed.

Ltac nothrow := repeat nothrow_step NoThrow_call.

Lemma NoThrow_toolChanged item : NoThrow (toolChanged orc item).
Proof. unfold toolChanged, getEquipment. nothrow. Qed.

Lemma NoThrow_wear item : NoThrow (wear orc item).
Proof. unfold wear, getGameMode, setEquipment, playSound. nothrow. Qed.

Lemma NoThrow_hungerGate cont : NoThrow (hungerGate orc cont).
Proof. unfold hungerGate, reduceHunger, addEffect. nothrow. Qed.

Lemma NoThrow_waitTicks : NoThrow (waitTicks orc).
Proof.
  unfold waitTicks. apply NoThrow_bind; [by apply NoThrow_call|].
  by intros _ s.
Qed.

Lemma NoThrow_breakOrWarn item p b : NoThrow (breakOrWarn orc item p b).
Proof. unfold breakOrWarn, consoleWarn. apply NoThrow_tryCatch. nothrow. Qed.

Lemma NoThrow_checked {V} item stop (v : V) (rest : M (Flow * V)) :
  NoThrow rest -> NoThrow (checked orc item stop v rest).
Proof.
  intros Hr. unfold checked.
  apply NoThrow_bind; [apply NoThrow_toolChanged|].
  intros []; [apply NoThrow_ret | exact Hr].
Qed.

Lemma NoThrow_lineIter origin perm item axis sgn d cont :
  NoThrow (lineIter orc origin perm item axis sgn d cont).
Proof.
  unfold lineIter. apply NoThrow_checked. unfold lineRest, getBlockNow.
  apply NoThrow_bind; [nothrow|]. intros [b|]; [|apply NoThrow_ret].
  apply NoThrow_bind; [apply NoThrow_wear|]. intros _.
  apply NoThrow_bind; [apply NoThrow_hungerGate|].
  intros [|]; [apply NoThrow_ret|].
  apply NoThrow_bind; [apply NoThrow_breakOrWarn|].
  intros [|]; [apply NoThrow_ret|].
  apply NoThrow_bind; [apply NoThrow_waitTicks | intros; apply NoThrow_ret].
Qed.

Lemma NoThrow_smallIter perm item base off cont :
  NoThrow (smallIter orc perm item base off cont).
Proof.
  unfold smallIter. apply NoThrow_checked. unfold smallRest, getBlockNow.
  apply NoThrow_bind; [nothrow|]. intros [b|]; [|apply NoThrow_ret].
  apply NoThrow_bind; [apply NoThrow_wear|]. intros _.
  apply NoThrow_bind; [apply NoThrow_hungerGate|].
  intros [|]; [apply NoThrow_ret|].
  apply NoThrow_bind; [apply NoThrow_breakOrWarn|].
  intros [|]; [apply NoThrow_ret|].
  apply NoThrow_bind; [apply NoThrow_waitTicks | intros; apply NoThrow_ret].
Qed.

Lemma NoThrow_largeIter perm item maxBlocks axis center o v :
  NoThrow (largeIter orc perm item maxBlocks axis center o v).
Proof.
  unfold largeIter. apply NoThrow_checked. unfold largeRest, getBlockNow.
  apply NoThrow_bind; [nothrow|]. intros [b|]; [|apply NoThrow_ret].
  apply NoThrow_bind; [apply NoThrow_wear|]. intros _.
  apply NoThrow_bind; [apply NoThrow_hungerGate|].
  intros [|]; [apply NoThrow_ret|].
  apply NoThrow_bind; [apply NoThrow_breakOrWarn|].
  intros [|]; [apply NoThrow_ret|].
  cbn zeta. destruct (_ <=? _); [apply NoThrow_ret|].
  apply NoThrow_bind; [apply NoThrow_waitTicks | intros; apply NoThrow_ret].
Qed.

Lemma NoThrow_largeSlice origin perm item maxBlocks axis sgn d w :
  NoThrow (largeSlice orc origin perm item maxBlocks axis sgn d w).
Proof.
  destruct w as [[c b] outward]. unfold largeSlice.
  apply NoThrow_bind.
  - apply NoThrow_forEach. intros o v. apply NoThrow_largeIter.
  - intros [[] v]; try apply NoThrow_ret; destruct (negb _); apply NoThrow_ret.
Qed.

Lemma only_break_noSpawnFaults : noSpawnFaults orc.
Proof.
  intros n. destruct (faultAt orc SpawnItem n) eqn:E; [|done].
  by apply only_break in E.
Qed.

(** A body that neither throws nor gets stuck, and then the emission. *)
Lemma fine_run (body : M unit) s :
  NoThrow body ->
  (forall r s', body s = (r, s') -> r <> Stuck) ->
  fst (tryFinally body (dropVeinLoot orc) s) = Ok tt.
Proof.
  intros Ht Hs. unfold tryFinally. specialize (Ht s).
  destruct (body s) as [r s1] eqn:E. specialize (Hs _ _ eq_refl).
  destruct (dropVeinLoot_run orc only_break_noSpawnFaults s1) as [c ->].
  by destruct r as [[]| |].
Qed.

Lemma NoThrow_tunnel {V} (loop : Axis -> Z -> Host -> M (Flow * V)) :
  (forall axis sgn h0, NoThrow (loop axis sgn h0)) ->
  NoThrow (bind (call orc GetDimension) (fun _ =>
           bind (getViewDirection orc) (fun v =>
           let '(axis, stepSign) := aimAxis true v in
           bind get (fun s =>
           bind (loop axis stepSign (host s)) (fun _ => ret tt))))).
Proof.
  intros Hl. unfold getViewDirection.
  apply NoThrow_bind; [by apply NoThrow_call|]. intros _.
  apply NoThrow_bind; [nothrow|]. intros v.
  destruct (aimAxis true v) as [axis sgn].
  apply NoThrow_bind; [apply NoThrow_get|]. intros s.
  apply NoThrow_bind; [apply Hl | intros; apply NoThrow_ret].
Qed.

End Tolerant.

Lemma noFaults_only_break orc : noFaults orc -> faultsOnlyInBreak orc.
Proof. intros H a n E. rewrite H in E. done. Qed.

Section Faultless.
Variable orc : Oracle.
Hypothesis quiet : noFaults orc.
Hypothesis drops : lootDefined orc.

Lemma NoThrow_any_call a : NoThrow (call orc a).
Proof. intros s. unfold call. by rewrite quiet. Qed.

Lemma NoThrow_breakBlock item p b : NoThrow (breakBlock orc item p b true).
Proof.
  rewrite breakBlock_unfold.
  apply NoThrow_bind; [apply NoThrow_emit|]. intros _.
  unfold breakBlockRest, hasTag, itemComponent, runCommand, addDrops.
  repeat first
    [ apply NoThrow_bind; [|intros ?]
    | apply NoThrow_ret
    | apply NoThrow_get
    | apply NoThrow_emit
    | apply NoThrow_setHost
    | apply NoThrow_setLoot
    | apply NoThrow_any_call
    | match goal with
      | |- NoThrow (match lootOf orc ?n ?p ?b ?i with _ => _ end) =>
          let E := fresh "E" in
          destruct (lootOf orc n p b i) eqn:E; [|by apply drops in E]
      | |- NoThrow (if ?b then _ else _) => destruct b
      | |- NoThrow (match ?x with _ => _ end) => destruct x
      end ].
Qed.

Lemma NoThrow_floodIter eligibleType item v :
  toCheck v <> [] -> NoThrow (floodIter orc eligibleType item v).
Proof.
  intros Hne. unfold floodIter.
  apply NoThrow_checked; [by apply noFaults_only_break|].
  unfold floodRest. destruct (toCheck v) as [|pos rest]; [done|].
  destruct (decide (pos ∈ visited v)); [apply NoThrow_ret|].
  cbn zeta. unfold getBlockOrUndefined.
  apply NoThrow_bind; [apply NoThrow_bind; [apply NoThrow_get|];
                       intros; apply NoThrow_ret|].
  intros targetBlock. destruct (_ || _); [|apply NoThrow_ret].
  apply NoThrow_bind; [by apply NoThrow_wear, noFaults_only_break|].
  intros _.
  apply NoThrow_bind; [by apply NoThrow_hungerGate, noFaults_only_break|].
  intros [|]; [apply NoThrow_ret|].
  apply NoThrow_bind; [|intros; apply NoThrow_ret].
  destruct targetBlock as [b|]; [|apply NoThrow_ret].
  apply NoThrow_bind; [apply NoThrow_breakBlock|]. intros _.
  by apply NoThrow_waitTicks, noFaults_only_break.
Qed.

Lemma NoThrow_floodLoop eligibleType item maxVein fuel : forall v,
  NoThrow (floodLoop orc fuel eligibleType item maxVein v).
Proof.
  induction fuel as [|fuel IH]; intros v.
  - rewrite floodLoop_0. by destruct (_ && _).
  - rewrite floodLoop_S.
    destruct ((0 <? length (toCheck v))%nat && (cont v <? maxVein)) eqn:G;
      [|apply NoThrow_ret].
    apply andb_true_iff in G as [G _]. apply Nat.ltb_lt in G.
    apply NoThrow_bind.
    + apply NoThrow_floodIter. intros E. rewrite E in G. cbn in G. lia.
    + intros [[] v']; try apply NoThrow_ret. apply IH.
Qed.

End Faultless.

(** X20. What a fault does to a run. A tunnel shape keeps a fault of
    [breakBlock] to itself: when no host call throws but those that
    [breakBlock] makes, the run returns normally, whatever the loot
    tables give. A flood-fill shape returns normally when no host call
    throws and the loot tables give drops for every block. *)
Theorem runs_that_return_normally (orc : Oracle) (sh : Shape) (origin : Pos)
    (brokenBlock : string) (maxVein : Z) (item : option Tool) (h : Host) :
  match sh with
  | LargeTunnel | SmallTunnel | LineTunnel => faultsOnlyInBreak orc
  | _ => noFaults orc /\ lootDefined orc
  end ->
  fst (veinHandler orc sh origin brokenBlock maxVein item (initSt h)) = Ok tt.
Proof.
  destruct sh; cbn [veinHandler]; intros H.
  1-3: destruct H as [Hq Hd];
       apply (fine_run orc (noFaults_only_break orc Hq));
       [ apply NoThrow_bind; [by apply NoThrow_any_call|]; intros _;
         by apply NoThrow_floodLoop
       | intros r s'; apply floodFill_body ].
  - apply (fine_run orc H).
    + apply (NoThrow_tunnel orc H
               (fun axis sgn h0 =>
                  forEach (largeDepths orc brokenBlock h0 axis origin
                                       (maxVein / 4))
                          (largeSlice orc origin brokenBlock item
                                      (maxVein * 2) axis sgn)
                          (0, 0, true))).
      intros axis sgn h0. apply NoThrow_forEach. intros d w.
      by apply NoThrow_largeSlice.
    + intros r s'.
      apply (tunnel_body orc
               (fun axis sgn h0 =>
                  bind (forEach (largeDepths orc brokenBlock h0 axis origin
                                             (maxVein / 4))
                                (largeSlice orc origin brokenBlock item
                                            (maxVein * 2) axis sgn)
                                (0, 0, true))
                       (fun _ => ret tt))).
      intros axis sgn h0 s0 r0 s0'. apply loop_then_done.
      intros s1 r1 s1'. apply forEach_extends. intros d w s2 r2 s2'.
      apply largeSlice_extends.
  - apply (fine_run orc H).
    + apply (NoThrow_tunnel orc H
               (fun axis sgn _ =>
                  forEach (seqZ 0 (maxVein / 2))
                          (smallSlice orc origin brokenBlock item axis sgn) 0)).
      intros axis sgn _. apply NoThrow_forEach. intros d c.
      unfold smallSlice. apply NoThrow_forEach. intros off c'.
      by apply NoThrow_smallIter.
    + intros r s'.
      apply (tunnel_body orc
               (fun axis sgn _ =>
                  bind (forEach (seqZ 0 (maxVein / 2))
                                (smallSlice orc origin brokenBlock item axis sgn)
                                0)
                       (fun _ => ret tt))).
      intros axis sgn _ s0 r0 s0'. apply loop_then_done.
      intros s1 r1 s1'. apply forEach_extends. intros d c s2 r2 s2'.
      unfold smallSlice. apply forEach_extends. intros off c' s3 r3 s3'.
      apply smallIter_extends.
  - apply (fine_run orc H).
    + apply (NoThrow_tunnel orc H
               (fun axis sgn _ =>
                  forEach (seqZ 0 maxVein)
                          (lineIter orc origin brokenBlock item axis sgn) 0)).
      intros axis sgn _. apply NoThrow_forEach. intros d c.
      by apply NoThrow_lineIter.
    + intros r s'.
      apply (tunnel_body orc
               (fun axis sgn _ =>
                  bind (forEach (seqZ 0 maxVein)
                                (lineIter orc origin brokenBlock item axis sgn)
                                0)
                       (fun _ => ret tt))).
      intros axis sgn _ s0 r0 s0'. apply loop_then_done.
      intros s1 r1 s1'. apply forEach_extends. intros d c s2 r2 s2'.
      apply lineIter_extends.
Qed.

Lemma lootless_only_break : faultsOnlyInBreak lootless.
Proof. intros a n. by destruct a. Qed.

Lemma runs_that_return_normally_witness :
  faultsOnlyInBreak lootless
  /\ fst (veinHandler lootless LineTunnel origin "minecraft:stone" 5
                      (Some pick) (initSt (player solidWorld 20 5))) = Ok tt.
Proof.
  split; [exact lootless_only_break|].
  exact (runs_that_return_normally lootless LineTunnel origin "minecraft:stone"
           5 (Some pick) (player solidWorld 20 5) lootless_only_break).
Defined.

(** On that host the line tunnel warns and returns, and a flood-fill
    run throws. *)
Example fault_of_breakBlock_by_shape :
  trace (snd (veinHandler lootless LineTunnel origin "minecraft:stone" 5
                          (Some pick) (initSt (player solidWorld 20 5))))
  = [EvGetEquipment (Some "minecraft:iron_pickaxe"); EvDamage true;
     EvSetEquipment (Some "minecraft:iron_pickaxe"); EvBreakBlock origin;
     EvWarn]
  /\ fst (veinHandler lootless ShapelessVein origin "minecraft:stone" 5
                      (Some pick) (initSt (player solidWorld 20 5))) = Throw.
Proof. by vm_compute. Qed.

(** ** Ticks between breaks *)

Lemma paceFrom_app b t u :
  paceFrom b (t ++ u)
  = match paceFrom b t with
    | Some b' => paceFrom b' u
    | None => None
    end.
Proof.
  revert b. induction t as [|e t IH]; intros b; [done|].
  destruct e; cbn; try apply IH. by destruct b.
Qed.

Lemma paceFrom_between b t :
  forallb betweenEvent t = true -> paceFrom b t = Some b.
Proof.
  induction t as [|e t IH]; [done|].
  cbn [forallb]. intros [He Ht]%andb_true_iff.
  destruct e; cbn in He |- *; try discriminate; auto.
Qed.

Lemma extends_between s s' b0 b :
  extends betweenEvent s s' ->
  paceFrom b0 (trace s) = Some b -> paceFrom b0 (trace s') = Some b.
Proof.
  intros (t & E & Ht & _) H.
  by rewrite E, paceFrom_app, H, paceFrom_between.
Qed.

Section Pace.
Variable orc : Oracle.

Lemma toolChanged_between item : Ext betweenEvent (toolChanged orc item).
Proof. unfold toolChanged, getEquipment. ext_auto. Qed.

Lemma wear_between item : Ext betweenEvent (wear orc item).
Proof. unfold wear, getGameMode, setEquipment, playSound. ext_auto. Qed.

Lemma hungerGate_between cont : Ext betweenEvent (hungerGate orc cont).
Proof. unfold hungerGate, reduceHunger, addEffect. ext_auto. Qed.

Lemma runCommand_between c : Ext betweenEvent (runCommand orc c).
Proof. unfold runCommand. ext_auto. Qed.

Lemma breakBlockRest_between item p b :
  Ext betweenEvent (breakBlockRest orc item p b).
Proof.
  unfold breakBlockRest, hasTag, itemComponent.
  ext_auto; apply runCommand_between.
Qed.

Lemma consoleWarn_between : Ext betweenEvent (consoleWarn orc).
Proof. unfold consoleWarn. ext_auto. Qed.

(** [breakBlock] raises the flag, whatever becomes of it. *)
Lemma breakBlock_pace item p b s r s' :
  paceFrom false (trace s) = Some false ->
  breakBlock orc item p b true s = (r, s') ->
  paceFrom false (trace s') = Some true /\ r <> Stuck.
Proof.
  intros H. rewrite breakBlock_unfold. unfold bind at 1, emit.
  intros E. apply (Ext_run betweenEvent) in E as [X N];
    [|apply breakBlockRest_between].
  split; [|done]. eapply extends_between; [exact X|].
  cbn. by rewrite paceFrom_app, H.
Qed.

Lemma breakOrWarn_pace item p b s r s' :
  paceFrom false (trace s) = Some false ->
  breakOrWarn orc item p b s = (r, s') ->
  paceFrom false (trace s') = Some true /\ r <> Stuck.
Proof.
  intros H. unfold breakOrWarn, tryCatch, bind at 1.
  destruct (breakBlock orc item p b true s) as [[[]| |] s1] eqn:E;
    apply (breakBlock_pace _ _ _ _ _ _ H) in E as [H1 N1]; try done.
  - by intros [= <- <-].
  - intros E2.
    apply (Ext_run betweenEvent) in E2 as [X N].
    + split; [|done]. by eapply extends_between.
    + apply Ext_bind; [apply consoleWarn_between | intros; apply Ext_ret].
Qed.

(** A tick lowers the flag, unless the call throws. *)
Lemma waitTicks_pace b s r s' :
  paceFrom false (trace s) = Some b ->
  waitTicks orc s = (r, s') ->
  match r with
  | Ok _ => paceFrom false (trace s') = Some false
  | Throw => paceFrom false (trace s') = Some b
  | Stuck => False
  end.
Proof.
  intros H. unfold waitTicks, bind, call.
  destruct (faultAt orc WaitTicks (calls s)); intros [= <- <-]; cbn; [done|].
  by rewrite paceFrom_app, H.
Qed.

#[local] Arguments wear : simpl never.
#[local] Arguments hungerGate : simpl never.
#[local] Arguments breakBlock : simpl never.
#[local] Arguments breakOrWarn : simpl never.
#[local] Arguments waitTicks : simpl never.

(** Running a component that makes neither a break nor a tick. *)
Ltac go_between lem :=
  let T := type of lem in
  lazymatch T with
  | Ext _ ?m =>
      match goal with
      | H : paceFrom false (trace ?s) = Some false
        |- context [m ?s] =>
          let E := fresh "E" in
          let X := fresh "X" in
          let N := fresh "N" in
          let r := fresh "r" in
          let s' := fresh "s" in
          destruct (m s) as [r s'] eqn:E;
          apply (Ext_run _ _ _ _ _ lem) in E as [X N];
          apply (extends_between _ _ _ _ X) in H;
          clear X;
          destruct r as [?| |]; [ | | done]
      end
  end.

Lemma checked_pace {V} item stop (v : V) (rest : M (Flow * V)) s r s' :
  stop <> Next ->
  (forall s1 r s', paceFrom false (trace s1) = Some false ->
     rest s1 = (r, s') -> pacedPass r s') ->
  paceFrom false (trace s) = Some false ->
  checked orc item stop v rest s = (r, s') -> pacedPass r s'.
Proof.
  intros Hstop Hrest H. unfold checked, bind.
  go_between (toolChanged_between item).
  - match goal with |- context [if ?c then _ else _] => destruct c end.
    + intros [= <- <-]. cbn. destruct stop; try done. congruence.
    + by apply Hrest.
  - intros [= <- <-]. cbn. congruence.
Qed.

(** The rest of a tunnel pass from the durability step on. *)
Lemma tunnel_pace {V} item cont pos b (fl : Flow) (v : V)
    (after : M (Flow * V)) (v1 : V) s r s' :
  (forall s1 r s', paceFrom false (trace s1) = Some true ->
     after s1 = (r, s') -> pacedPass r s') ->
  paceFrom false (trace s) = Some false ->
  bind (wear orc item) (fun _ =>
  bind (hungerGate orc cont) (fun stop =>
  if stop then ret (fl, v) else
  bind (breakOrWarn orc item pos b) (fun failed =>
  if failed then ret (Return, v1) else after))) s = (r, s') ->
  pacedPass r s'.
Proof.
  intros Hafter H. unfold bind at 1.
  go_between (wear_between item).
  2:{ intros [= <- <-]. cbn. congruence. }
  unfold bind at 1. go_between (hungerGate_between cont).
  2:{ intros [= <- <-]. cbn. congruence. }
  match goal with |- context [if ?c then _ else _] => destruct c end.
  { intros [= <- <-]. cbn. destruct fl; congruence. }
  unfold bind at 1.
  destruct (breakOrWarn orc item pos b s1) as [rb sb] eqn:Eb.
  apply (breakOrWarn_pace _ _ _ _ _ _ H) in Eb as [Hb Nb].
  destruct rb as [[|]| |]; try done.
  - intros [= <- <-]. cbn. congruence.
  - by apply Hafter.
  - intros [= <- <-]. cbn. congruence.
Qed.

Lemma wait_then_next {V} (v : V) s r s' :
  paceFrom false (trace s) = Some true ->
  bind (waitTicks orc) (fun _ => ret (Next, v)) s = (r, s') ->
  pacedPass r s'.
Proof.
  intros H. unfold bind.
  destruct (waitTicks orc s) as [rw sw] eqn:Ew.
  apply (waitTicks_pace _ _ _ _ H) in Ew.
  destruct rw as [[]| |]; [| |done]; intros [= <- <-]; cbn; congruence.
Qed.

Lemma lineIter_pace origin perm item axis sgn d cont s r s' :
  paceFrom false (trace s) = Some false ->
  lineIter orc origin perm item axis sgn d cont s = (r, s') ->
  pacedPass r s'.
Proof.
  apply checked_pace; [done|]. clear. intros s1 r s' H.
  unfold lineRest, bind at 1, getBlockNow, bind at 1, get, ret at 1.
  destruct (getBlock orc true perm (host s1) _) as [b|].
  2:{ by intros [= <- <-]. }
  apply tunnel_pace; [|done]. intros s2 r2 s2'. apply wait_then_next.
Qed.

Lemma smallIter_pace perm item base off cont s r s' :
  paceFrom false (trace s) = Some false ->
  smallIter orc perm item base off cont s = (r, s') ->
  pacedPass r s'.
Proof.
  apply checked_pace; [done|]. clear. intros s1 r s' H.
  unfold smallRest, bind at 1, getBlockNow, bind at 1, get, ret at 1.
  destruct (getBlock orc true perm (host s1) _) as [b|].
  2:{ by intros [= <- <-]. }
  apply tunnel_pace; [|done]. intros s2 r2 s2'. apply wait_then_next.
Qed.

Lemma largeIter_pace perm item maxBlocks axis center o v s r s' :
  paceFrom false (trace s) = Some false ->
  largeIter orc perm item maxBlocks axis center o v s = (r, s') ->
  pacedPass r s'.
Proof.
  apply checked_pace; [done|]. clear. intros s1 r s' H.
  unfold largeRest, bind at 1, getBlockNow, bind at 1, get, ret at 1.
  destruct (getBlock orc true perm (host s1) _) as [b|].
  2:{ by intros [= <- <-]. }
  apply tunnel_pace; [|done]. intros s2 r2 s2' H2. cbn zeta.
  destruct (_ <=? _).
  - intros [= <- <-]. cbn. congruence.
  - by apply wait_then_next.
Qed.

Lemma floodIter_pace eligibleType item v s r s' :
  paceFrom false (trace s) = Some false ->
  floodIter orc eligibleType item v s = (r, s') ->
  pacedPass r s'.
Proof.
  apply checked_pace; [done|]. clear. intros s1 r s' H. unfold floodRest.
  destruct (toCheck v) as [|pos rest].
  { intros [= <- <-]. cbn. congruence. }
  destruct (decide (pos ∈ visited v)).
  { by intros [= <- <-]. }
  cbn zeta. unfold bind at 1, getBlockOrUndefined, bind at 1, get, ret at 1.
  destruct (_ || _).
  2:{ by intros [= <- <-]. }
  unfold bind at 1. go_between (wear_between item).
  2:{ intros [= <- <-]. cbn. congruence. }
  unfold bind at 1. go_between (hungerGate_between (cont v)).
  2:{ intros [= <- <-]. cbn. congruence. }
  match goal with |- context [if ?c then _ else _] => destruct c end.
  { by intros [= <- <-]. }
  cbn zeta.
  destruct (match blockAt (host s1) pos with
            | QBlock b => Some b | _ => None end) as [b|].
  2:{ by intros [= <- <-]. }
  unfold bind at 1 2.
  match goal with
  | |- context [breakBlock orc item pos b true ?sx] =>
      destruct (breakBlock orc item pos b true sx) as [rb sb] eqn:Eb
  end.
  apply (breakBlock_pace _ _ _ _ _ _ H) in Eb as [Hb Nb].
  destruct rb as [[]| |]; [| |done].
  2:{ intros [= <- <-]. cbn. congruence. }
  destruct (waitTicks orc sb) as [rw sw] eqn:Ew.
  apply (waitTicks_pace _ _ _ _ Hb) in Ew.
  destruct rw as [[]| |]; [| |done]; intros [= <- <-]; cbn; congruence.
Qed.

(** A loop of such passes. *)
Lemma forEach_pace {X V} (body : X -> V -> M (Flow * V)) l v s r s' :
  (forall a v s r s', paceFrom false (trace s) = Some false ->
     body a v s = (r, s') -> pacedPass r s') ->
  paceFrom false (trace s) = Some false ->
  forEach l body v s = (r, s') ->
  match r with
  | Ok (Next, _) => paceFrom false (trace s') = Some false
  | Ok (Break, _) => False
  | Ok (Return, _) | Throw => paceFrom false (trace s') <> None
  | Stuck => False
  end.
Proof.
  intros Hbody H E.
  eapply (forEach_inv
            (fun _ _ s1 => paceFrom false (trace s1) = Some false)
            (fun r1 s1 =>
               match r1 with
               | Ok (Next, _) => paceFrom false (trace s1) = Some false
               | Ok (Break, _) => False
               | Ok (Return, _) | Throw => paceFrom false (trace s1) <> None
               | Stuck => False
               end));
    [ | | exact H | exact E].
  - intros a l' v' s1 r1 s1' HI Eb. apply (Hbody _ _ _ _ _ HI) in Eb.
    by destruct r1 as [[[] ?]| |].
  - done.
Qed.

Lemma floodLoop_pace eligibleType item maxVein fuel : forall v s r s',
  paceFrom false (trace s) = Some false ->
  floodLoop orc fuel eligibleType item maxVein v s = (r, s') ->
  paceFrom false (trace s') <> None.
Proof.
  induction fuel as [|fuel IH]; intros v s r s' H.
  - rewrite floodLoop_0. destruct (_ && _); intros [= <- <-]; congruence.
  - rewrite floodLoop_S. destruct (_ && _).
    2:{ intros [= <- <-]. congruence. }
    unfold bind.
    destruct (floodIter orc eligibleType item v s) as [ri si] eqn:Ei.
    apply (floodIter_pace _ _ _ _ _ _ H) in Ei.
    destruct ri as [[[] v']| |]; cbn in Ei; try done;
      try (intros [= <- <-]; congruence).
    by apply IH.
Qed.

Lemma same_pace s s' b :
  same s s' -> paceFrom false (trace s) = Some b ->
  paceFrom false (trace s') = Some b.
Proof. intros (E & _). by rewrite E. Qed.

Lemma tunnel_paced {V} (loop : Axis -> Z -> Host -> M (Flow * V)) h r s' :
  (forall axis sgn h0 s r s', paceFrom false (trace s) = Some false ->
     loop axis sgn h0 s = (r, s') -> paceFrom false (trace s') <> None) ->
  bind (call orc GetDimension) (fun _ =>
  bind (getViewDirection orc) (fun v =>
  let '(axis, stepSign) := aimAxis true v in
  bind get (fun s =>
  bind (loop axis stepSign (host s)) (fun _ => ret tt)))) (initSt h)
  = (r, s') ->
  paceFrom false (trace s') <> None.
Proof.
  intros Hloop. unfold bind at 1.
  destruct (call orc GetDimension (initSt h)) as [rc sc] eqn:Ec.
  apply call_same in Ec as [Hs _].
  assert (paceFrom false (trace sc) = Some false) as Hc
    by (by apply (same_pace (initSt h))).
  destruct rc as [?| |]; try (intros [= <- <-]; congruence).
  unfold bind at 1.
  destruct (getViewDirection orc sc) as [rv sv] eqn:Ev.
  apply getViewDirection_run in Ev as [Hs2 Hv].
  apply (same_pace _ _ _ Hs2) in Hc.
  destruct Hv as [-> | ->]; [intros [= <- <-]; congruence|].
  destruct (aimAxis true _) as [axis sgn].
  unfold bind, get.
  destruct (loop axis sgn (host sv) sv) as [rl sl] eqn:El.
  apply (Hloop _ _ _ _ _ _ Hc) in El.
  destruct rl as [?| |]; by intros [= <- <-].
Qed.

Lemma emission_paced (body : M unit) h :
  (forall r s', body (initSt h) = (r, s') ->
     paceFrom false (trace s') <> None) ->
  paceFrom false
    (trace (snd (tryFinally body (dropVeinLoot orc) (initSt h)))) <> None.
Proof.
  intros Hb. unfold tryFinally.
  destruct (body (initSt h)) as [r s1] eqn:E. specialize (Hb _ _ eq_refl).
  destruct (dropVeinLoot orc s1) as [r2 s2] eqn:E2.
  apply dropVeinLoot_events in E2 as [(u & Eu & Hu & _) _].
  assert (paceFrom false (trace s2) <> None) as H2.
  { rewrite Eu, paceFrom_app.
    destruct (paceFrom false (trace s1)) as [b|]; [|done].
    rewrite paceFrom_between; [done|].
    rewrite forallb_forall in *. intros e He. specialize (Hu e He).
    by destruct e. }
  destruct r as [[]| |]; destruct r2 as [[]| |]; first [exact H2 | exact Hb].
Qed.

End Pace.

(** X21. A run waits for a tick between any two blocks that it hands to
    [breakBlock]: read from its start, the trace of a run never shows a
    second break before a tick has followed the first. *)
Theorem a_tick_between_any_two_breaks (orc : Oracle) (sh : Shape)
    (origin : Pos) (brokenBlock : string) (maxVein : Z) (item : option Tool)
    (h : Host) :
  paced (trace (snd (veinHandler orc sh origin brokenBlock maxVein item
                                 (initSt h)))).
Proof.
  unfold paced.
  assert (forall eligibleType,
            paceFrom false
              (trace (snd (floodFill orc eligibleType origin maxVein item
                                     (initSt h)))) <> None) as Hflood.
  { intros eligibleType. unfold floodFill. apply emission_paced.
    intros r s'. unfold bind.
    destruct (call orc GetDimension (initSt h)) as [rc sc] eqn:Ec.
    apply call_same in Ec as [Hs _].
    assert (paceFrom false (trace sc) = Some false) as Hc
      by (by apply (same_pace (initSt h))).
    destruct rc as [?| |]; try (intros [= <- <-]; congruence).
    by apply floodLoop_pace. }
  destruct sh; cbn [veinHandler]; try apply Hflood.
  - unfold largeTunnel. apply emission_paced. intros r s'.
    apply (tunnel_paced orc
             (fun axis sgn h0 =>
                forEach (largeDepths orc brokenBlock h0 axis origin
                                     (maxVein / 4))
                        (largeSlice orc origin brokenBlock item
                                    (maxVein * 2) axis sgn)
                        (0, 0, true))).
    intros axis sgn h0 s0 r0 s0' H0 E0.
    apply forEach_pace in E0; [by destruct r0 as [[[] ?]| |]; congruence| |done].
    clear. intros d [[c b] outward] s1 r1 s1' H1.
    unfold largeSlice, bind.
    destruct (forEach _ _ _ s1) as [ri si] eqn:Ei.
    apply forEach_pace in Ei; [|intros; by eapply largeIter_pace|done].
    destruct ri as [[[] v]| |]; try done;
      try (intros [= <- <-]; cbn; congruence).
    destruct (negb _); intros [= <- <-]; cbn; congruence.
  - unfold smallTunnel. apply emission_paced. intros r s'.
    apply (tunnel_paced orc
             (fun axis sgn _ =>
                forEach (seqZ 0 (maxVein / 2))
                        (smallSlice orc origin brokenBlock item axis sgn) 0)).
    intros axis sgn _ s0 r0 s0' H0 E0.
    apply forEach_pace in E0; [by destruct r0 as [[[] ?]| |]; congruence| |done].
    clear. intros d c s1 r1 s1' H1 E1. unfold smallSlice in E1.
    apply forEach_pace in E1; [|intros; by eapply smallIter_pace|done].
    destruct r1 as [[[] ?]| |]; cbn; try done; congruence.
  - unfold lineTunnel. apply emission_paced. intros r s'.
    apply (tunnel_paced orc
             (fun axis sgn _ =>
                forEach (seqZ 0 maxVein)
                        (lineIter orc origin brokenBlock item axis sgn) 0)).
    intros axis sgn _ s0 r0 s0' H0 E0.
    apply forEach_pace in E0; [by destruct r0 as [[[] ?]| |]; congruence| |done].
    intros; by eapply lineIter_pace.
Qed.

(** ** What a pass may break *)

Lemma getBlock_candidate orc perm h p b :
  getBlock orc true perm h p = Some b -> tunnelCandidate orc perm h p.
Proof.
  unfold getBlock, tunnelCandidate.
  destruct (blockAt h p) as [| |b0]; try done.
  destruct (String.eqb_spec (blockType b0) "minecraft:air"); [done|].
  destruct (existsb _ (blacklist orc)) eqn:Eb; [done|].
  cbn [andb].
  destruct (String.eqb_spec (blockType b0) perm); [|done].
  intros [= <-]. exists b0. repeat split; try done.
  intros Hin. assert (existsb (String.eqb (blockType b0)) (blacklist orc) = true);
    [|congruence].
  apply existsb_exists. exists (blockType b0). split; [done|].
  apply String.eqb_refl.
Qed.

Lemma skips_breaks {V} orc (counter : V -> Z) item (v : V) s res :
  skips orc counter item v s res ->
  blocksBroken (trace (snd res)) = blocksBroken (trace s).
Proof.
  intros (_ & _ & (t & E & Ht) & _). rewrite E, blocksBroken_app.
  assert (blocksBroken t = 0) as ->; [|lia].
  clear E. unfold blocksBroken. induction t as [|e t IH]; [done|].
  cbn [forallb] in Ht. apply andb_true_iff in Ht as [He Ht].
  destruct e; cbn in He |- *; try discriminate; auto.
Qed.

Section Candidates.
Variable orc : Oracle.

Lemma tunnel_pass_candidate {V} item s (stop : Flow) (v : V) perm pos
    (rest : BlockData -> M (Flow * V)) :
  blocksBroken
    (trace (snd (checked orc item stop v
                   (bind (getBlockNow orc perm pos)
                         (fun blk => match blk with
                                     | None => ret (Next, v)
                                     | Some b => rest b
                                     end)) s)))
  <> blocksBroken (trace s) ->
  tunnelCandidate orc perm (host s) pos.
Proof.
  destruct (getBlock orc true perm (host s) pos) as [b|] eqn:Eg;
    [intros _; by eapply getBlock_candidate|].
  intros Hn. exfalso. apply Hn.
  apply (skips_breaks orc (fun _ : V => 0) item v).
  apply (checked_skips orc _ item stop v v); [done|]. intros s1 Hh.
  unfold bind, getBlockNow, bind, get, ret. by rewrite Hh, Eg.
Qed.

Lemma floodRest_candidate item eligibleType v pos rest s1 r s' :
  toCheck v = pos :: rest ->
  floodRest orc eligibleType item v s1 = (r, s') ->
  blocksBroken (trace s') <> blocksBroken (trace s1) ->
  floodCandidate eligibleType (host s1) v pos.
Proof.
  intros Eq. unfold floodRest. rewrite Eq.
  destruct (decide (pos ∈ visited v)) as [Hin|Hin].
  { by intros [= <- <-]. }
  cbn zeta. unfold bind at 1, getBlockOrUndefined, bind at 1, get, ret at 1.
  destruct (blockAt (host s1) pos) as [| |b] eqn:Eb.
  3:{ destruct (size ({[pos]} ∪ visited v) =? 1)%nat eqn:Es.
      - intros _ _. split; [done|]. exists b. split; [done|]. left.
        by eapply first_position.
      - cbn [orb]. destruct (eligibleType (blockType b)) eqn:Ee.
        + intros _ _. split; [done|]. exists b. auto.
        + by intros [= <- <-]. }
  all: rewrite orb_false_r;
    destruct (size ({[pos]} ∪ visited v) =? 1)%nat;
    [|by intros [= <- <-]];
    intros E Hn; exfalso; apply Hn;
    apply prologue_breaks in E; [done|];
    apply Ext_bind; [apply Ext_wear|]; intros _;
    apply Ext_bind; [apply Ext_hungerGate|]; intros [|]; [apply Ext_ret|];
    apply Ext_bind; intros; apply Ext_ret.
Qed.

Lemma flood_pass_candidate item s eligibleType v pos rest :
  toCheck v = pos :: rest ->
  blocksBroken (trace (snd (floodIter orc eligibleType item v s)))
  <> blocksBroken (trace s) ->
  floodCandidate eligibleType (host s) v pos.
Proof.
  intros Eq.
  destruct (floodIter orc eligibleType item v s) as [r s'] eqn:E.
  cbn [snd]. revert E. unfold floodIter, checked, bind.
  destruct (toolChanged_cases orc item s)
    as [[-> H] | [(it & s1 & -> & H & Hs) | (it & s1 & -> & H & Hr)]];
    rewrite H; clear H.
  - by apply (floodRest_candidate _ _ _ _ rest).
  - intros [= <- <-]. destruct Hs as (Et & _). by rewrite Et.
  - assert (blocksBroken (trace s1) = blocksBroken (trace s)) as Hb.
    { destruct Hr as (Et & _). rewrite Et, blocksBroken_app.
      change (blocksBroken [_]) with 0. lia. }
    destruct Hr as (_ & _ & Hh). rewrite <- Hb, <- Hh.
    destruct (negb _); [by intros [= <- <-]|].
    by apply (floodRest_candidate _ _ _ _ rest).
Qed.

End Candidates.

(** *** One block at most, at the position examined *)

Lemma blocksBroken_positions t :
  blocksBroken t = Z.of_nat (length (breakPositions t)).
Proof.
  unfold breakPositions. induction t as [|e t IH]; [done|].
  rewrite blocksBroken_cons, IH. destruct e; cbn [isBreak flat_map app length];
    lia.
Qed.

(** A pass whose breaks are all at [pos], that breaks one block at most,
    and that breaks none unless [P] holds. *)
Lemma breaksOnlyAt_intro (pos : Pos) (P : Prop) s s' :
  extends (breaksWithin (fun q => bool_decide (q = pos))) s s' ->
  blocksBroken (trace s') <= blocksBroken (trace s) + 1 ->
  (blocksBroken (trace s') <> blocksBroken (trace s) -> P) ->
  breaksOnlyAt pos P s s'.
Proof.
  intros (t & E & Ht & _) Hone HP. unfold breaksOnlyAt.
  rewrite E, blocksBroken_app in Hone, HP. rewrite E, breakPositions_app.
  apply breaksWithin_positions in Ht.
  rewrite (blocksBroken_positions t) in Hone, HP.
  destruct (breakPositions t) as [|p [|q l]]; cbn [length] in Hone, HP.
  - left. by rewrite app_nil_r.
  - right. apply Forall_cons in Ht as [Hp _].
    apply bool_decide_eq_true in Hp as ->. split; [done|]. apply HP. lia.
  - lia.
Qed.

Section OnePosition.
Variable orc : Oracle.
Variable item : option Tool.

#[local] Abbreviation atPos pos :=
  (breaksWithin (fun q => bool_decide (q = pos))).

Lemma atPos_plain pos e : plainEvent e = true -> atPos pos e = true.
Proof. by destruct e. Qed.

Lemma atPos_tool pos :
  item <> None -> forall e, toolEvent e = true -> atPos pos e = true.
Proof. by intros _ []. Qed.

Lemma atPos_break pos : atPos pos (EvBreakBlock pos) = true.
Proof. cbn. by apply bool_decide_eq_true. Qed.

Lemma floodIter_at eligibleType v pos rest s :
  toCheck v = pos :: rest ->
  breaksOnlyAt pos (floodCandidate eligibleType (host s) v pos) s
               (snd (floodIter orc eligibleType item v s)).
Proof.
  intros Eq. destruct (floodIter orc eligibleType item v s) as [r s'] eqn:E.
  apply breaksOnlyAt_intro.
  - pose proof (floodIter_in orc (atPos pos) item (atPos_plain pos)
                  (atPos_tool pos) eligibleType v) as H.
    eapply (Ext_run (atPos pos)); [|exact E]. apply H.
    intros pos' rest' Eq'. rewrite Eq in Eq'. injection Eq' as <- _.
    apply atPos_break.
  - apply floodIter_step in E as (o & HS & _). cbn [snd].
    by eapply step_at_most_one.
  - pose proof (flood_pass_candidate orc item s eligibleType v pos rest Eq) as H.
    by rewrite E in H.
Qed.

Lemma lineIter_at origin perm axis sgn d cont s :
  breaksOnlyAt (advance axis origin (d * sgn))
               (tunnelCandidate orc perm (host s)
                                (advance axis origin (d * sgn)))
               s (snd (lineIter orc origin perm item axis sgn d cont s)).
Proof.
  set (pos := advance axis origin (d * sgn)).
  assert (blocksBroken
            (trace (snd (lineIter orc origin perm item axis sgn d cont s)))
          <> blocksBroken (trace s) ->
          tunnelCandidate orc perm (host s) pos) as Hc
    by apply (tunnel_pass_candidate orc item s Break cont perm pos).
  destruct (lineIter orc origin perm item axis sgn d cont s) as [r s'] eqn:E.
  apply breaksOnlyAt_intro.
  - eapply (Ext_run (atPos pos)); [|exact E]. unfold lineIter.
    apply (checked_in orc (atPos pos) item (atPos_tool pos)).
    apply (lineRest_in orc (atPos pos) item (atPos_plain pos) (atPos_tool pos)).
    apply atPos_break.
  - apply lineIter_step in E as (o & HS & _). cbn [snd].
    by eapply step_at_most_one.
  - exact Hc.
Qed.

Lemma smallIter_at perm base off cont s :
  breaksOnlyAt (offset base off)
               (tunnelCandidate orc perm (host s) (offset base off))
               s (snd (smallIter orc perm item base off cont s)).
Proof.
  set (pos := offset base off).
  assert (blocksBroken
            (trace (snd (smallIter orc perm item base off cont s)))
          <> blocksBroken (trace s) ->
          tunnelCandidate orc perm (host s) pos) as Hc
    by apply (tunnel_pass_candidate orc item s Return cont perm pos).
  destruct (smallIter orc perm item base off cont s) as [r s'] eqn:E.
  apply breaksOnlyAt_intro.
  - eapply (Ext_run (atPos pos)); [|exact E]. unfold smallIter.
    apply (checked_in orc (atPos pos) item (atPos_tool pos)).
    apply (smallRest_in orc (atPos pos) item (atPos_plain pos) (atPos_tool pos)).
    apply atPos_break.
  - apply smallIter_step in E as (o & HS & _). cbn [snd].
    by eapply step_at_most_one.
  - exact Hc.
Qed.

Lemma largeIter_at perm maxBlocks axis sliceCenter o v s :
  breaksOnlyAt (sliceCell axis sliceCenter o)
               (tunnelCandidate orc perm (host s)
                                (sliceCell axis sliceCenter o))
               s
               (snd (largeIter orc perm item maxBlocks axis sliceCenter o v s)).
Proof.
  set (pos := sliceCell axis sliceCenter o).
  assert (blocksBroken
            (trace (snd (largeIter orc perm item maxBlocks axis sliceCenter o
                                   v s)))
          <> blocksBroken (trace s) ->
          tunnelCandidate orc perm (host s) pos) as Hc
    by apply (tunnel_pass_candidate orc item s Break v perm pos).
  destruct (largeIter orc perm item maxBlocks axis sliceCenter o v s)
    as [r s'] eqn:E.
  apply breaksOnlyAt_intro.
  - eapply (Ext_run (atPos pos)); [|exact E]. unfold largeIter.
    apply (checked_in orc (atPos pos) item (atPos_tool pos)).
    apply (largeRest_in orc (atPos pos) item (atPos_plain pos) (atPos_tool pos)).
    apply atPos_break.
  - apply largeIter_step in E as (oc & HS & _). cbn [snd].
    by eapply step_at_most_one.
  - exact Hc.
Qed.

End OnePosition.

(** X22. A pass hands at most one block to [breakBlock], the block at
    the position it examines, and only when that position is a
    candidate in the world as the pass finds it. In the tunnel shapes
    the block there must resolve, be no air, not be blacklisted and
    have the type that was broken. In the flood-fill shapes the
    position must not have been visited, its block must resolve, and it
    must be the first position of the run or have an eligible type. *)
Theorem pass_breaks_only_a_candidate (orc : Oracle) (item : option Tool)
    (s : St) :
  (forall eligibleType v pos rest,
     toCheck v = pos :: rest ->
     breaksOnlyAt pos (floodCandidate eligibleType (host s) v pos) s
                  (snd (floodIter orc eligibleType item v s)))
  /\ (forall origin perm axis stepSign d cont,
        breaksOnlyAt (advance axis origin (d * stepSign))
                     (tunnelCandidate orc perm (host s)
                                      (advance axis origin (d * stepSign)))
                     s
                     (snd (lineIter orc origin perm item axis stepSign d cont
                                    s)))
  /\ (forall perm base off cont,
        breaksOnlyAt (offset base off)
                     (tunnelCandidate orc perm (host s) (offset base off))
                     s (snd (smallIter orc perm item base off cont s)))
  /\ (forall perm maxBlocks axis sliceCenter o v,
        breaksOnlyAt (sliceCell axis sliceCenter o)
                     (tunnelCandidate orc perm (host s)
                                      (sliceCell axis sliceCenter o))
                     s
                     (snd (largeIter orc perm item maxBlocks axis sliceCenter
                                     o v s))).
Proof.
  split; [intros; by eapply floodIter_at|].
  split; [intros; apply lineIter_at|].
  split; [intros; apply smallIter_at | intros; apply largeIter_at].
Qed.

(** ** The penalty in the large tunnel *)

Lemma extends_calm_count s s' :
  extends calmEvent s s' -> nauseaCount (trace s') = nauseaCount (trace s).
Proof.
  intros (t & E & Ht & _). rewrite E, nauseaCount_app, (nauseaCount_none t).
  - lia.
  - intros e. by apply calm_no_nausea.
Qed.

Lemma penalised_count s s' :
  penalised s s' -> nauseaCount (trace s') = nauseaCount (trace s) + 1.
Proof.
  intros (s1 & X & E). apply extends_calm_count in X.
  rewrite E, nauseaCount_app, X. by vm_compute.
Qed.

(** *** Idle events after the first penalty *)

Lemma spawn_idle t : forallb isSpawn t = true -> forallb idleEvent t = true.
Proof.
  rewrite !forallb_forall. intros H e He. specialize (H e He). by destruct e.
Qed.

(** The first penalty of a trace, if there is one. *)
Lemma first_penalty t :
  nauseaCount t = 0
  \/ exists t1 n t2, t = t1 ++ n :: t2 /\ nauseaCount t1 = 0
                     /\ isNausea n = true.
Proof.
  induction t as [|e t IH]; [by left|].
  destruct (isNausea e) eqn:He.
  - right. by exists [], e, t.
  - destruct IH as [H0 | (t1 & n & t2 & -> & H1 & Hn)].
    + left. unfold nauseaCount in *. cbn. by rewrite He.
    + right. exists (e :: t1), n, t2. repeat split; try done.
      unfold nauseaCount in *. cbn. by rewrite He.
Qed.

Lemma penaltyThenIdle_app t u :
  penaltyThenIdle t -> forallb idleEvent u = true -> penaltyThenIdle (t ++ u).
Proof.
  intros [H0 | (t1 & n & t2 & -> & H1 & Hn & Hi)] Hu.
  - destruct (first_penalty u) as [Hu0 | (u1 & n & u2 & -> & Hu1 & Hn)].
    + left. rewrite nauseaCount_app. lia.
    + right. exists (t ++ u1), n, u2. rewrite <- app_assoc.
      repeat split; try done.
      * rewrite nauseaCount_app. lia.
      * rewrite forallb_app in Hu. apply andb_true_iff in Hu as [_ Hu].
        cbn in Hu. by apply andb_true_iff in Hu as [_ Hu].
  - right. exists t1, n, (t2 ++ u). rewrite <- app_assoc.
    repeat split; try done. rewrite forallb_app. by rewrite Hi, Hu.
Qed.

Lemma penaltyThenIdle_extends s s' :
  penaltyThenIdle (trace s) -> extends idleEvent s s' ->
  penaltyThenIdle (trace s').
Proof. intros H (t & -> & Ht & _). by apply penaltyThenIdle_app. Qed.

Lemma penaltyThenIdle_penalised s s' :
  nauseaCount (trace s) = 0 -> penalised s s' -> penaltyThenIdle (trace s').
Proof.
  intros H0 (s1 & X & ->). right.
  exists (trace s1), (EvAddEffect "nausea" 200), [].
  repeat split; try done.
  destruct X as (t & -> & Ht & _). rewrite nauseaCount_app, H0.
  rewrite (nauseaCount_none t); [done|]. intros e. by apply calm_no_nausea.
Qed.

Lemma nausea_positive t1 e t2 :
  isNausea e = true -> 0 < nauseaCount (t1 ++ e :: t2).
Proof.
  intros He. rewrite nauseaCount_app. unfold nauseaCount. cbn. rewrite He.
  cbn [length]. lia.
Qed.

Lemma penaltyThenIdle_after t : penaltyThenIdle t -> idleAfterPenalty t.
Proof.
  intros [H0 | (t1 & n & t2 & -> & H1 & Hn & Hi)] u1 e u2 E He.
  - pose proof (nausea_positive u1 e u2 He) as Hp. rewrite <- E in Hp. lia.
  - apply app_eq_app in E as [l [[E1 E2] | [E1 E2]]].
    + destruct l as [|x l].
      * cbn in E2. by injection E2 as _ <-.
      * injection E2 as <- E2. exfalso.
        pose proof (nausea_positive u1 e l He) as Hp. rewrite <- E1 in Hp. lia.
    + destruct l as [|x l].
      * cbn in E2. by injection E2 as _ <-.
      * injection E2 as _ ->. rewrite forallb_app in Hi.
        apply andb_true_iff in Hi as [_ Hi]. cbn in Hi.
        by apply andb_true_iff in Hi as [_ Hi].
Qed.

Section LargePenalty.
Variable orc : Oracle.

Lemma idle_tool (item : option Tool) :
  item <> None -> forall e, toolEvent e = true -> idleEvent e = true.
Proof. by intros _ []. Qed.

Lemma hungerGate_idle cont : Ext idleEvent (hungerGate orc cont).
Proof. unfold hungerGate, reduceHunger, addEffect. ext_auto. Qed.

(** The durability step leaves the reserves alone. *)
Lemma wear_starved item s r s' :
  wear orc item s = (r, s') -> starved (host s) -> starved (host s').
Proof.
  unfold wear, getGameMode, setEquipment, playSound, bind, call, get, emit,
    setHost, ret.
  destruct (faultAt orc GetGameMode (calls s)); cbn.
  { by intros [= <- <-]. }
  destruct (gameMode (host s)); try (by intros [= <- <-]).
  destruct item as [it|]; [|by intros [= <- <-]].
  destruct (faultAt orc DurabilityValid _); cbn.
  { by intros [= <- <-]. }
  destruct (durabilityValid orc _); [|by intros [= <- <-]].
  destruct (faultAt orc DurabilityDamage _); cbn.
  { by intros [= <- <-]. }
  destruct (damageSurvives orc _); cbn.
  - destruct (faultAt orc SetEquipment _); cbn; by intros [= <- <-].
  - destruct (faultAt orc SetEquipment _); cbn; [by intros [= <- <-]|].
    destruct (faultAt orc PlaySound _); cbn; by intros [= <- <-].
Qed.

(** The hunger step, with what it finds when it applies the penalty. *)
Lemma hungerGate_alarm cont s r s' :
  hungerGate orc cont s = (r, s') ->
  (extends calmEvent s s' /\ r <> Stuck /\ r <> Ok true
   /\ (starved (host s) -> hungerDue cont = true -> r = Throw))
  \/ (penalised s s' /\ r = Ok true /\ starved (host s')
      /\ hungerDue cont = true).
Proof.
  unfold hungerGate, hungerDue.
  destruct ((Z.rem cont 10 =? 0) && negb (cont =? 0)).
  2:{ intros [= <- <-]. left. split; [apply extends_refl|done]. }
  unfold bind at 1.
  destruct (reduceHunger orc 1 1 s) as [r1 s1] eqn:E1.
  pose proof E1 as E1'.
  apply (Ext_run calmEvent) in E1 as [X1 N1]; [|apply reduceHunger_calm].
  apply reduceHunger_run in E1' as (_ & _ & Hr).
  destruct r1 as [[|]| |]; try done.
  - intros [= <- <-]. left. repeat split; try done.
    intros [Hb Hst] _. exfalso.
    destruct Hr as [[Hr _] | (_ & hv & sv & Hh & Hs & Hr)]; [congruence|].
    specialize (Hst hv sv Hh Hs) as [Hs1 Hh1].
    destruct Hr as [[Hr _] | (_ & Hr & _)].
    + apply (Qlt_not_le _ _ Hs1 Hr).
    + apply (Qlt_not_le _ _ Hh1 Hr).
  - destruct Hr as (Hh & Hb & Hst).
    unfold addEffect, bind, call, emit.
    destruct (faultAt orc AddEffect (calls s1)); intros [= <- <-].
    + left. split; [|done]. eapply extends_trans; [exact X1|].
      exists []. cbn. by rewrite app_nil_r.
    + right. cbn. split; [|split; [done|split; [|done]]].
      * eexists. split; [|reflexivity].
        eapply extends_trans; [exact X1|]. exists []. cbn.
        by rewrite app_nil_r.
      * unfold starved. by rewrite Hh.
  - intros [= <- <-]. left. by repeat split.
Qed.

Lemma toolChanged_host item s r s' :
  toolChanged orc item s = (r, s') -> host s' = host s.
Proof.
  destruct (toolChanged_cases orc item s)
    as [[-> H] | [(it & s1 & -> & H & Hs) | (it & s1 & -> & H & Hr)]];
    rewrite H; intros [= <- <-]; [done| |].
  - by destruct Hs as (_ & _ & ?).
  - by destruct Hr as (_ & _ & ?).
Qed.

#[local] Arguments wear : simpl never.
#[local] Arguments hungerGate : simpl never.
#[local] Arguments breakOrWarn : simpl never.
#[local] Arguments waitTicks : simpl never.

(** A pass of the large tunnel: it does not apply the penalty, or it
    ends by applying it and leaves the inner loop by [break] with the
    variables as they were; from a starved player at a due step it
    breaks nothing and keeps the variables. *)
Lemma largeIter_alarm perm item maxBlocks axis center o v s r s' :
  largeIter orc perm item maxBlocks axis center o v s = (r, s') ->
  ((extends calmEvent s s' /\ r <> Stuck)
   \/ (penalised s s' /\ r = Ok (Break, v) /\ starved (host s')
       /\ hungerDue (lcont v) = true))
  /\ (starved (host s) -> hungerDue (lcont v) = true ->
      match r with
      | Ok (Next, v') => v' = v /\ starved (host s')
      | Ok (Break, v') => v' = v
      | Ok (Return, _) => False
      | _ => True
      end).
Proof.
  unfold largeIter, checked, bind at 1.
  destruct (toolChanged orc item s) as [rt st] eqn:Et.
  pose proof (toolChanged_host _ _ _ _ Et) as Hh.
  apply (Ext_run calmEvent) in Et as [Xt Nt]; [|apply toolChanged_calm].
  destruct rt as [[|]| |]; try (intros [= <- <-]; split; [by left|done]).
  unfold largeRest, bind at 1, getBlockNow, bind at 1, get, ret at 1.
  destruct (getBlock orc true perm (host st) _) as [b|].
  2:{ intros [= <- <-]. split; [by left|]. intros Hs _. by rewrite Hh. }
  unfold bind at 1.
  destruct (wear orc item st) as [rw sw] eqn:Ew.
  pose proof (wear_starved _ _ _ _ Ew) as Hw.
  apply (Ext_run calmEvent) in Ew as [Xw Nw]; [|apply wear_calm].
  assert (extends calmEvent s sw) as Xsw by (eapply extends_trans; eauto).
  destruct rw as [[]| |]; [|intros [= <- <-]; split; [by left|done]|done].
  unfold bind at 1.
  destruct (hungerGate orc (lcont v) sw) as [rh sh] eqn:Eh.
  apply hungerGate_alarm in Eh as [(Xh & Nh & Th & Hst) | (Ph & -> & Hs & Hd)].
  - assert (extends calmEvent s sh) as Xsh by (eapply extends_trans; eauto).
    destruct rh as [[|]| |]; try done.
    + intros E. split.
      * left. apply (Ext_run calmEvent) in E as [Xr Nr].
        -- split; [|done]. eapply extends_trans; eauto.
        -- apply Ext_bind; [apply breakOrWarn_calm|].
           intros [|]; [apply Ext_ret|]. cbn zeta.
           destruct (_ <=? _); [apply Ext_ret|].
           apply Ext_bind; [apply waitTicks_calm | intros; apply Ext_ret].
      * intros Hs Hd. rewrite <- Hh in Hs. specialize (Hst (Hw Hs) Hd). done.
    + intros [= <- <-]. split; [by left|done].
  - intros [= <- <-]. split; [|done]. right.
    split; [by eapply penalised_after|done].
Qed.

(** From a starved player at a due step a pass stops before its block
    is handed to [breakBlock]: its events are idle. *)
Lemma largeIter_idle perm item maxBlocks axis center o v s r s' :
  starved (host s) -> hungerDue (lcont v) = true ->
  largeIter orc perm item maxBlocks axis center o v s = (r, s') ->
  extends idleEvent s s'.
Proof.
  intros Hs Hd. unfold largeIter, checked, bind at 1.
  destruct (toolChanged orc item s) as [rt st] eqn:Et.
  pose proof (toolChanged_host _ _ _ _ Et) as Hh.
  apply (Ext_run idleEvent) in Et as [Xt Nt];
    [|apply (toolChanged_in orc idleEvent item (idle_tool item))].
  destruct rt as [[|]| |]; try (by intros [= <- <-]).
  unfold largeRest, bind at 1, getBlockNow, bind at 1, get, ret at 1.
  destruct (getBlock orc true perm (host st) _) as [b|];
    [|by intros [= <- <-]].
  unfold bind at 1.
  destruct (wear orc item st) as [rw sw] eqn:Ew.
  pose proof (wear_starved _ _ _ _ Ew) as Hw.
  apply (Ext_run idleEvent) in Ew as [Xw Nw];
    [|apply (wear_in orc idleEvent item (idle_tool item))].
  assert (extends idleEvent s sw) as Xsw by (eapply extends_trans; eauto).
  destruct rw as [[]| |]; [|by intros [= <- <-]|done].
  unfold bind at 1.
  destruct (hungerGate orc (lcont v) sw) as [rh sh] eqn:Eh.
  pose proof Eh as Eh'.
  apply (Ext_run idleEvent) in Eh' as [Xh Nh]; [|apply hungerGate_idle].
  assert (extends idleEvent s sh) as Xsh by (eapply extends_trans; eauto).
  apply hungerGate_alarm in Eh as [(_ & _ & _ & Hst) | (_ & -> & _)].
  - rewrite <- Hh in Hs. rewrite (Hst (Hw Hs) Hd). by intros [= <- <-].
  - by intros [= <- <-].
Qed.

Lemma largeGoal_calm t : nauseaCount t = 0 -> largeGoal t.
Proof. intros H. split; [lia | by left]. Qed.

(** The inner loop, before any penalty. *)
Lemma largeInner_first perm item maxBlocks axis center l : forall v s r s',
  nauseaCount (trace s) = 0 ->
  forEach l (largeIter orc perm item maxBlocks axis center) v s = (r, s') ->
  match r with
  | Ok (Next, v') => largePhase (lcont v') s'
  | Ok (Break, _) | Stuck => False
  | _ => largeGoal (trace s')
  end.
Proof.
  intros v s r s' H0 E.
  eapply (forEach_inv
            (fun _ _ s1 => nauseaCount (trace s1) = 0)
            (fun r s' => match r with
                         | Ok (Next, v') => largePhase (lcont v') s'
                         | Ok (Break, _) | Stuck => False
                         | _ => largeGoal (trace s')
                         end)); [ | | exact H0 | exact E].
  - clear. intros o l v s r s' HI E.
    apply largeIter_alarm in E as [[[X N] | (P & -> & Hs & Hd)] _].
    + apply extends_calm_count in X. rewrite HI in X.
      destruct r as [[[] v']| |]; try done; try (by apply largeGoal_calm).
      split; [by left | by left].
    + split; [by eapply penaltyThenIdle_penalised|].
      apply penalised_count in P. right. split; [lia|]. by split.
  - intros v' s1 HI. split; [by left | by left].
Qed.

(** The inner loop, after the penalty. *)
Lemma largeInner_second perm item maxBlocks axis center l : forall v s r s',
  penaltyThenIdle (trace s) ->
  nauseaCount (trace s) = 1 -> starved (host s) ->
  hungerDue (lcont v) = true -> foundInSlice v = false ->
  forEach l (largeIter orc perm item maxBlocks axis center) v s = (r, s') ->
  largeGoal (trace s')
  /\ match r with
     | Ok (Next, v') => foundInSlice v' = false
     | Ok (Break, _) | Ok (Return, _) | Stuck => False
     | Throw => True
     end.
Proof.
  intros v s r s' Hp H1 Hs Hd Hf E.
  eapply (forEach_inv
            (fun _ v1 s1 => penaltyThenIdle (trace s1)
                            /\ nauseaCount (trace s1) = 1
                            /\ starved (host s1) /\ v1 = v)
            (fun r s' => largeGoal (trace s')
                         /\ match r with
                            | Ok (Next, v') => foundInSlice v' = false
                            | Ok (Break, _) | Ok (Return, _) | Stuck => False
                            | Throw => True
                            end)); [ | | | exact E]; [ | |done].
  - intros o l' v1 s1 r1 s1' (HIp & HI & HIs & ->) E1.
    pose proof (largeIter_idle _ _ _ _ _ _ _ _ _ _ HIs Hd E1) as Xi.
    pose proof (penaltyThenIdle_extends _ _ HIp Xi) as Hp'.
    apply largeIter_alarm in E1 as [Hc Ha]. specialize (Ha HIs Hd).
    assert (nauseaCount (trace s1') <= 2 /\ r1 <> Stuck) as [Hn Hk].
    { destruct Hc as [[X N] | (P & -> & _)].
      - apply extends_calm_count in X. split; [lia|done].
      - apply penalised_count in P. split; [lia|done]. }
    destruct r1 as [[[] v']| |]; try done.
    + destruct Ha as [-> Hs']. split; [done|]. split; [|by split].
      destruct Hc as [[X N] | (P & [= ] & _)].
      apply extends_calm_count in X. lia.
    + subst v'. done.
  - intros v1 s1 (HIp & HI & _ & ->). split; [|done]. split; [lia|done].
Qed.

Lemma largeSlice_phase origin perm item maxBlocks axis sgn d w s r s' :
  largePhase (fst (fst w)) s ->
  largeSlice orc origin perm item maxBlocks axis sgn d w s = (r, s') ->
  match r with
  | Ok (Next, w') => largePhase (fst (fst w')) s'
  | Stuck => False
  | _ => largeGoal (trace s')
  end.
Proof.
  destruct w as [[c b] outward]. cbn [fst]. intros [Hp Hph].
  unfold largeSlice, bind.
  destruct (forEach _ _ _ s) as [ri si] eqn:Ei.
  destruct Hph as [H0 | (H1 & Hs & Hd)].
  - apply largeInner_first in Ei; [|done].
    destruct ri as [[[] v]| |]; try done; try (by intros [= <- <-]).
    destruct (negb (foundInSlice v)); intros [= <- <-]; cbn; [|done].
    destruct Ei as [Hp' [H | (H & _)]]; (split; [lia | done]).
  - apply largeInner_second in Ei as [Hn Hr]; try done.
    destruct ri as [[[] v]| |]; try done; try (by intros [= <- <-]).
    rewrite Hr. cbn. by intros [= <- <-].
Qed.

Lemma largeTunnel_goal origin perm maxVein item h :
  largeGoal (trace (snd (largeTunnel orc origin perm maxVein item (initSt h)))).
Proof.
  unfold largeTunnel, tryFinally.
  destruct (bind _ _ (initSt h)) as [r s1] eqn:E.
  assert (largeGoal (trace s1)) as Hb.
  { revert E. cbn zeta. unfold bind at 1.
    destruct (call orc GetDimension (initSt h)) as [rc sc] eqn:Ec.
    apply call_same in Ec as [(Et & _) _]. cbn in Et.
    destruct rc as [?| |];
      try (intros [= <- <-]; apply largeGoal_calm; rewrite Et; by vm_compute).
    unfold bind at 1.
    destruct (getViewDirection orc sc) as [rv sv] eqn:Ev.
    apply getViewDirection_run in Ev as [(Et2 & _) Hv].
    assert (nauseaCount (trace sv) = 0) as H0 by (by rewrite Et2, Et).
    destruct Hv as [-> | ->]; [intros [= <- <-]; by apply largeGoal_calm|].
    destruct (aimAxis true _) as [axis sgn].
    unfold bind at 1, get. unfold bind.
    destruct (forEach _ _ _ sv) as [rl sl] eqn:El.
    eapply (forEach_inv
              (fun _ w s => largePhase (fst (fst w)) s)
              (fun r s => largeGoal (trace s) /\ r <> Stuck)) in El.
    - destruct El as [Hn Hk].
      destruct rl as [[]| |]; intros [= <- <-]; done.
    - intros d l w s0 r0 s0' HI E0.
      eapply largeSlice_phase in E0; [|exact HI].
      destruct r0 as [[[] w']| |]; try done.
    - intros w s0 [Hp [H | (H & _)]]; (split; [split; [lia | done] | done]).
    - split; [by left | by left]. }
  destruct (dropVeinLoot orc s1) as [r2 s2] eqn:E2.
  apply dropVeinLoot_events in E2 as [(u & Eu & Hu & _) _].
  assert (largeGoal (trace s2)) as H2.
  { destruct Hb as [Hn Hp]. rewrite Eu. split.
    - rewrite nauseaCount_app, (nauseaCount_none u); [lia|].
      intros e. by apply spawn_no_nausea.
    - apply penaltyThenIdle_app; [done | by apply spawn_idle]. }
  destruct r as [[]| |]; destruct r2 as [[]| |]; first [exact H2 | exact Hb].
Qed.

End LargePenalty.

(** X23. A run of the large tunnel applies the nausea penalty at most
    twice, and after the first penalty it hands no further block to
    [breakBlock]: what follows a penalty in the trace is no break, no
    command, no loot generation, no tick and no warning, only tool
    checks, the wear of the tool, the second penalty and the emission of
    the loot. *)
Theorem large_tunnel_penalty_at_most_twice (orc : Oracle) (origin : Pos)
    (brokenBlock : string) (maxVein : Z) (item : option Tool) (h : Host) :
  let t := trace (snd (veinHandler orc LargeTunnel origin brokenBlock maxVein
                                   item (initSt h))) in
  nauseaCount t <= 2
  /\ idleAfterPenalty t
  /\ forall t1 e t2, t = t1 ++ e :: t2 -> isNausea e = true ->
                     blocksBroken t2 = 0.
Proof.
  cbn zeta.
  destruct (largeTunnel_goal orc origin brokenBlock maxVein item h) as [Hn Hp].
  apply penaltyThenIdle_after in Hp.
  split; [exact Hn|]. split; [exact Hp|].
  intros t1 e t2 E He. specialize (Hp t1 e t2 E He). clear E.
  unfold blocksBroken. induction t2 as [|x t2 IH]; [done|].
  cbn [forallb] in Hp. apply andb_true_iff in Hp as [Hx Hp].
  destruct x; cbn in Hx |- *; try discriminate; by apply IH.
Qed.

(** ** Loot generation *)

(** *** Properties of traces that a computation keeps *)

Lemma Keeps_ret {X} Q (x : X) : Keeps Q (ret x).
Proof. by intros s. Qed.

Lemma Keeps_throw {X} Q : Keeps Q (fun s => (@Throw X, s)).
Proof. by intros s. Qed.

Lemma Keeps_bind {X Y} Q (m : M X) (f : X -> M Y) :
  Keeps Q m -> (forall x, Keeps Q (f x)) -> Keeps Q (bind m f).
Proof.
  intros Hm Hf s H. unfold bind. specialize (Hm s H).
  destruct (m s) as [[x| |] s1]; cbn in *; [by apply Hf | done | done].
Qed.

Lemma Keeps_tryCatch {X} Q (m h : M X) :
  Keeps Q m -> Keeps Q h -> Keeps Q (tryCatch m h).
Proof.
  intros Hm Hh s H. unfold tryCatch. specialize (Hm s H).
  destruct (m s) as [[x| |] s1]; cbn in *; [done | by apply Hh | done].
Qed.

Lemma Keeps_tryFinally {X} Q (m : M X) (f : M unit) :
  Keeps Q m -> Keeps Q f -> Keeps Q (tryFinally m f).
Proof.
  intros Hm Hf s H. unfold tryFinally. specialize (Hm s H).
  destruct (m s) as [r s1]; cbn in *. specialize (Hf s1 Hm).
  destruct r as [x| |]; [| |done]; by destruct (f s1) as [[[]| |] s2].
Qed.

Lemma Keeps_forEach {X V} Q (body : X -> V -> M (Flow * V)) (l : list X) :
  (forall a v, Keeps Q (body a v)) -> forall v, Keeps Q (forEach l body v).
Proof.
  intros Hb. induction l as [|a l IH]; intros v; cbn; [apply Keeps_ret|].
  apply Keeps_bind; [apply Hb|]. intros [[] v']; try apply Keeps_ret.
  apply IH.
Qed.

(** A property that events of a class do not break is kept by a
    computation that only makes events of that class. *)
Lemma Keeps_Ext {X} (Q : list Event -> Prop) (A : Event -> bool) (m : M X) :
  (forall t e, A e = true -> Q t -> Q (t ++ [e])) ->
  Ext A m -> Keeps Q m.
Proof.
  intros Hq Hm s H. destruct (Hm s) as [(t & E & Ht & _) _]. rewrite E.
  clear E. revert Ht. induction t as [|e t IH] using rev_ind; intros Ht.
  - by rewrite app_nil_r.
  - rewrite forallb_app in Ht. apply andb_true_iff in Ht as [Ht He].
    cbn in He. apply andb_true_iff in He as [He _].
    rewrite app_assoc. apply Hq; [done|]. by apply IH.
Qed.

(** *** The positions loot is generated for *)

Lemma owes_app st t u :
  owes st (t ++ u)
  = match owes st t with
    | Some st' => owes st' u
    | None => None
    end.
Proof.
  revert st. induction t as [|e t IH]; intros st; [done|].
  destruct e; cbn; try apply IH.
  destruct st as [p0|]; [|done]. by destruct (decide (p = p0)).
Qed.

Lemma lootFollowsBreaks_quiet t e :
  lootQuiet e = true -> lootFollowsBreaks t -> lootFollowsBreaks (t ++ [e]).
Proof.
  unfold lootFollowsBreaks. intros He H. rewrite owes_app.
  destruct (owes None t) as [st|]; [|done]. by destruct e.
Qed.

Section LootFollows.
Variable orc : Oracle.

Ltac quiet_ext := apply (Keeps_Ext _ lootQuiet);
                  [apply lootFollowsBreaks_quiet|].

Lemma Keeps_call a : Keeps lootFollowsBreaks (call orc a).
Proof. quiet_ext. apply Ext_call. Qed.

Lemma Keeps_toolChanged item : Keeps lootFollowsBreaks (toolChanged orc item).
Proof. quiet_ext. unfold toolChanged, getEquipment. ext_auto. Qed.

Lemma Keeps_wear item : Keeps lootFollowsBreaks (wear orc item).
Proof.
  quiet_ext. unfold wear, getGameMode, setEquipment, playSound. ext_auto.
Qed.

Lemma Keeps_hungerGate cont : Keeps lootFollowsBreaks (hungerGate orc cont).
Proof. quiet_ext. unfold hungerGate, reduceHunger, addEffect. ext_auto. Qed.

Lemma Keeps_waitTicks : Keeps lootFollowsBreaks (waitTicks orc).
Proof. quiet_ext. by apply Ext_waitTicks. Qed.

Lemma Keeps_consoleWarn : Keeps lootFollowsBreaks (consoleWarn orc).
Proof. quiet_ext. unfold consoleWarn. ext_auto. Qed.

Lemma Keeps_getViewDirection : Keeps lootFollowsBreaks (getViewDirection orc).
Proof. quiet_ext. unfold getViewDirection. ext_auto. Qed.

Lemma Keeps_runCommand Q c :
  (forall t e, lootQuiet e = true -> Q t -> Q (t ++ [e])) ->
  Keeps Q (runCommand orc c).
Proof.
  intros HQ. apply (Keeps_Ext _ lootQuiet); [done|].
  unfold runCommand. ext_auto.
Qed.

Lemma Keeps_dropVeinLoot : Keeps lootFollowsBreaks (dropVeinLoot orc).
Proof.
  intros s H. destruct (dropVeinLoot orc s) as [r s'] eqn:E. cbn.
  apply dropVeinLoot_events in E as [(t & Et & Ht & _) _]. rewrite Et.
  clear Et. revert Ht. induction t as [|e t IH] using rev_ind; intros Ht.
  - by rewrite app_nil_r.
  - rewrite forallb_app in Ht. apply andb_true_iff in Ht as [Ht He].
    cbn in He. apply andb_true_iff in He as [He _].
    rewrite app_assoc. apply lootFollowsBreaks_quiet; [by destruct e|].
    by apply IH.
Qed.

Lemma Takes_step {X Y} (Q S : list Event -> Prop) (m : M X) (f : X -> M Y) :
  Keeps Q m -> (forall t, Q t -> S t) -> (forall x, Takes Q S (f x)) ->
  Takes Q S (bind m f).
Proof.
  intros Hm Hw Hf s H. unfold bind. specialize (Hm s H).
  destruct (m s) as [[x| |] s1]; cbn in *; [by apply Hf | | ]; by apply Hw.
Qed.

Lemma Takes_weaken {X} (Q S : list Event -> Prop) (m : M X) :
  Keeps Q m -> (forall t, Q t -> S t) -> Takes Q S m.
Proof. intros Hm Hw s H. apply Hw. by apply Hm. Qed.

Lemma owed_quiet st t e :
  lootQuiet e = true -> owes None t = Some st -> owes None (t ++ [e]) = Some st.
Proof. intros He H. rewrite owes_app, H. by destruct e. Qed.

(** After its entry [breakBlock] generates the loot of its position at
    most once. *)
Lemma breakBlockRest_takes item p b :
  Takes (fun t => owes None t = Some (Some p)) (pendingAt p)
        (breakBlockRest orc item p b).
Proof.
  assert (forall X (m : M X), Ext lootQuiet m ->
            Keeps (fun t => owes None t = Some (Some p)) m) as Hq.
  { intros X m. apply Keeps_Ext. intros t e. apply owed_quiet. }
  assert (forall X (m : M X), Ext lootQuiet m ->
            Keeps (fun t => owes None t = Some None) m) as Hq2.
  { intros X m. apply Keeps_Ext. intros t e. apply owed_quiet. }
  assert (forall c,
            Takes (fun t => owes None t = Some (Some p)) (pendingAt p)
                  (runCommand orc c)) as Hcmd.
  { intros c. apply Takes_weaken; [|by left].
    apply Hq. unfold runCommand. ext_auto. }
  unfold breakBlockRest, hasTag, itemComponent.
  apply Takes_step; [apply Hq, Ext_call | by left | intros _].
  do 4 (apply Takes_step;
        [apply Hq; ext_auto | by left | intros [|]; [apply Hcmd|]]).
  do 2 (apply Takes_step;
        [apply Hq; ext_auto | by left | intros [|]; [apply Hcmd|]]).
  apply Takes_step; [apply Hq, Ext_call | by left | intros n].
  destruct (lootOf orc n p b item) as [drops|]; [|by left].
  intros s H. unfold bind at 1, emit.
  match goal with |- context [bind _ _ ?s0] => set (s1 := s0) end.
  assert (owes None (trace s1) = Some None) as H1.
  { subst s1. cbn. rewrite owes_app, H. cbn. by destruct (decide (p = p)). }
  clearbody s1. right. revert s1 H1.
  change (Keeps (fun t => owes None t = Some None)
                (bind (addDrops drops) (fun _ => runCommand orc (FillAir p)))).
  apply Keeps_bind; [by intros s2 H2|]. intros _.
  apply Hq2. unfold runCommand. ext_auto.
Qed.

Lemma breakBlock_keeps item p b :
  Keeps lootFollowsBreaks (breakBlock orc item p b true).
Proof.
  intros s H. rewrite breakBlock_unfold. unfold bind at 1, emit.
  match goal with |- context [breakBlockRest orc item p b ?s0] =>
    set (s1 := s0)
  end.
  assert (owes None (trace s1) = Some (Some p)) as Hp.
  { subst s1. cbn. rewrite owes_app.
    unfold lootFollowsBreaks in H. by destruct (owes None (trace s)). }
  clearbody s1. apply (breakBlockRest_takes item p b) in Hp.
  unfold lootFollowsBreaks. destruct Hp as [-> | ->]; done.
Qed.

Lemma breakOrWarn_keeps item p b :
  Keeps lootFollowsBreaks (breakOrWarn orc item p b).
Proof.
  unfold breakOrWarn. apply Keeps_tryCatch.
  - apply Keeps_bind; [apply breakBlock_keeps | intros; apply Keeps_ret].
  - apply Keeps_bind; [apply Keeps_consoleWarn | intros; apply Keeps_ret].
Qed.

Lemma checked_keeps {V} item stop (v : V) (rest : M (Flow * V)) :
  Keeps lootFollowsBreaks rest ->
  Keeps lootFollowsBreaks (checked orc item stop v rest).
Proof.
  intros Hr. unfold checked. apply Keeps_bind; [apply Keeps_toolChanged|].
  intros []; [apply Keeps_ret | exact Hr].
Qed.

Lemma Keeps_silent {X} Q (f : St -> X) : Keeps Q (bind get (fun s => ret (f s))).
Proof. by intros s. Qed.

Lemma floodIter_keeps eligibleType item v :
  Keeps lootFollowsBreaks (floodIter orc eligibleType item v).
Proof.
  unfold floodIter. apply checked_keeps. unfold floodRest.
  destruct (toCheck v) as [|pos rest]; [apply Keeps_throw|].
  destruct (decide (pos ∈ visited v)); [apply Keeps_ret|].
  cbn zeta. unfold getBlockOrUndefined.
  apply Keeps_bind; [apply Keeps_silent|]. intros targetBlock.
  destruct (_ || _); [|apply Keeps_ret].
  apply Keeps_bind; [apply Keeps_wear|]. intros _.
  apply Keeps_bind; [apply Keeps_hungerGate|].
  intros [|]; [apply Keeps_ret|].
  apply Keeps_bind; [|intros; apply Keeps_ret].
  destruct targetBlock as [b|]; [|apply Keeps_ret].
  apply Keeps_bind; [apply breakBlock_keeps | intros; apply Keeps_waitTicks].
Qed.

Lemma lineIter_keeps origin perm item axis sgn d cont :
  Keeps lootFollowsBreaks (lineIter orc origin perm item axis sgn d cont).
Proof.
  unfold lineIter. apply checked_keeps. unfold lineRest, getBlockNow.
  apply Keeps_bind; [apply Keeps_silent|]. intros [b|]; [|apply Keeps_ret].
  apply Keeps_bind; [apply Keeps_wear|]. intros _.
  apply Keeps_bind; [apply Keeps_hungerGate|].
  intros [|]; [apply Keeps_ret|].
  apply Keeps_bind; [apply breakOrWarn_keeps|].
  intros [|]; [apply Keeps_ret|].
  apply Keeps_bind; [apply Keeps_waitTicks | intros; apply Keeps_ret].
Qed.

Lemma smallIter_keeps perm item base off cont :
  Keeps lootFollowsBreaks (smallIter orc perm item base off cont).
Proof.
  unfold smallIter. apply checked_keeps. unfold smallRest, getBlockNow.
  apply Keeps_bind; [apply Keeps_silent|]. intros [b|]; [|apply Keeps_ret].
  apply Keeps_bind; [apply Keeps_wear|]. intros _.
  apply Keeps_bind; [apply Keeps_hungerGate|].
  intros [|]; [apply Keeps_ret|].
  apply Keeps_bind; [apply breakOrWarn_keeps|].
  intros [|]; [apply Keeps_ret|].
  apply Keeps_bind; [apply Keeps_waitTicks | intros; apply Keeps_ret].
Qed.

Lemma largeIter_keeps perm item maxBlocks axis center o v :
  Keeps lootFollowsBreaks (largeIter orc perm item maxBlocks axis center o v).
Proof.
  unfold largeIter. apply checked_keeps. unfold largeRest, getBlockNow.
  apply Keeps_bind; [apply Keeps_silent|]. intros [b|]; [|apply Keeps_ret].
  apply Keeps_bind; [apply Keeps_wear|]. intros _.
  apply Keeps_bind; [apply Keeps_hungerGate|].
  intros [|]; [apply Keeps_ret|].
  apply Keeps_bind; [apply breakOrWarn_keeps|].
  intros [|]; [apply Keeps_ret|].
  cbn zeta. destruct (_ <=? _); [apply Keeps_ret|].
  apply Keeps_bind; [apply Keeps_waitTicks | intros; apply Keeps_ret].
Qed.

Lemma floodLoop_keeps eligibleType item maxVein fuel : forall v,
  Keeps lootFollowsBreaks (floodLoop orc fuel eligibleType item maxVein v).
Proof.
  induction fuel as [|fuel IH]; intros v.
  - rewrite floodLoop_0. destruct (_ && _); by intros s.
  - rewrite floodLoop_S. destruct (_ && _); [|apply Keeps_ret].
    apply Keeps_bind; [apply floodIter_keeps|].
    intros [[] v']; try apply Keeps_ret. apply IH.
Qed.

Lemma tunnel_keeps {V} (loop : Axis -> Z -> Host -> M (Flow * V)) :
  (forall axis sgn h0, Keeps lootFollowsBreaks (loop axis sgn h0)) ->
  Keeps lootFollowsBreaks
    (bind (call orc GetDimension) (fun _ =>
     bind (getViewDirection orc) (fun v =>
     let '(axis, stepSign) := aimAxis true v in
     bind get (fun s =>
     bind (loop axis stepSign (host s)) (fun _ => ret tt))))).
Proof.
  intros Hl.
  apply Keeps_bind; [apply Keeps_call|]. intros _.
  apply Keeps_bind; [apply Keeps_getViewDirection|]. intros v.
  destruct (aimAxis true v) as [axis sgn].
  apply Keeps_bind; [by intros s|]. intros s.
  apply Keeps_bind; [apply Hl | intros; apply Keeps_ret].
Qed.

Lemma handler_keeps sh origin perm maxVein item :
  Keeps lootFollowsBreaks (veinHandler orc sh origin perm maxVein item).
Proof.
  destruct sh; cbn [veinHandler].
  1-3: apply Keeps_tryFinally; [|apply Keeps_dropVeinLoot];
       apply Keeps_bind; [apply Keeps_call|]; intros _;
       apply floodLoop_keeps.
  - apply Keeps_tryFinally; [|apply Keeps_dropVeinLoot].
    apply (tunnel_keeps
             (fun axis sgn h0 =>
                forEach (largeDepths orc perm h0 axis origin (maxVein / 4))
                        (largeSlice orc origin perm item (maxVein * 2)
                                    axis sgn)
                        (0, 0, true))).
    intros axis sgn h0. apply Keeps_forEach. intros d [[c b] outward].
    unfold largeSlice. apply Keeps_bind.
    + apply Keeps_forEach. intros o v. apply largeIter_keeps.
    + intros [[] v]; try apply Keeps_ret; destruct (negb _); apply Keeps_ret.
  - apply Keeps_tryFinally; [|apply Keeps_dropVeinLoot].
    apply (tunnel_keeps
             (fun axis sgn _ =>
                forEach (seqZ 0 (maxVein / 2))
                        (smallSlice orc origin perm item axis sgn) 0)).
    intros axis sgn _. apply Keeps_forEach. intros d c.
    unfold smallSlice. apply Keeps_forEach. intros off c'.
    apply smallIter_keeps.
  - apply Keeps_tryFinally; [|apply Keeps_dropVeinLoot].
    apply (tunnel_keeps
             (fun axis sgn _ =>
                forEach (seqZ 0 maxVein)
                        (lineIter orc origin perm item axis sgn) 0)).
    intros axis sgn _. apply Keeps_forEach. intros d c.
    apply lineIter_keeps.
Qed.

End LootFollows.

(** The positions loot was generated for are among those handed to
    [breakBlock], in their order and no more often. *)
Lemma owes_sublist t : forall st st',
  owes st t = Some st' ->
  sublist (lootPositions t)
          (match st with Some p => [p] | None => [] end ++ breakPositions t).
Proof.
  unfold lootPositions, breakPositions.
  induction t as [|e t IH]; intros st st' H; cbn.
  { apply sublist_nil_l. }
  destruct e; cbn in H |- *;
    try (by eapply IH).
  - (* a break *)
    apply IH in H. cbn in H.
    destruct st as [p0|]; cbn; [by apply sublist_cons|done].
  - (* a loot generation *)
    destruct st as [p0|]; [|done].
    destruct (decide (p = p0)) as [->|]; [|done].
    apply IH in H. cbn in H. by apply sublist_skip.
Qed.

(** X24. In a run of any shape loot is generated only for the block that
    was handed to [breakBlock] last, and at most once for each time a
    block is handed over. *)
Theorem loot_is_generated_once_per_break (orc : Oracle) (sh : Shape)
    (origin : Pos) (brokenBlock : string) (maxVein : Z) (item : option Tool)
    (h : Host) :
  lootFollowsBreaks
    (trace (snd (veinHandler orc sh origin brokenBlock maxVein item
                             (initSt h)))).
Proof. by apply (handler_keeps orc sh origin brokenBlock maxVein item). Qed.

(** X25. A flood-fill run generates the loot of no position twice. *)
Theorem flood_fill_generates_no_loot_twice (orc : Oracle)
    (eligibleType : string -> bool) (origin : Pos) (maxVein : Z)
    (item : option Tool) (h : Host) :
  NoDup (lootPositions
           (trace (snd (floodFill orc eligibleType origin maxVein item
                                  (initSt h))))).
Proof.
  assert (Keeps lootFollowsBreaks
                (floodFill orc eligibleType origin maxVein item)) as Hk.
  { unfold floodFill.
    apply Keeps_tryFinally; [|apply Keeps_dropVeinLoot].
    apply Keeps_bind; [apply Keeps_call|]. intros _. apply floodLoop_keeps. }
  specialize (Hk (initSt h)). unfold lootFollowsBreaks in Hk.
  destruct (owes None (trace (snd (floodFill orc eligibleType origin maxVein
                                             item (initSt h)))))
    as [st|] eqn:E; [|by exfalso; apply Hk].
  apply owes_sublist in E. cbn [app] in E.
  eapply sublist_NoDup; [|exact E].
  apply (floodFill_goal orc eligibleType origin maxVein item h).
Qed.
